(** * Hybrid model-predictive controller on top of Gurobi
    (pympc/control/controllers_gurobi.py)

    A shallow embedding of the controller: the graph representation of the
    piecewise-affine dynamics, the big-M pre-computation, the construction of
    the relaxed mixed-integer program, the bookkeeping of the fixed part of
    the mode sequence, the relaxation oracle and the branching heuristic.

    Conventions of the embedding.
    - Python floats are read as exact rationals ([Q]): no rounding, no NaN.
      Equality of floats ([==] in Python) is [Qeq].
    - A two-dimensional numpy array is the list of its rows; a column vector
      (shape n x 1, read as [v[k,0]]) is the list of its entries.
    - Code that can raise returns in the error monad [py].
    - The Gurobi model is a record of its variables, constraints, objective
      and parameters; changes take effect at once (the lazy update of
      Gurobi is not modelled).  The solver ([prog.optimize()]) and the
      linear programs of the big-M constants
      ([pympc.optimization.programs.linear_program]) are oracles.
    - [feedforward] and [feedforward_gurobi] only drive the external tree
      search and the solver; they are not embedded. *)

From Stdlib Require Import String Ascii DecimalString.
From Stdlib Require Import List Bool Arith Lia ZArith QArith Qabs Lqa.
From Stdlib Require Import Permutation Sorted.
Import ListNotations.
Close Scope Q_scope.

(** ** Exceptions *)

Inductive pyerr : Type :=
| ValueError | TypeError | NameError | AttributeError | KeyError | IndexError
| GurobiError.

Definition py (T : Type) : Type := (pyerr + T)%type.

Definition ret {T} (a : T) : py T := inr a.
Definition raise {T} (e : pyerr) : py T := inl e.
Definition bind {T U} (c : py T) (k : T -> py U) : py U :=
  match c with
  | inl e => inl e
  | inr a => k a
  end.

Notation "x <- c ;; k" := (bind c (fun x => k))
  (at level 61, c at next level, right associativity).
Notation "' p <- c ;; k" := (bind c (fun x => let 'p := x in k))
  (at level 61, p pattern, c at next level, right associativity).

(** A [for] loop that builds a list by [append], one element per pass. *)
Fixpoint mapM {T U} (f : T -> py U) (l : list T) : py (list U) :=
  match l with
  | [] => ret []
  | a :: l' => y <- f a ;; ys <- mapM f l' ;; ret (y :: ys)
  end.

(** [l[i]] on a Python list. *)
Definition index {T} (l : list T) (i : nat) : py T :=
  match nth_error l i with
  | Some a => ret a
  | None => raise IndexError
  end.

(** ** Arrays *)

Abbreviation vector := (list Q) (only parsing).
Abbreviation matrix := (list (list Q)) (only parsing).

Definition zeros (r c : nat) : matrix := repeat (repeat 0%Q c) r.

Definition unit_row (n i : nat) : vector :=
  map (fun j => if i =? j then 1%Q else 0%Q) (seq 0 n).

Definition eye (n : nat) : matrix := map (unit_row n) (seq 0 n).

Definition neg (M : matrix) : matrix := map (map Qopp) M.

(** [np.hstack]: the blocks must have the same number of rows. *)
Definition hstack (Ms : list matrix) : py matrix :=
  match Ms with
  | [] => raise ValueError
  | M0 :: _ =>
      if forallb (fun M => length M =? length M0) Ms
      then ret (map (fun k => concat (map (fun M => nth k M []) Ms))
                    (seq 0 (length M0)))
      else raise ValueError
  end.

(** [np.vstack]: the blocks must have the same number of columns.  The width
    of a block is read off its rows, so a block without rows passes. *)
Definition vstack (Ms : list matrix) : py matrix :=
  match concat Ms with
  | [] => match Ms with [] => raise ValueError | _ => ret [] end
  | r0 :: rs =>
      if forallb (fun r => length r =? length r0) rs
      then ret (r0 :: rs)
      else raise ValueError
  end.

(** Inner product of two numeric vectors (truncating; the fallible product
    with a vector of program variables is [dot_vars] below). *)
Fixpoint dot (a w : vector) : Q :=
  match a, w with
  | x :: a', y :: w' => (x * y + dot a' w')%Q
  | _, _ => 0%Q
  end.

(** ** The data of the problem *)

(** Modelled from the spec: [pympc.geometry.polyhedron.Polyhedron] is not
    in the file; a polyhedron [{w : A w <= b}] is the pair of the arrays
    the controller reads, [P.A] and [P.b]. *)
Module Polyhedron.
Record t : Type := mk { A : matrix; b : vector }.
End Polyhedron.

(** Modelled from the spec: the affine system [x+ = A x + B u + c] of a
    mode, with the fields [A], [B], [c] the controller reads; its class is
    not in the file. *)
Module AffineSystem.
Record t : Type := mk { A : matrix; B : matrix; c : vector }.
End AffineSystem.

(** Modelled from the spec: the piecewise-affine system, with the fields
    [nx], [nu], [nm], [affine_systems], [domains] the controller reads;
    its class is not in the file. *)
Module PiecewiseAffineSystem.
Record t : Type := mk {
  nx : nat; nu : nat; nm : nat;
  affine_systems : list AffineSystem.t;
  domains : list Polyhedron.t }.
End PiecewiseAffineSystem.

Import PiecewiseAffineSystem.

(** [w] satisfies every row of the polyhedron. *)
Definition In_poly (P : Polyhedron.t) (w : vector) : Prop :=
  forall k, k < length (Polyhedron.A P) ->
    (dot (nth k (Polyhedron.A P) []) w <= nth k (Polyhedron.b P) 0)%Q.

(** Shapes the caller is expected to respect. *)
Definition has_shape (M : matrix) (r c : nat) : bool :=
  (length M =? r) && forallb (fun row => length row =? c) M.

Definition wf_affine (nx nu : nat) (Si : AffineSystem.t) : bool :=
  has_shape (AffineSystem.A Si) nx nx &&
  has_shape (AffineSystem.B Si) nx nu &&
  (length (AffineSystem.c Si) =? nx).

Definition wf_domain (nx nu : nat) (Di : Polyhedron.t) : bool :=
  has_shape (Polyhedron.A Di) (length (Polyhedron.b Di)) (nx + nu).

Definition wf_system (S : PiecewiseAffineSystem.t) : bool :=
  (length (domains S) =? nm S) &&
  (length (affine_systems S) =? nm S) &&
  forallb (wf_affine (nx S) (nu S)) (affine_systems S) &&
  forallb (wf_domain (nx S) (nu S)) (domains S).

(** ** get_graph_representation *)

Definition graph_of_mode (S : PiecewiseAffineSystem.t) (i : nat)
  : py Polyhedron.t :=
  Di <- index (domains S) i ;;
  Si <- index (affine_systems S) i ;;
  r1 <- hstack [Polyhedron.A Di; zeros (length (Polyhedron.A Di)) (nx S)] ;;
  r2 <- hstack [AffineSystem.A Si; AffineSystem.B Si; neg (eye (nx S))] ;;
  r3 <- hstack [neg (AffineSystem.A Si); neg (AffineSystem.B Si); eye (nx S)] ;;
  Ai <- vstack [r1; r2; r3] ;;
  let bi := Polyhedron.b Di ++ map Qopp (AffineSystem.c Si) ++ AffineSystem.c Si in
  ret (Polyhedron.mk Ai bi).

Definition get_graph_representation (S : PiecewiseAffineSystem.t)
  : py (list Polyhedron.t) :=
  mapM (graph_of_mode S) (seq 0 (nm S)).

(** ** get_big_m *)

Definition Qltb (x y : Q) : bool := negb (Qle_bool y x).

Definition default_tol : Q := 1 # 1000000.

(** [if np.abs(mijk) < tol: mijk = 0.] *)
Definition snap (tol mijk : Q) : Q :=
  if Qltb (Qabs mijk) tol then 0%Q else mijk.

(** [np.vstack] of a list of scalars: an n x 1 column; the empty list is
    refused ("need at least one array to concatenate"). *)
Definition vstack_scalars (l : list Q) : py vector :=
  match l with
  | [] => raise ValueError
  | _ => ret l
  end.

(** [np.maximum(a, b)] on two numbers. *)
Definition maximum (a b : Q) : Q := if Qle_bool b a then a else b.

Fixpoint map2 {T U V} (f : T -> U -> V) (l1 : list T) (l2 : list U) : list V :=
  match l1, l2 with
  | a :: l1', b :: l2' => f a b :: map2 f l1' l2'
  | _, _ => []
  end.

(** [np.maximum.reduce] along the first axis of a list of equally long
    columns, folding from the left; the reduction has no identity. *)
Definition maximum_reduce (cols : list vector) : py vector :=
  match cols with
  | [] => raise ValueError
  | c0 :: cs => ret (fold_left (map2 maximum) cs c0)
  end.

Section BigM.

(** Modelled from the spec: [pympc.optimization.programs.linear_program]
    is not in the file.  The oracle gives the field ['min'] of the answer
    to [linear_program(f, A, b)], the least value of [f . w] over
    [A w <= b], and [None] when there is none (negating [None] is a
    [TypeError]). *)
Variable linear_program : vector -> matrix -> vector -> option Q.

Definition big_m_entry (tol : Q) (Pi Pj : Polyhedron.t) (k : nat) : py Q :=
  let f := map Qopp (nth k (Polyhedron.A Pi) []) in
  match linear_program f (Polyhedron.A Pj) (Polyhedron.b Pj) with
  | None => raise TypeError
  | Some min =>
      bk <- index (Polyhedron.b Pi) k ;;
      ret (snap tol (- min - bk)%Q)
  end.

Definition get_big_m (P_list : list Polyhedron.t) (tol : Q)
  : py (list (list vector) * list vector) :=
  m <- mapM (fun Pi =>
         mapM (fun Pj =>
           mij <- mapM (big_m_entry tol Pi Pj)
                       (seq 0 (length (Polyhedron.A Pi))) ;;
           vstack_scalars mij) P_list) P_list ;;
  mi <- mapM maximum_reduce m ;;
  ret (m, mi).

End BigM.

(** [m[i][j][k,0]] as a number (0 out of range). *)
Definition m_val (m : list (list vector)) (i j k : nat) : Q :=
  nth k (nth j (nth i m []) []) 0%Q.

(** [m[i][j][k,0]] and [mi[i][k,0]], when in range. *)
Definition m_at (m : list (list vector)) (i j k : nat) : option Q :=
  match nth_error m i with
  | Some mi =>
      match nth_error mi j with
      | Some mij => nth_error mij k
      | None => None
      end
  | None => None
  end.

Definition mi_at (mi : list vector) (i k : nat) : option Q :=
  match nth_error mi i with
  | Some col => nth_error col k
  | None => None
  end.

(** ** The Gurobi model *)

(** [GRB.INFINITY]. *)
Definition GRB_INFINITY : Q := inject_Z (10 ^ 100).

(** Variable types: [GRB.CONTINUOUS] ('C'), [GRB.BINARY] ('B') and
    [GRB.INTEGER] ('I'). *)
Inductive vtype : Type := CONTINUOUS | BINARY | INTEGER.

Record Var : Type := mkVar {
  VarName : string;
  LB : Q;
  UB : Q;
  VType : vtype;
  VBasis : option Z }.

(** A linear expression: coefficient-variable pairs and a constant; a
    variable is referred to by its name. *)
Record LinExpr : Type := mkLinExpr {
  terms : list (Q * string);
  constant : Q }.

Definition le_const (c : Q) : LinExpr := mkLinExpr [] c.
Definition le_var (v : string) : LinExpr := mkLinExpr [(1%Q, v)] 0%Q.
Definition le_add (e1 e2 : LinExpr) : LinExpr :=
  mkLinExpr (terms e1 ++ terms e2) (constant e1 + constant e2)%Q.
Definition le_scale (c : Q) (e : LinExpr) : LinExpr :=
  mkLinExpr (map (fun cv => ((c * fst cv)%Q, snd cv)) (terms e))
            (c * constant e)%Q.
Definition le_sub (e1 e2 : LinExpr) : LinExpr :=
  le_add e1 (le_scale (- (1))%Q e2).

(** Python's [sum]: starts from 0 and adds from the left. *)
Definition le_sum (es : list LinExpr) : LinExpr :=
  fold_left le_add es (le_const 0%Q).

(** [a.dot(vs)] for a row of numbers and an array of variables. *)
Definition dot_vars (a : vector) (vs : list string) : py LinExpr :=
  if length a =? length vs
  then ret (le_sum (map2 (fun c v => le_scale c (le_var v)) a vs))
  else raise ValueError.

Inductive sense : Type := LESS_EQUAL | EQUAL.

Record Constr : Type := mkConstr {
  lhs : LinExpr;
  csense : sense;
  rhs : LinExpr;
  CBasis : option Z }.

(** A quadratic objective: the products [c * v1 * v2]. *)
Definition QuadExpr : Type := list (Q * string * string).

Record Model : Type := mkModel {
  vars : list Var;
  constrs : list Constr;
  objective : QuadExpr;
  OutputFlag : Z;
  Method : Z;
  Cutoff : Q }.

(** [grb.Model()]: empty, with the default parameters. *)
Definition new_Model : Model := mkModel [] [] [] 1 (-1) GRB_INFINITY.

Definition set_vars (prog : Model) (vs : list Var) : Model :=
  mkModel vs (constrs prog) (objective prog)
          (OutputFlag prog) (Method prog) (Cutoff prog).

Definition set_constrs (prog : Model) (cs : list Constr) : Model :=
  mkModel (vars prog) cs (objective prog)
          (OutputFlag prog) (Method prog) (Cutoff prog).

Definition setObjective (prog : Model) (obj : QuadExpr) : Model :=
  mkModel (vars prog) (constrs prog) obj
          (OutputFlag prog) (Method prog) (Cutoff prog).

Definition setParam_OutputFlag (prog : Model) (v : Z) : Model :=
  mkModel (vars prog) (constrs prog) (objective prog)
          v (Method prog) (Cutoff prog).

Definition setParam_Method (prog : Model) (v : Z) : Model :=
  mkModel (vars prog) (constrs prog) (objective prog)
          (OutputFlag prog) v (Cutoff prog).

Definition setParam_Cutoff (prog : Model) (v : Q) : Model :=
  mkModel (vars prog) (constrs prog) (objective prog)
          (OutputFlag prog) (Method prog) v.

(** ['%d' % n]. *)
Definition dec (n : nat) : string := NilZero.string_of_uint (Nat.to_uint n).

(** The name Gurobi gives to the member [k] of a family [name], and to the
    member [(i, k)] of a two-index family. *)
Definition member (name : string) (k : nat) : string :=
  (name ++ "[" ++ dec k ++ "]")%string.

Definition member2 (name : string) (i k : nat) : string :=
  (name ++ "[" ++ dec i ++ "," ++ dec k ++ "]")%string.

(** ['x%d[%d]' % (t, k)], ['u%d[%d]' % (t, k)] and ['d%d[%d]' % (t, i)]. *)
Definition x_name (t k : nat) : string :=
  ("x" ++ dec t ++ "[" ++ dec k ++ "]")%string.
Definition u_name (t k : nat) : string :=
  ("u" ++ dec t ++ "[" ++ dec k ++ "]")%string.
Definition d_name (t i : nat) : string :=
  ("d" ++ dec t ++ "[" ++ dec i ++ "]")%string.

(** [prog.addVars(n, lb=.., ub=.., name=..)]: [n] continuous variables,
    appended to the model; the handles come back in index order.  The
    defaults of the call are [lb=0.0], [ub=GRB.INFINITY] and
    [vtype=GRB.CONTINUOUS]. *)
Definition addVars (prog : Model) (n : nat) (lb ub : Q) (name : string)
  : Model * list string :=
  let names := map (member name) (seq 0 n) in
  (set_vars prog
     (vars prog ++ map (fun s => mkVar s lb ub CONTINUOUS None) names),
   names).

(** [prog.addVars(n1, n2, ..)]: the handle of [(i, k)] is at row [i],
    place [k]. *)
Definition addVars2 (prog : Model) (n1 n2 : nat) (lb ub : Q) (name : string)
  : Model * list (list string) :=
  let names := map (fun i => map (member2 name i) (seq 0 n2)) (seq 0 n1) in
  (set_vars prog
     (vars prog ++
      map (fun s => mkVar s lb ub CONTINUOUS None) (concat names)),
   names).

Definition addConstr (prog : Model) (l : LinExpr) (s : sense) (r : LinExpr)
  : Model :=
  set_constrs prog (constrs prog ++ [mkConstr l s r None]).

Definition addConstrs (prog : Model) (cs : list (LinExpr * sense * LinExpr))
  : Model :=
  fold_left (fun p c => addConstr p (fst (fst c)) (snd (fst c)) (snd c)) cs prog.

(** [prog.getVarByName(name)]: [None] when there is no such variable. *)
Definition getVarByName (prog : Model) (name : string) : option Var :=
  find (fun v => String.eqb (VarName v) name) (vars prog).

(** [f] applied to the first variable called [name]. *)
Fixpoint update_var (f : Var -> Var) (name : string) (vs : list Var)
  : list Var :=
  match vs with
  | [] => []
  | v :: vs' =>
      if String.eqb (VarName v) name then f v :: vs'
      else v :: update_var f name vs'
  end.

(** [prog.getVarByName(name).attr = value]; setting an attribute of [None]
    is an [AttributeError]. *)
Definition set_attr (f : Var -> Var) (prog : Model) (name : string)
  : py Model :=
  match getVarByName prog name with
  | None => raise AttributeError
  | Some _ => ret (set_vars prog (update_var f name (vars prog)))
  end.

Definition with_LB (lb : Q) (v : Var) : Var :=
  mkVar (VarName v) lb (UB v) (VType v) (VBasis v).
Definition with_UB (ub : Q) (v : Var) : Var :=
  mkVar (VarName v) (LB v) ub (VType v) (VBasis v).
Definition with_VType (ty : vtype) (v : Var) : Var :=
  mkVar (VarName v) (LB v) (UB v) ty (VBasis v).
Definition with_VBasis (bs : Z) (v : Var) : Var :=
  mkVar (VarName v) (LB v) (UB v) (VType v) (Some bs).
Definition with_CBasis (bs : Z) (c : Constr) : Constr :=
  mkConstr (lhs c) (csense c) (rhs c) (Some bs).

(** The value of an expression and the truth of a constraint under an
    assignment of the variables. *)
Definition eval_terms (rho : string -> Q) (ts : list (Q * string)) : Q :=
  fold_right (fun cv acc => fst cv * rho (snd cv) + acc)%Q 0%Q ts.

Definition eval (rho : string -> Q) (e : LinExpr) : Q :=
  (constant e + eval_terms rho (terms e))%Q.

Definition Qsum (l : list Q) : Q := fold_right Qplus 0%Q l.

Definition sat (rho : string -> Q) (c : Constr) : Prop :=
  match csense c with
  | LESS_EQUAL => (eval rho (lhs c) <= eval rho (rhs c))%Q
  | EQUAL => (eval rho (lhs c) == eval rho (rhs c))%Q
  end.

(** [rho] respects the bounds of every variable and every constraint. *)
Definition feasible_point (prog : Model) (rho : string -> Q) : Prop :=
  (forall v, In v (vars prog) ->
     (LB v <= rho (VarName v) <= UB v)%Q) /\
  (forall c, In c (constrs prog) -> sat rho c).

(** A loop that threads a state. *)
Fixpoint foldM {T U} (f : U -> T -> py U) (l : list T) (u : U) : py U :=
  match l with
  | [] => ret u
  | a :: l' => u' <- f u a ;; foldM f l' u'
  end.

(** ** HybridModelPredictiveController *)

Module Controller.
Record t : Type := mk {
  S : PiecewiseAffineSystem.t;
  N : nat;
  Q_ : matrix;
  R_ : matrix;
  P_ : matrix;
  X_N : Polyhedron.t;
  prog : Model;
  partial_mode_sequence : list nat }.
End Controller.

(** A constraint before it is added: left side, sense, right side. *)
Definition TempConstr : Type := (LinExpr * sense * LinExpr)%type.

(** [.5 * np.array(vs).dot(M).dot(np.array(vs))]. *)
Definition quad_form (M : matrix) (vs : list string) : py QuadExpr :=
  if has_shape M (length vs) (length vs)
  then ret (concat (map2 (fun row va =>
              map2 (fun c vb => (((1 # 2) * c)%Q, va, vb)) row vs) M vs))
  else raise ValueError.

(** Row [k] of mode [i], plain big-M:
    [P[i].A[k].dot(xux) <= P[i].b[k,0] + mi[i][k,0] * (1. - d[i])]. *)
Definition big_m_constr (Pi : Polyhedron.t) (mi : list vector)
  (xux d : list string) (i k : nat) : py TempConstr :=
  l <- dot_vars (nth k (Polyhedron.A Pi) []) xux ;;
  bk <- index (Polyhedron.b Pi) k ;;
  mi_i <- index mi i ;;
  mik <- index mi_i k ;;
  di <- index d i ;;
  ret (l, LESS_EQUAL,
       le_add (le_const bk)
              (le_scale mik (le_sub (le_const 1%Q) (le_var di)))).

(** [sum(m[i][j] * d[j] for j in range(nm) if j != i)]: a column of
    expressions, or the integer 0 ([None]) when no [j] is left. *)
Definition sum_mi (m : list (list vector)) (d : list string) (nm i : nat)
  : py (option (list LinExpr)) :=
  cols <- mapM (fun j =>
            m_i <- index m i ;;
            mij <- index m_i j ;;
            dj <- index d j ;;
            ret (map (fun c => le_scale c (le_var dj)) mij))
          (filter (fun j => negb (j =? i)) (seq 0 nm)) ;;
  ret (match cols with
       | [] => None
       | c1 :: rest =>
           Some (fold_left (map2 le_add) rest (map (le_add (le_const 0%Q)) c1))
       end).

(** Row [k] of mode [i], improved big-M:
    [P[i].A[k].dot(xux) <= P[i].b[k,0] + sum_mi[k,0]]; subscripting the
    integer 0 is a [TypeError]. *)
Definition improved_big_m_constr (Pi : Polyhedron.t)
  (s : option (list LinExpr)) (xux : list string) (k : nat) : py TempConstr :=
  l <- dot_vars (nth k (Polyhedron.A Pi) []) xux ;;
  bk <- index (Polyhedron.b Pi) k ;;
  e <- match s with
       | None => raise TypeError
       | Some col => index col k
       end ;;
  ret (l, LESS_EQUAL, le_add (le_const bk) e).

(** Row [k] of mode [i], convex hull:
    [P[i].A[k].dot(yvyi) <= P[i].b[k,0] * d[i]]. *)
Definition convex_hull_constr (Pi : Polyhedron.t) (yvyi d : list string)
  (i k : nat) : py TempConstr :=
  l <- dot_vars (nth k (Polyhedron.A Pi) []) yvyi ;;
  bk <- index (Polyhedron.b Pi) k ;;
  di <- index d i ;;
  ret (l, LESS_EQUAL, le_scale bk (le_var di)).

(** [sum(y[i,k] for i in range(nm))]. *)
Definition sum_shares (y : list (list string)) (nm k : nat) : py LinExpr :=
  es <- mapM (fun i => yi <- index y i ;; yik <- index yi k ;;
                       ret (le_var yik)) (seq 0 nm) ;;
  ret (le_sum es).

Section Build.

(** The oracle of [get_big_m] and the arguments of [__init__]. *)
Variable linear_program : vector -> matrix -> vector -> option Q.
Variable S : PiecewiseAffineSystem.t.
Variable N : nat.
Variables Q_ R_ P_ : matrix.
Variable X_N : Polyhedron.t.

(** The constraints on the dynamics of one stage, big-M methods. *)
Definition big_m_stage (method : string) (P : list Polyhedron.t)
  (m : list (list vector)) (mi : list vector) (xux d : list string)
  : py (list TempConstr) :=
  css <- mapM (fun i =>
           c1 <- (if String.eqb method "big_m"
                  then Pi <- index P i ;;
                       mapM (big_m_constr Pi mi xux d i)
                            (seq 0 (length (Polyhedron.A Pi)))
                  else ret []) ;;
           c2 <- (if String.eqb method "improved_big_m"
                  then s <- sum_mi m d (nm S) i ;;
                       Pi <- index P i ;;
                       mapM (improved_big_m_constr Pi s xux)
                            (seq 0 (length (Polyhedron.A Pi)))
                  else ret []) ;;
           ret (c1 ++ c2)) (seq 0 (nm S)) ;;
  ret (concat css).

(** The constraints on the dynamics of one stage, convex-hull method. *)
Definition convex_hull_stage (P : list Polyhedron.t)
  (x u x_next d : list string) (y z v : list (list string))
  : py (list TempConstr) :=
  css <- mapM (fun i =>
           yi <- index y i ;; vi <- index v i ;; zi <- index z i ;;
           Pi <- index P i ;;
           mapM (convex_hull_constr Pi (yi ++ vi ++ zi) d i)
                (seq 0 (length (Polyhedron.A Pi)))) (seq 0 (nm S)) ;;
  cx <- mapM (fun k =>
           xk <- index x k ;; sy <- sum_shares y (nm S) k ;;
           xnk <- index x_next k ;; sz <- sum_shares z (nm S) k ;;
           ret [(le_var xk, EQUAL, sy); (le_var xnk, EQUAL, sz)])
        (seq 0 (nx S)) ;;
  cu <- mapM (fun k =>
           uk <- index u k ;; sv <- sum_shares v (nm S) k ;;
           ret (le_var uk, EQUAL, sv)) (seq 0 (nu S)) ;;
  ret (concat css ++ concat cx ++ cu).

(** [prog.addConstr(sum(d.values()) == 1.)]; without any [d] the sum is
    the integer 0 and the comparison a plain [False], which [addConstr]
    refuses. *)
Definition simplex_constr (d : list string) : py TempConstr :=
  match d with
  | [] => raise GurobiError
  | _ => ret (le_sum (map le_var d), EQUAL, le_const 1%Q)
  end.

(** One pass of the loop over time.  The state is the program, the
    objective so far and the handles [x_next] of the previous pass. *)
Definition stage (method : string) (P : list Polyhedron.t)
  (m : list (list vector)) (mi : list vector)
  (st : Model * QuadExpr * option (list string)) (t : nat)
  : py (Model * QuadExpr * option (list string)) :=
  let '(prog, obj, x_prev) := st in
  '(prog, x) <- (if t =? 0
                 then ret (addVars prog (nx S) 0%Q 0%Q "x0")
                 else match x_prev with
                      | Some x => ret (prog, x)
                      | None => raise NameError
                      end) ;;
  let '(prog, x_next) :=
    addVars prog (nx S) (- GRB_INFINITY)%Q GRB_INFINITY
            ("x" ++ dec (t + 1))%string in
  let '(prog, u) :=
    addVars prog (nu S) (- GRB_INFINITY)%Q GRB_INFINITY
            ("u" ++ dec t)%string in
  let '(prog, d) :=
    addVars prog (nm S) 0%Q GRB_INFINITY ("d" ++ dec t)%string in
  prog <- (if String.eqb method "big_m" || String.eqb method "improved_big_m"
           then cs <- big_m_stage method P m mi (x ++ u ++ x_next) d ;;
                ret (addConstrs prog cs)
           else if String.eqb method "convex_hull"
           then let '(prog, y) :=
                  addVars2 prog (nm S) (nx S) (- GRB_INFINITY)%Q GRB_INFINITY
                           ("y" ++ dec t)%string in
                let '(prog, z) :=
                  addVars2 prog (nm S) (nx S) (- GRB_INFINITY)%Q GRB_INFINITY
                           ("z" ++ dec t)%string in
                let '(prog, v) :=
                  addVars2 prog (nm S) (nu S) (- GRB_INFINITY)%Q GRB_INFINITY
                           ("v" ++ dec t)%string in
                cs <- convex_hull_stage P x u x_next d y z v ;;
                ret (addConstrs prog cs)
           else raise ValueError) ;;
  c <- simplex_constr d ;;
  let prog := addConstrs prog [c] in
  qu <- quad_form R_ u ;;
  qx <- quad_form Q_ x ;;
  ret (prog, obj ++ qu ++ qx, Some x_next).

Definition build_mpmiqp (method : string) : py Model :=
  P <- get_graph_representation S ;;
  '(m, mi) <- get_big_m linear_program P default_tol ;;
  let prog := new_Model in
  let prog := setParam_OutputFlag prog 0 in
  let prog := setParam_Method prog 0 in
  st <- foldM (stage method P m mi) (seq 0 N) (prog, [], None) ;;
  let '(prog, obj, x_last) := st in
  x_next <- match x_last with
            | Some x => ret x
            | None => raise NameError
            end ;;
  cs <- mapM (fun k =>
          l <- dot_vars (nth k (Polyhedron.A X_N) []) x_next ;;
          bk <- index (Polyhedron.b X_N) k ;;
          ret (l, LESS_EQUAL, le_const bk))
        (seq 0 (length (Polyhedron.A X_N))) ;;
  let prog := addConstrs prog cs in
  qt <- quad_form P_ x_next ;;
  ret (setObjective prog (obj ++ qt)).

(** [__init__]. *)
Definition init (method : string) : py Controller.t :=
  prog <- build_mpmiqp method ;;
  ret (Controller.mk S N Q_ R_ P_ X_N prog []).

End Build.

(** ** set_initial_condition, set_d_type, update_mode_sequence *)

Definition with_prog (self : Controller.t) (prog : Model) : Controller.t :=
  Controller.mk (Controller.S self) (Controller.N self) (Controller.Q_ self)
    (Controller.R_ self) (Controller.P_ self) (Controller.X_N self) prog
    (Controller.partial_mode_sequence self).

Definition set_initial_condition (self : Controller.t) (x0 : vector)
  : py Controller.t :=
  prog <- foldM (fun prog k =>
            x0k <- index x0 k ;;
            prog <- set_attr (with_LB x0k) prog (x_name 0 k) ;;
            set_attr (with_UB x0k) prog (x_name 0 k))
          (seq 0 (nx (Controller.S self))) (Controller.prog self) ;;
  ret (with_prog self prog).

Definition set_d_type (self : Controller.t) (d_type : vtype)
  : py Controller.t :=
  prog <- foldM (fun prog t =>
            foldM (fun prog i => set_attr (with_VType d_type) prog (d_name t i))
                  (seq 0 (nm (Controller.S self))) prog)
          (seq 0 (Controller.N self)) (Controller.prog self) ;;
  ret (with_prog self prog).

(** One pass of the loop of [update_mode_sequence]: [old] is the installed
    sequence, [new] the one to install. *)
Definition update_step (old new : list nat) (prog : Model) (t : nat)
  : py Model :=
  if (t <? length new) && (t <? length old) then
    new_t <- index new t ;;
    old_t <- index old t ;;
    if negb (new_t =? old_t) then
      prog <- set_attr (with_LB 0%Q) prog (d_name t old_t) ;;
      set_attr (with_LB 1%Q) prog (d_name t new_t)
    else ret prog
  else if (length new <=? t) && (t <? length old) then
    old_t <- index old t ;;
    set_attr (with_LB 0%Q) prog (d_name t old_t)
  else if (t <? length new) && (length old <=? t) then
    new_t <- index new t ;;
    set_attr (with_LB 1%Q) prog (d_name t new_t)
  else ret prog.

(** The controller keeps the caller's list; the embedding takes it as a
    value, for nothing here changes a list once it is built. *)
Definition update_mode_sequence (self : Controller.t)
  (partial_mode_sequence : list nat) : py Controller.t :=
  prog <- foldM (update_step (Controller.partial_mode_sequence self)
                             partial_mode_sequence)
                (seq 0 (Controller.N self)) (Controller.prog self) ;;
  ret (Controller.mk (Controller.S self) (Controller.N self)
         (Controller.Q_ self) (Controller.R_ self) (Controller.P_ self)
         (Controller.X_N self) prog partial_mode_sequence).

(** Every indicator named by a stage below [N] and a mode below [nm] is a
    variable of the program. *)
Definition has_indicators (self : Controller.t) : bool :=
  forallb (fun t =>
    forallb (fun i =>
      match getVarByName (Controller.prog self) (d_name t i) with
      | Some _ => true
      | None => false
      end) (seq 0 (nm (Controller.S self))))
    (seq 0 (Controller.N self)).

(** Every state, input and indicator variable the oracle reads is a
    variable of the program. *)
Definition present (prog : Model) (name : string) : bool :=
  match getVarByName prog name with
  | Some _ => true
  | None => false
  end.

Definition has_variables (self : Controller.t) : bool :=
  forallb (fun t =>
    forallb (fun k => present (Controller.prog self) (x_name t k))
            (seq 0 (nx (Controller.S self))))
    (seq 0 (Controller.N self + 1)) &&
  forallb (fun t =>
    forallb (fun k => present (Controller.prog self) (u_name t k))
            (seq 0 (nu (Controller.S self))))
    (seq 0 (Controller.N self)) &&
  has_indicators self.

(** The entries are mode indices. *)
Definition valid_sequence (nm : nat) (p : list nat) : bool :=
  forallb (fun i => i <? nm) p.

(** ** mode_heuristic *)

(** Insertion of the index [i] into a list of indices in ascending order
    of [key], behind the indices whose key is not larger. *)
Fixpoint insert_index (key : nat -> Q) (i : nat) (l : list nat) : list nat :=
  match l with
  | [] => [i]
  | j :: l' =>
      if Qltb (key i) (key j) then i :: j :: l'
      else j :: insert_index key i l'
  end.

(** [np.argsort(a)]: the indices that sort [a] in ascending order, by the
    insertion sort numpy runs on short arrays (ties keep their order). *)
Definition argsort (a : list Q) : list nat :=
  fold_left (fun acc i => insert_index (fun j => nth j a 0%Q) i acc)
            (seq 0 (length a)) [].

(** [l.index(x)]: the first position of [x]; [ValueError] when absent. *)
Fixpoint list_index (x : nat) (l : list nat) : py nat :=
  match l with
  | [] => raise ValueError
  | y :: l' => if y =? x then ret 0 else i <- list_index x l' ;; ret (S i)
  end.

(** [l.pop(i)]: the element and the list without it. *)
Fixpoint pop (l : list nat) (i : nat) : py (nat * list nat) :=
  match l, i with
  | [], _ => raise IndexError
  | y :: l', 0 => ret (y, l')
  | y :: l', S i' => '(x, r) <- pop l' i' ;; ret (x, y :: r)
  end.

Definition mode_heuristic (self : Controller.t) (d : list (list Q))
  : py (list nat * list Q) :=
  let partial := Controller.partial_mode_sequence self in
  children_score <- index d (length partial) ;;
  let children_order := rev (argsort children_score) in
  children_order <-
    (if 0 <? length partial then
       parent <- index partial (length partial - 1) ;;
       i <- list_index parent children_order ;;
       '(x, rest) <- pop children_order i ;;
       ret (x :: rest)
     else ret children_order) ;;
  ret (children_order, children_score).

(** ** solve_relaxation *)

Definition read_gurobi_status (status : Z) : py string :=
  match status with
  | 1%Z => ret "loaded"%string
  | 2%Z => ret "optimal"%string
  | 3%Z => ret "infeasible"%string
  | 4%Z => ret "inf_or_unbd"%string
  | 5%Z => ret "unbounded"%string
  | 6%Z => ret "cutoff"%string
  | 7%Z => ret "iteration_limit"%string
  | 8%Z => ret "node_limit"%string
  | 9%Z => ret "time_limit"%string
  | 10%Z => ret "solution_limit"%string
  | 11%Z => ret "interrupted"%string
  | 12%Z => ret "numeric"%string
  | 13%Z => ret "suboptimal"%string
  | 14%Z => ret "in_progress"%string
  | 15%Z => ret "user_obj_limit"%string
  | _ => raise KeyError
  end.

(** What the solver leaves behind after [prog.optimize()]: the status, the
    run time, the value [.x] of each variable, the objective value and the
    basis statuses of the variables (by name) and constraints (by place). *)
Record Solution : Type := mkSolution {
  status : Z;
  Runtime : Q;
  X : string -> Q;
  objVal : Q;
  sol_VBasis : string -> Z;
  sol_CBasis : nat -> Z }.

(** The dictionary [result]; a key that was not set is [None].  The keys
    [feasible], [children_order] and [children_score] can hold Python's
    [None], the inner option. *)
Module Result.
Record t : Type := mk {
  solve_time : Q;
  cutoff : bool;
  feasible : option bool;
  x : option (list (list Q));
  u : option (list (list Q));
  mode_sequence : option (list nat);
  integer_feasible : option bool;
  children_order : option (option (list nat));
  children_score : option (option (list Q));
  cost : option Q;
  variable_basis : option (list Z);
  constraint_basis : option (list Z) }.
End Result.

(** Python's [max] of a list: the first of the largest elements. *)
Definition list_max (l : list Q) : py Q :=
  match l with
  | [] => raise ValueError
  | a :: l' => ret (fold_left (fun m y => if Qltb m y then y else m) l' a)
  end.

(** [l.index(v)] on a list of floats. *)
Fixpoint index_of (v : Q) (l : list Q) : py nat :=
  match l with
  | [] => raise ValueError
  | y :: l' => if Qeq_bool y v then ret 0 else i <- index_of v l' ;; ret (S i)
  end.

(** Python's [sorted]: ascending and stable. *)
Fixpoint insert_sorted (a : Q) (l : list Q) : list Q :=
  match l with
  | [] => [a]
  | y :: l' => if Qle_bool a y then a :: y :: l' else y :: insert_sorted a l'
  end.

Definition sorted (l : list Q) : list Q := fold_right insert_sorted [] l.

(** [np.allclose(a, b)] with the default [rtol=1e-05], [atol=1e-08]:
    [|a - b| <= atol + rtol * |b|] everywhere, after broadcasting. *)
Definition rtol : Q := 1 # 100000.
Definition atol : Q := 1 # 100000000.

Definition isclose (a b : Q) : bool :=
  Qle_bool (Qabs (a - b)) (atol + rtol * Qabs b).

Definition allclose (a b : list Q) : py bool :=
  if length a =? length b
  then ret (forallb (fun ab => isclose (fst ab) (snd ab)) (combine a b))
  else if length b =? 1
  then ret (forallb (fun v => isclose v (hd 0%Q b)) a)
  else if length a =? 1
  then ret (forallb (fun v => isclose (hd 0%Q a) v) b)
  else raise ValueError.

(** [[dt.index(max(dt)) for dt in d]]. *)
Definition mode_sequence_of (d : list (list Q)) : py (list nat) :=
  mapM (fun dt => mx <- list_max dt ;; index_of mx dt) d.

(** [all([np.allclose(sorted(dt), [0.]*(len(dt)-1)+[1.]) for dt in d])]. *)
Definition integer_feasible_of (d : list (list Q)) : py bool :=
  bs <- mapM (fun dt =>
          allclose (sorted dt) (repeat 0%Q (length dt - 1) ++ [1%Q])) d ;;
  ret (forallb (fun b => b) bs).

(** [prog.getVarByName(name).x]. *)
Definition var_x (prog : Model) (sol : Solution) (name : string) : py Q :=
  match getVarByName prog name with
  | None => raise AttributeError
  | Some _ => ret (X sol name)
  end.

(** The warm start: the basis statuses are read by position, an
    [IndexError] when the list is shorter than the program. *)
Definition install_warm_start (prog : Model) (vb cb : list Z) : py Model :=
  if length vb <? length (vars prog) then raise IndexError
  else
    let prog := set_vars prog (map2 (fun v s => with_VBasis s v) (vars prog) vb) in
    if length cb <? length (constrs prog) then raise IndexError
    else ret (set_constrs prog
                (map2 (fun c s => with_CBasis s c) (constrs prog) cb)).

Section Oracle.

(** [prog.optimize()] is the solver's: an oracle from the program to what
    the code reads afterwards. *)
Variable optimize : Model -> Solution.

Definition solve_relaxation (self : Controller.t)
  (partial_mode_sequence : list nat) (cutoff_value : option Q)
  (warm_start : option (list Z * list Z))
  : py (Controller.t * Result.t) :=
  prog <- match warm_start with
          | Some (vb, cb) => install_warm_start (Controller.prog self) vb cb
          | None => ret (Controller.prog self)
          end ;;
  let prog := match cutoff_value with
              | Some c => setParam_Cutoff prog c
              | None => prog
              end in
  self <- update_mode_sequence (with_prog self prog) partial_mode_sequence ;;
  let prog := Controller.prog self in
  let sol := optimize prog in
  st <- read_gurobi_status (status sol) ;;
  let cutoff := String.eqb st "cutoff" in
  let feasible :=
    if cutoff then None else Some (String.eqb st "optimal") in
  if cutoff || negb (match feasible with Some true => true | _ => false end)
  then ret (self,
            Result.mk (Runtime sol) cutoff feasible None None None None
                      None None None None None)
  else
    let S := Controller.S self in
    let N := Controller.N self in
    x <- mapM (fun t => mapM (fun k => var_x prog sol (x_name t k))
                             (seq 0 (nx S))) (seq 0 (N + 1)) ;;
    u <- mapM (fun t => mapM (fun k => var_x prog sol (u_name t k))
                             (seq 0 (nu S))) (seq 0 N) ;;
    d <- mapM (fun t => mapM (fun k => var_x prog sol (d_name t k))
                             (seq 0 (nm S))) (seq 0 N) ;;
    ms <- mode_sequence_of d ;;
    intf <- integer_feasible_of d ;;
    '(order, score) <-
      (if length partial_mode_sequence <? N
       then '(o, s) <- mode_heuristic self d ;; ret (Some o, Some s)
       else ret (None, None)) ;;
    ret (self,
         Result.mk (Runtime sol) cutoff feasible (Some x) (Some u) (Some ms)
           (Some intf) (Some order) (Some score) (Some (objVal sol))
           (Some (map (fun v => sol_VBasis sol (VarName v)) (vars prog)))
           (Some (map (sol_CBasis sol) (seq 0 (length (constrs prog)))))).

End Oracle.

(** ** Invariants of the construction, used in the proofs *)

Definition constr_of (tc : TempConstr) : Constr :=
  mkConstr (fst (fst tc)) (snd (fst tc)) (snd tc) None.

(** The handles of a stage, in the order of [x.values()], [u.values()] and
    [d.values()]. *)
Definition x_names (nx t : nat) : list string := map (x_name t) (seq 0 nx).
Definition u_names (nu t : nat) : list string := map (u_name t) (seq 0 nu).
Definition d_names (nm t : nat) : list string := map (d_name t) (seq 0 nm).

Definition is_d (s : string) : bool :=
  match s with
  | String "d" _ => true
  | _ => false
  end.

(** A variable of a family [d..] is as [addVars] declares it by default. *)
Definition d_declared (v : Var) : Prop :=
  is_d (VarName v) = true ->
  LB v = 0%Q /\ UB v = GRB_INFINITY /\ VType v = CONTINUOUS.

(** [p'] is [p] with more variables and constraints behind. *)
Definition extends (p p' : Model) : Prop :=
  exists vs cs,
    vars p' = vars p ++ vs /\ constrs p' = constrs p ++ cs /\
    Forall d_declared vs.

(** What stage [t] leaves in the program. *)
Definition stage_done (S : PiecewiseAffineSystem.t) (method : string)
  (P : list Polyhedron.t) (m : list (list vector)) (mi : list vector)
  (t : nat) (p : Model) : Prop :=
  (forall i, i < nm S -> exists v, In v (vars p) /\ VarName v = d_name t i) /\
  In (constr_of (le_sum (map le_var (d_names (nm S) t)), EQUAL, le_const 1%Q))
     (constrs p) /\
  (String.eqb method "big_m" || String.eqb method "improved_big_m" = true ->
   exists tcs,
     big_m_stage S method P m mi
       (x_names (nx S) t ++ u_names (nu S) t ++ x_names (nx S) (t + 1))
       (d_names (nm S) t) = inr tcs /\
     forall tc, In tc tcs -> In (constr_of tc) (constrs p)).

(** The methods the construction knows, with the number of modes each
    needs. *)
Definition method_ready (method : string) (nm : nat) : Prop :=
  (method = "big_m"%string /\ 0 < nm) \/
  (method = "improved_big_m"%string /\ 1 < nm) \/
  (method = "convex_hull"%string /\ 0 < nm).

(** The result carries none of the solution keys, or all of them. *)
Definition no_solution (r : Result.t) : Prop :=
  Result.x r = None /\ Result.u r = None /\ Result.mode_sequence r = None /\
  Result.integer_feasible r = None /\ Result.children_order r = None /\
  Result.children_score r = None /\ Result.cost r = None /\
  Result.variable_basis r = None /\ Result.constraint_basis r = None.

Definition has_solution (r : Result.t) : Prop :=
  Result.x r <> None /\ Result.u r <> None /\
  Result.mode_sequence r <> None /\ Result.integer_feasible r <> None /\
  Result.cost r <> None /\
  Result.variable_basis r <> None /\ Result.constraint_basis r <> None.

(** The indicators of stage [t] as the solver left them. *)
Definition indicator_row (sol : Solution) (nm t : nat) : list Q :=
  map (fun i => X sol (d_name t i)) (seq 0 nm).

(** ** A linear-program oracle and a system for the examples *)

(** Fourier-Motzkin elimination.  A row [(a, r)] reads [a . w <= r]. *)
Definition fm_head (row : list Q * Q) : Q :=
  match fst row with
  | c :: _ => c
  | [] => 0%Q
  end.

Definition fm_tail (s : Q) (row : list Q * Q) : list Q * Q :=
  (map (Qmult s) (tl (fst row)), (s * snd row)%Q).

Definition fm_add (p q : list Q * Q) : list Q * Q :=
  (map2 Qplus (fst p) (fst q), (snd p + snd q)%Q).

(** Eliminate the first variable. *)
Definition fm_eliminate (rows : list (list Q * Q)) : list (list Q * Q) :=
  let pos := filter (fun r => Qltb 0 (fm_head r)) rows in
  let neg := filter (fun r => Qltb (fm_head r) 0) rows in
  let zer := filter (fun r => Qeq_bool (fm_head r) 0) rows in
  map (fm_tail 1) zer ++
  flat_map (fun p =>
    map (fun q => fm_add (fm_tail (/ fm_head p) p)
                         (fm_tail (- / fm_head q) q)) neg) pos.

(** The least [z] with [a * z <= r] for every row, if the rows have one. *)
Definition fm_least (rows : list (list Q * Q)) : option Q :=
  let lows := map (fun r => (snd r / fm_head r)%Q)
                  (filter (fun r => Qltb (fm_head r) 0) rows) in
  let ups := map (fun r => (snd r / fm_head r)%Q)
                 (filter (fun r => Qltb 0 (fm_head r)) rows) in
  let zer := filter (fun r => Qeq_bool (fm_head r) 0) rows in
  match lows with
  | [] => None
  | l0 :: ls =>
      let z := fold_left maximum ls l0 in
      if forallb (fun r => Qle_bool 0 (snd r)) zer &&
         forallb (fun up => Qle_bool z up) ups
      then Some (Qred z) else None
  end.

(** Minimize [f . w] over [A w <= b]: add a variable [z = f . w] after the
    others, eliminate the others, read the least [z]. *)
Definition fm_linear_program (f : vector) (A : matrix) (b : vector)
  : option Q :=
  let rows :=
    (f ++ [(- (1))%Q], 0%Q) :: (map Qopp f ++ [1%Q], 0%Q) ::
    map2 (fun a r => (a ++ [0%Q], r)) A b in
  fm_least (Nat.iter (length f) fm_eliminate rows).

(** Two modes on the line, one input:
    mode 0: [x+ = x + u] on [-1 <= x <= 0], [-1 <= u <= 1];
    mode 1: [x+ = x/2 + u + 1/4] on [0 <= x <= 1], [-1 <= u <= 1]. *)
Definition example_S : PiecewiseAffineSystem.t :=
  PiecewiseAffineSystem.mk 1 1 2
    [ AffineSystem.mk [[1%Q]] [[1%Q]] [0%Q];
      AffineSystem.mk [[(1 # 2)%Q]] [[1%Q]] [(1 # 4)%Q] ]
    [ Polyhedron.mk [[1%Q; 0%Q]; [(- (1))%Q; 0%Q]; [0%Q; 1%Q]; [0%Q; (- (1))%Q]]
                    [0%Q; 1%Q; 1%Q; 1%Q];
      Polyhedron.mk [[1%Q; 0%Q]; [(- (1))%Q; 0%Q]; [0%Q; 1%Q]; [0%Q; (- (1))%Q]]
                    [1%Q; 0%Q; 1%Q; 1%Q] ].

(** Its graph representation. *)
Definition example_P : list Polyhedron.t :=
  match get_graph_representation example_S with
  | inr P => P
  | inl _ => []
  end.

(** Terminal set [-1 <= x <= 1]. *)
Definition example_X_N : Polyhedron.t :=
  Polyhedron.mk [[1%Q]; [(- (1))%Q]] [1%Q; 1%Q].

(** The controller of the example: horizon 2, unit weights. *)
Definition example_build (method : string) : py Model :=
  build_mpmiqp fm_linear_program example_S 2 [[1%Q]] [[1%Q]] [[1%Q]]
               example_X_N method.

(** The same dynamics restricted to mode 0 alone. *)
Definition example_S1 : PiecewiseAffineSystem.t :=
  PiecewiseAffineSystem.mk 1 1 1
    (firstn 1 (affine_systems example_S)) (firstn 1 (domains example_S)).

(** The controller of the example, plain big-M. *)
Definition example_controller : Controller.t :=
  match init fm_linear_program example_S 2 [[1%Q]] [[1%Q]] [[1%Q]]
             example_X_N "big_m" with
  | inr c => c
  | inl _ => Controller.mk example_S 2 [] [] [] example_X_N new_Model []
  end.

(** The same controller after mode 1 was fixed at stage 0. *)
Definition example_controller_1 : Controller.t :=
  match update_mode_sequence example_controller [1] with
  | inr c => c
  | inl _ => example_controller
  end.

(** Relaxed indicators for the two stages. *)
Definition example_d : list (list Q) :=
  [[0%Q; 1%Q]; [(3 # 4)%Q; (1 # 4)%Q]].

(** A solver outcome with a given status; every value is zero but the
    indicators of mode 1, which are one. *)
Definition example_solution (st : Z) : Solution :=
  mkSolution st 0%Q
    (fun name => if String.eqb name (d_name 0 1) || String.eqb name (d_name 1 1)
                 then 1%Q else 0%Q)
    0%Q (fun _ => 0%Z) (fun _ => 0%Z).

(* ================================================================== *)
(** * Properties *)
(* ================================================================== *)

(** ** The error monad and loops *)

Lemma bind_inr {T U} (c : py T) (k : T -> py U) (u : U) :
  bind c k = inr u -> exists a, c = inr a /\ k a = inr u.
Proof.
  destruct c as [e | a]; simpl; intros H; [discriminate | eauto].
Qed.

Ltac inv_bind H :=
  let a := fresh "a" in
  let Ha := fresh "Ha" in
  apply bind_inr in H; destruct H as (a & Ha & H).

Lemma index_inr {T} (l : list T) (i : nat) (a : T) :
  index l i = inr a <-> nth_error l i = Some a.
Proof.
  unfold index; destruct (nth_error l i); simpl; split; intros H;
    inversion H; reflexivity.
Qed.

Lemma mapM_Forall2 {T U} (f : T -> py U) (l : list T) (ys : list U) :
  mapM f l = inr ys <-> Forall2 (fun a y => f a = inr y) l ys.
Proof.
  revert ys; induction l as [| a l IH]; intros ys; simpl.
  - split; intros H; [inversion H; constructor | inversion H; reflexivity].
  - split; intros H.
    + inv_bind H. inv_bind H. inversion H; subst.
      constructor; [assumption | now apply IH].
    + inversion H as [| ? y ? ys' Hy Hys]; subst.
      rewrite Hy; simpl. apply IH in Hys. rewrite Hys. reflexivity.
Qed.

Lemma mapM_length {T U} (f : T -> py U) (l : list T) (ys : list U) :
  mapM f l = inr ys -> length ys = length l.
Proof.
  intros H; apply mapM_Forall2 in H.
  symmetry; eapply Forall2_length; eassumption.
Qed.

Lemma Forall2_nth_error_l {T U} (R : T -> U -> Prop) l ys n a :
  Forall2 R l ys -> nth_error l n = Some a ->
  exists y, nth_error ys n = Some y /\ R a y.
Proof.
  intros H; revert n; induction H as [| x y l ys Hxy _ IH]; intros [| n] Hn;
    simpl in *; try discriminate.
  - inversion Hn; subst; eauto.
  - now apply IH.
Qed.

Lemma Forall2_nth_error_r {T U} (R : T -> U -> Prop) l ys n y :
  Forall2 R l ys -> nth_error ys n = Some y ->
  exists a, nth_error l n = Some a /\ R a y.
Proof.
  intros H; revert n; induction H as [| x y' l ys Hxy _ IH]; intros [| n] Hn;
    simpl in *; try discriminate.
  - inversion Hn; subst; eauto.
  - now apply IH.
Qed.

Lemma mapM_nth_error {T U} (f : T -> py U) l ys n a :
  mapM f l = inr ys -> nth_error l n = Some a ->
  exists y, nth_error ys n = Some y /\ f a = inr y.
Proof.
  intros H Hn; apply mapM_Forall2 in H.
  exact (Forall2_nth_error_l _ _ _ _ _ H Hn).
Qed.

Lemma mapM_total {T U} (f : T -> py U) (l : list T) :
  (forall a, In a l -> exists y, f a = inr y) ->
  exists ys, mapM f l = inr ys.
Proof.
  induction l as [| a l IH]; intros H; simpl.
  - now exists [].
  - destruct (H a (or_introl eq_refl)) as (y & Hy).
    destruct IH as (ys & Hys); [intros; apply H; now right |].
    exists (y :: ys). rewrite Hy; simpl. rewrite Hys. reflexivity.
Qed.

Lemma nth_error_seq (s n k : nat) :
  k < n -> nth_error (seq s n) k = Some (s + k).
Proof.
  revert s k; induction n as [| n IH]; intros s [| k] Hk; simpl; try lia.
  - f_equal; lia.
  - rewrite IH by lia. f_equal; lia.
Qed.

Lemma nth_map_seq {T} (f : nat -> T) (n k : nat) (d : T) :
  k < n -> nth k (map f (seq 0 n)) d = f k.
Proof.
  intros Hk. apply nth_error_nth.
  rewrite nth_error_map, nth_error_seq by assumption. reflexivity.
Qed.
(** ** Inner products *)

Lemma dot_nil_r (a : vector) : dot a [] = 0%Q.
Proof. destruct a; reflexivity. Qed.

Lemma dot_app (a1 a2 w1 w2 : vector) :
  length a1 = length w1 ->
  (dot (a1 ++ a2) (w1 ++ w2) == dot a1 w1 + dot a2 w2)%Q.
Proof.
  revert w1; induction a1 as [| x a1 IH]; intros [| y w1] Hlen;
    simpl in *; try discriminate.
  - lra.
  - rewrite IH by lia. lra.
Qed.

Lemma dot_zeros (n : nat) (w : vector) : (dot (repeat 0%Q n) w == 0)%Q.
Proof.
  revert w; induction n as [| n IH]; intros [| y w]; simpl; try reflexivity.
  rewrite IH. lra.
Qed.

Lemma dot_opp (a w : vector) : (dot (map Qopp a) w == - dot a w)%Q.
Proof.
  revert w; induction a as [| x a IH]; intros [| y w]; simpl; try reflexivity.
  rewrite IH. lra.
Qed.

Lemma dot_unit_seq (i s n : nat) (w : vector) :
  length w = n ->
  (dot (map (fun j => if i =? j then 1%Q else 0%Q) (seq s n)) w ==
   if (s <=? i) && (i <? s + n) then nth (i - s) w 0%Q else 0%Q)%Q.
Proof.
  revert s w; induction n as [| n IH]; intros s [| y w] Hlen;
    simpl in *; try discriminate.
  - replace (i <? s + 0) with (i <? s) by (f_equal; lia).
    destruct (s <=? i) eqn:E1, (i <? s) eqn:E2; simpl; try reflexivity.
    apply Nat.leb_le in E1; apply Nat.ltb_lt in E2; lia.
  - rewrite IH by lia.
    destruct (i =? s) eqn:E.
    + apply Nat.eqb_eq in E; subst s.
      replace (S i <=? i) with false by (symmetry; apply Nat.leb_gt; lia).
      replace (i <=? i) with true by (symmetry; apply Nat.leb_le; lia).
      replace (i <? i + S n) with true by (symmetry; apply Nat.ltb_lt; lia).
      simpl. rewrite Nat.sub_diag. lra.
    + apply Nat.eqb_neq in E.
      destruct (s <=? i) eqn:E1.
      * apply Nat.leb_le in E1.
        replace (S s <=? i) with true by (symmetry; apply Nat.leb_le; lia).
        replace (i <? S s + n) with (i <? s + S n) by (f_equal; lia).
        simpl. destruct (i <? s + S n); [| lra].
        replace (i - s) with (S (i - S s)) by lia. simpl. lra.
      * apply Nat.leb_gt in E1.
        replace (S s <=? i) with false by (symmetry; apply Nat.leb_gt; lia).
        simpl. lra.
Qed.

Lemma dot_unit_row (n i : nat) (w : vector) :
  length w = n -> i < n -> (dot (unit_row n i) w == nth i w 0%Q)%Q.
Proof.
  intros Hlen Hi. unfold unit_row. rewrite dot_unit_seq by assumption.
  replace (0 <=? i) with true by (symmetry; apply Nat.leb_le; lia).
  replace (i <? 0 + n) with true by (symmetry; apply Nat.ltb_lt; lia).
  simpl. rewrite Nat.sub_0_r. reflexivity.
Qed.

(** ** Stacking *)

Lemma has_shape_spec (M : matrix) (r c : nat) :
  has_shape M r c = true ->
  length M = r /\ forall row, In row M -> length row = c.
Proof.
  unfold has_shape. rewrite andb_true_iff, Nat.eqb_eq, forallb_forall.
  intros [H1 H2]; split; [assumption |].
  intros row Hin. apply Nat.eqb_eq. now apply H2.
Qed.

Lemma has_shape_nth (M : matrix) (r c k : nat) :
  has_shape M r c = true -> k < r -> length (nth k M []) = c.
Proof.
  intros H Hk. destruct (has_shape_spec _ _ _ H) as [Hl Hr].
  apply Hr. apply nth_In. lia.
Qed.

Lemma hstack_inr (M0 : matrix) (Ms : list matrix) :
  (forall M, In M Ms -> length M = length M0) ->
  hstack (M0 :: Ms) =
  inr (map (fun k => concat (map (fun M => nth k M []) (M0 :: Ms)))
           (seq 0 (length M0))).
Proof.
  intros H. unfold hstack.
  replace (forallb _ (M0 :: Ms)) with true; [reflexivity |].
  symmetry. apply forallb_forall. intros M [<- | Hin]; apply Nat.eqb_eq;
    [reflexivity | now apply H].
Qed.

Lemma vstack_inr (Ms : list matrix) (w : nat) :
  Ms <> [] ->
  (forall r, In r (concat Ms) -> length r = w) ->
  vstack Ms = inr (concat Ms).
Proof.
  intros Hne Hw. unfold vstack.
  destruct (concat Ms) as [| r0 rs] eqn:E.
  - destruct Ms; [congruence | reflexivity].
  - replace (forallb _ rs) with true; [reflexivity |].
    symmetry. apply forallb_forall. intros r Hin. apply Nat.eqb_eq.
    rewrite (Hw r0), (Hw r); simpl; auto.
Qed.

Lemma zeros_length (r c : nat) : length (zeros r c) = r.
Proof. apply repeat_length. Qed.

Lemma zeros_nth (r c k : nat) : k < r -> nth k (zeros r c) [] = repeat 0%Q c.
Proof.
  intros Hk. unfold zeros. apply nth_error_nth.
  apply nth_error_repeat. assumption.
Qed.

Lemma eye_length (n : nat) : length (eye n) = n.
Proof. unfold eye. now rewrite length_map, length_seq. Qed.

Lemma eye_nth (n k : nat) : k < n -> nth k (eye n) [] = unit_row n k.
Proof. intros Hk. unfold eye. now apply nth_map_seq. Qed.

Lemma unit_row_length (n k : nat) : length (unit_row n k) = n.
Proof. unfold unit_row. now rewrite length_map, length_seq. Qed.

Lemma neg_length (M : matrix) : length (neg M) = length M.
Proof. apply length_map. Qed.

Lemma neg_nth (M : matrix) (k : nat) : nth k (neg M) [] = map Qopp (nth k M []).
Proof. unfold neg. change (@nil Q) with (map Qopp []) at 1. apply map_nth. Qed.

Lemma wf_system_domain S i Di :
  wf_system S = true -> nth_error (domains S) i = Some Di ->
  wf_domain (nx S) (nu S) Di = true.
Proof.
  unfold wf_system. rewrite !andb_true_iff. intros (_ & H) Hn.
  rewrite forallb_forall in H. apply H. eapply nth_error_In; eassumption.
Qed.

Lemma wf_system_affine S i Si :
  wf_system S = true -> nth_error (affine_systems S) i = Some Si ->
  wf_affine (nx S) (nu S) Si = true.
Proof.
  unfold wf_system. rewrite !andb_true_iff. intros ((_ & H) & _) Hn.
  rewrite forallb_forall in H. apply H. eapply nth_error_In; eassumption.
Qed.

Lemma wf_system_lengths S :
  wf_system S = true ->
  length (domains S) = nm S /\ length (affine_systems S) = nm S.
Proof.
  unfold wf_system. rewrite !andb_true_iff, !Nat.eqb_eq. tauto.
Qed.

Lemma bind_ret {T U} (a : T) (k : T -> py U) : bind (inr a) k = k a.
Proof. reflexivity. Qed.

Lemma graph_of_mode_rows S i Di Si :
  wf_system S = true ->
  nth_error (domains S) i = Some Di ->
  nth_error (affine_systems S) i = Some Si ->
  exists Pi,
    graph_of_mode S i = inr Pi /\
    length (Polyhedron.A Pi) = length (Polyhedron.A Di) + 2 * nx S /\
    Polyhedron.b Pi =
      Polyhedron.b Di ++ map Qopp (AffineSystem.c Si) ++ AffineSystem.c Si /\
    (forall k, k < length (Polyhedron.A Di) ->
       nth k (Polyhedron.A Pi) [] =
       nth k (Polyhedron.A Di) [] ++ repeat 0%Q (nx S)) /\
    (forall k, k < nx S ->
       nth (length (Polyhedron.A Di) + k) (Polyhedron.A Pi) [] =
       nth k (AffineSystem.A Si) [] ++ nth k (AffineSystem.B Si) [] ++
       map Qopp (unit_row (nx S) k)) /\
    (forall k, k < nx S ->
       nth (length (Polyhedron.A Di) + nx S + k) (Polyhedron.A Pi) [] =
       map Qopp (nth k (AffineSystem.A Si) []) ++
       map Qopp (nth k (AffineSystem.B Si) []) ++ unit_row (nx S) k).
Proof.
  intros Hwf HD HS.
  pose proof (wf_system_domain _ _ _ Hwf HD) as HwD.
  pose proof (wf_system_affine _ _ _ Hwf HS) as HwS.
  unfold wf_domain in HwD. unfold wf_affine in HwS.
  rewrite !andb_true_iff, Nat.eqb_eq in HwS. destruct HwS as ((HA & HB) & Hc).
  destruct (has_shape_spec _ _ _ HA) as (HAl & HAr).
  destruct (has_shape_spec _ _ _ HB) as (HBl & HBr).
  destruct (has_shape_spec _ _ _ HwD) as (HDl & HDr).
  set (nd := length (Polyhedron.A Di)) in *.
  unfold graph_of_mode.
  apply index_inr in HD, HS. rewrite HD, HS. unfold ret. rewrite !bind_ret; cbv beta.
  rewrite hstack_inr
    by (intros M [<- | []]; now rewrite zeros_length).
  rewrite bind_ret; cbv beta.
  rewrite hstack_inr
    by (intros M [<- | [<- | []]];
        [congruence | now rewrite neg_length, eye_length]).
  rewrite bind_ret; cbv beta.
  rewrite hstack_inr
    by (intros M [<- | [<- | []]];
        rewrite ?neg_length, ?eye_length; congruence).
  rewrite bind_ret; cbv beta. rewrite !neg_length, HAl. fold nd.
  set (R1 := map _ (seq 0 nd)).
  set (R2 := map _ (seq 0 (nx S))).
  set (R3 := map _ (seq 0 (nx S))).
  assert (HR1 : forall k, k < nd ->
            nth k R1 [] = nth k (Polyhedron.A Di) [] ++ repeat 0%Q (nx S)).
  { intros k Hk. unfold R1. rewrite nth_map_seq by assumption.
    simpl. now rewrite app_nil_r, zeros_nth. }
  assert (HR2 : forall k, k < nx S ->
            nth k R2 [] = nth k (AffineSystem.A Si) [] ++
              nth k (AffineSystem.B Si) [] ++ map Qopp (unit_row (nx S) k)).
  { intros k Hk. unfold R2. rewrite nth_map_seq by assumption.
    simpl. now rewrite app_nil_r, neg_nth, eye_nth. }
  assert (HR3 : forall k, k < nx S ->
            nth k R3 [] = map Qopp (nth k (AffineSystem.A Si) []) ++
              map Qopp (nth k (AffineSystem.B Si) []) ++ unit_row (nx S) k).
  { intros k Hk. unfold R3. rewrite nth_map_seq by assumption.
    simpl. now rewrite app_nil_r, !neg_nth, eye_nth. }
  assert (L1 : length R1 = nd) by (unfold R1; now rewrite length_map, length_seq).
  assert (L2 : length R2 = nx S) by (unfold R2; now rewrite length_map, length_seq).
  assert (L3 : length R3 = nx S) by (unfold R3; now rewrite length_map, length_seq).
  match goal with
  | |- context [vstack ?l] =>
      assert (HV : vstack l = inr (R1 ++ R2 ++ R3)); [| rewrite HV]
  end.
  { rewrite <- (app_nil_r R3) at 2.
    apply vstack_inr with (w := nx S + nu S + nx S); [discriminate |].
    simpl concat. rewrite app_nil_r. intros r Hin.
      apply In_nth with (d := []) in Hin. destruct Hin as (k & Hk & <-).
      rewrite !length_app, L1, L2, L3 in Hk.
      destruct (Nat.lt_ge_cases k nd) as [H1 | H1].
      + rewrite app_nth1 by lia. rewrite HR1 by assumption.
        rewrite length_app, repeat_length.
        rewrite (HDr (nth k (Polyhedron.A Di) [])); [lia |].
        apply nth_In. assumption.
      + rewrite app_nth2 by lia. rewrite L1.
        destruct (Nat.lt_ge_cases (k - nd) (nx S)) as [H2 | H2].
        * rewrite app_nth1 by lia. rewrite HR2 by assumption.
          rewrite !length_app, length_map, unit_row_length.
          rewrite (HAr (nth (k - nd) (AffineSystem.A Si) []))
            by (apply nth_In; lia).
          rewrite (HBr (nth (k - nd) (AffineSystem.B Si) []))
            by (apply nth_In; lia).
          lia.
        * rewrite app_nth2 by lia. rewrite L2, HR3 by lia.
          rewrite !length_app, !length_map, unit_row_length.
          rewrite (HAr (nth (k - nd - nx S) (AffineSystem.A Si) []))
            by (apply nth_In; lia).
          rewrite (HBr (nth (k - nd - nx S) (AffineSystem.B Si) []))
            by (apply nth_In; lia).
          lia. }
  - rewrite bind_ret; cbv beta.
    eexists; split; [reflexivity |]. simpl.
    repeat split.
    + rewrite !length_app. lia.
    + intros k Hk. rewrite app_nth1 by lia. now apply HR1.
    + intros k Hk. rewrite app_nth2 by lia. rewrite app_nth1 by lia.
      rewrite L1. replace (nd + k - nd) with k by lia. now apply HR2.
    + intros k Hk. rewrite app_nth2 by lia. rewrite app_nth2 by lia.
      rewrite L1, L2. replace (nd + nx S + k - nd - nx S) with k by lia.
      now apply HR3.
Qed.

Lemma graph_of_mode_feasible S Di Si Pi (x u xn : vector) :
  wf_domain (nx S) (nu S) Di = true ->
  wf_affine (nx S) (nu S) Si = true ->
  length (Polyhedron.A Pi) = length (Polyhedron.A Di) + 2 * nx S ->
  Polyhedron.b Pi =
    Polyhedron.b Di ++ map Qopp (AffineSystem.c Si) ++ AffineSystem.c Si ->
  (forall k, k < length (Polyhedron.A Di) ->
     nth k (Polyhedron.A Pi) [] =
     nth k (Polyhedron.A Di) [] ++ repeat 0%Q (nx S)) ->
  (forall k, k < nx S ->
     nth (length (Polyhedron.A Di) + k) (Polyhedron.A Pi) [] =
     nth k (AffineSystem.A Si) [] ++ nth k (AffineSystem.B Si) [] ++
     map Qopp (unit_row (nx S) k)) ->
  (forall k, k < nx S ->
     nth (length (Polyhedron.A Di) + nx S + k) (Polyhedron.A Pi) [] =
     map Qopp (nth k (AffineSystem.A Si) []) ++
     map Qopp (nth k (AffineSystem.B Si) []) ++ unit_row (nx S) k) ->
  length x = nx S -> length u = nu S -> length xn = nx S ->
  (In_poly Pi (x ++ u ++ xn) <->
   In_poly Di (x ++ u) /\
   forall k, k < nx S ->
     (nth k xn 0 == dot (nth k (AffineSystem.A Si) []) x +
                    dot (nth k (AffineSystem.B Si) []) u +
                    nth k (AffineSystem.c Si) 0)%Q).
Proof.
  intros HwD HwS Hlen Hb H1 H2 H3 Hx Hu Hxn.
  unfold wf_domain in HwD. unfold wf_affine in HwS.
  rewrite !andb_true_iff, Nat.eqb_eq in HwS. destruct HwS as ((HA & HB) & Hc).
  destruct (has_shape_spec _ _ _ HwD) as (HDl & _).
  set (nd := length (Polyhedron.A Di)) in *.
  assert (E1 : forall k, k < nd ->
            (dot (nth k (Polyhedron.A Pi) []) (x ++ u ++ xn) ==
             dot (nth k (Polyhedron.A Di) []) (x ++ u))%Q).
  { intros k Hk. rewrite H1 by assumption. rewrite app_assoc.
    rewrite dot_app, dot_zeros; [lra |].
    rewrite length_app, Hx, Hu.
    apply has_shape_nth with (r := length (Polyhedron.b Di)); [assumption | lia]. }
  assert (E2 : forall k, k < nx S ->
            (dot (nth (nd + k) (Polyhedron.A Pi) []) (x ++ u ++ xn) ==
             dot (nth k (AffineSystem.A Si) []) x +
             dot (nth k (AffineSystem.B Si) []) u - nth k xn 0)%Q).
  { intros k Hk. rewrite H2 by assumption.
    rewrite dot_app
      by (rewrite Hx; now apply has_shape_nth with (r := nx S)).
    rewrite dot_app
      by (rewrite Hu; now apply has_shape_nth with (r := nx S)).
    rewrite dot_opp, dot_unit_row by assumption. lra. }
  assert (E3 : forall k, k < nx S ->
            (dot (nth (nd + nx S + k) (Polyhedron.A Pi) []) (x ++ u ++ xn) ==
             - dot (nth k (AffineSystem.A Si) []) x -
             dot (nth k (AffineSystem.B Si) []) u + nth k xn 0)%Q).
  { intros k Hk. rewrite H3 by assumption.
    rewrite dot_app
      by (rewrite length_map, Hx; now apply has_shape_nth with (r := nx S)).
    rewrite dot_app
      by (rewrite length_map, Hu; now apply has_shape_nth with (r := nx S)).
    rewrite !dot_opp, dot_unit_row by assumption. lra. }
  assert (B1 : forall k, k < nd ->
            nth k (Polyhedron.b Pi) 0%Q = nth k (Polyhedron.b Di) 0%Q).
  { intros k Hk. rewrite Hb. apply app_nth1. lia. }
  assert (B2 : forall k, k < nx S ->
            nth (nd + k) (Polyhedron.b Pi) 0%Q =
            (- nth k (AffineSystem.c Si) 0)%Q).
  { intros k Hk. rewrite Hb. rewrite app_nth2 by lia.
    rewrite app_nth1 by (rewrite length_map; lia).
    replace (nd + k - length (Polyhedron.b Di)) with k by lia.
    change 0%Q with (Qopp 0) at 1. apply map_nth. }
  assert (B3 : forall k, k < nx S ->
            nth (nd + nx S + k) (Polyhedron.b Pi) 0%Q =
            nth k (AffineSystem.c Si) 0%Q).
  { intros k Hk. rewrite Hb. rewrite app_nth2 by lia.
    rewrite app_nth2 by (rewrite length_map; lia).
    rewrite length_map. f_equal. lia. }
  unfold In_poly. fold nd. split.
  - intros H. split.
    + intros k Hk. rewrite <- E1, <- B1 by assumption. apply H. lia.
    + intros k Hk.
      assert (Ha := H (nd + k) ltac:(lia)).
      assert (Hb' := H (nd + nx S + k) ltac:(lia)).
      rewrite E2, B2 in Ha by assumption.
      rewrite E3, B3 in Hb' by assumption. lra.
  - intros [HD Heq] k Hk.
    destruct (Nat.lt_ge_cases k nd) as [C1 | C1].
    + rewrite E1, B1 by assumption. now apply HD.
    + destruct (Nat.lt_ge_cases (k - nd) (nx S)) as [C2 | C2].
      * replace k with (nd + (k - nd)) by lia.
        rewrite E2, B2 by assumption. specialize (Heq _ C2). lra.
      * replace k with (nd + nx S + (k - nd - nx S)) by lia.
        assert (C3 : k - nd - nx S < nx S) by lia.
        rewrite E3, B3 by assumption. specialize (Heq _ C3). lra.
Qed.

(** C5.  On a well-shaped system [get_graph_representation] returns one
    polyhedron per mode; the polyhedron of mode [i] stacks, in this order,
    the domain rows [A_dom | 0] (right-hand side [b_dom]), the rows
    [A | B | -I] (right-hand side [-c]) and the rows [-A | -B | I]
    (right-hand side [c]); it has as many rows as the domain plus [2 nx];
    and a point [(x, u, x+)] lies in it exactly when [(x, u)] lies in the
    domain and [x+ = A x + B u + c]. *)
Theorem get_graph_representation_spec (S : PiecewiseAffineSystem.t) :
  wf_system S = true ->
  exists P,
    get_graph_representation S = inr P /\
    length P = nm S /\
    forall i Di Si,
      nth_error (domains S) i = Some Di ->
      nth_error (affine_systems S) i = Some Si ->
      exists Pi,
        nth_error P i = Some Pi /\
        length (Polyhedron.A Pi) = length (Polyhedron.A Di) + 2 * nx S /\
        Polyhedron.b Pi =
          Polyhedron.b Di ++ map Qopp (AffineSystem.c Si) ++ AffineSystem.c Si /\
        (forall k, k < length (Polyhedron.A Di) ->
           nth k (Polyhedron.A Pi) [] =
           nth k (Polyhedron.A Di) [] ++ repeat 0%Q (nx S)) /\
        (forall k, k < nx S ->
           nth (length (Polyhedron.A Di) + k) (Polyhedron.A Pi) [] =
           nth k (AffineSystem.A Si) [] ++ nth k (AffineSystem.B Si) [] ++
           map Qopp (unit_row (nx S) k)) /\
        (forall k, k < nx S ->
           nth (length (Polyhedron.A Di) + nx S + k) (Polyhedron.A Pi) [] =
           map Qopp (nth k (AffineSystem.A Si) []) ++
           map Qopp (nth k (AffineSystem.B Si) []) ++ unit_row (nx S) k) /\
        (forall x u xn,
           length x = nx S -> length u = nu S -> length xn = nx S ->
           (In_poly Pi (x ++ u ++ xn) <->
            In_poly Di (x ++ u) /\
            forall k, k < nx S ->
              (nth k xn 0 == dot (nth k (AffineSystem.A Si) []) x +
                             dot (nth k (AffineSystem.B Si) []) u +
                             nth k (AffineSystem.c Si) 0)%Q)).
Proof.
  intros Hwf.
  destruct (wf_system_lengths _ Hwf) as (HlD & HlS).
  destruct (mapM_total (graph_of_mode S) (seq 0 (nm S))) as (P & HP).
  { intros i Hi. apply in_seq in Hi.
    destruct (nth_error (domains S) i) as [Di |] eqn:ED;
      [| apply nth_error_None in ED; lia].
    destruct (nth_error (affine_systems S) i) as [Si |] eqn:ES;
      [| apply nth_error_None in ES; lia].
    destruct (graph_of_mode_rows _ _ _ _ Hwf ED ES) as (Pi & HPi & _). eauto. }
  exists P. split; [exact HP |].
  pose proof (mapM_length _ _ _ HP) as HlP. rewrite length_seq in HlP.
  split; [exact HlP |].
  intros i Di Si ED ES.
  assert (Hi : i < nm S).
  { rewrite <- HlD. apply nth_error_Some. congruence. }
  destruct (mapM_nth_error _ _ _ i _ HP (nth_error_seq 0 _ _ Hi)) as (Pi & HPi & Hg).
  simpl in Hg.
  destruct (graph_of_mode_rows _ _ _ _ Hwf ED ES) as (Pi' & HPi' & Hl & Hb & H1 & H2 & H3).
  rewrite Hg in HPi'. inversion HPi'; subst Pi'.
  exists Pi. repeat (split; [assumption |]).
  intros x u xn Hx Hu Hxn.
  apply graph_of_mode_feasible; try assumption.
  - eapply wf_system_domain; eassumption.
  - eapply wf_system_affine; eassumption.
Qed.

(** ** Big-M constants *)

Lemma Qltb_lt (x y : Q) : Qltb x y = true <-> (x < y)%Q.
Proof.
  unfold Qltb. rewrite negb_true_iff. split; intros H.
  - apply Qnot_le_lt. intros Hle. apply Qle_bool_iff in Hle. congruence.
  - destruct (Qle_bool y x) eqn:E; [| reflexivity].
    apply Qle_bool_iff in E. exfalso. revert E. now apply Qlt_not_le.
Qed.

Lemma Qltb_ge (x y : Q) : Qltb x y = false <-> (y <= x)%Q.
Proof.
  unfold Qltb. rewrite negb_false_iff. apply Qle_bool_iff.
Qed.

Lemma snap_small (tol v : Q) : (Qabs v < tol)%Q -> snap tol v = 0%Q.
Proof. intros H. unfold snap. apply Qltb_lt in H. now rewrite H. Qed.

Lemma snap_large (tol v : Q) : (tol <= Qabs v)%Q -> snap tol v = v.
Proof. intros H. unfold snap. apply Qltb_ge in H. now rewrite H. Qed.

Lemma maximum_cases (a b : Q) : maximum a b = a \/ maximum a b = b.
Proof. unfold maximum. destruct (Qle_bool b a); auto. Qed.

Lemma maximum_ge_l (a b : Q) : (a <= maximum a b)%Q.
Proof.
  unfold maximum. destruct (Qle_bool b a) eqn:E; [apply Qle_refl |].
  apply Qlt_le_weak. apply Qltb_lt. unfold Qltb. now rewrite E.
Qed.

Lemma maximum_ge_r (a b : Q) : (b <= maximum a b)%Q.
Proof.
  unfold maximum. destruct (Qle_bool b a) eqn:E; [| apply Qle_refl].
  now apply Qle_bool_iff.
Qed.

Lemma nth_error_map2 {T U V} (f : T -> U -> V) l1 l2 k a b :
  nth_error l1 k = Some a -> nth_error l2 k = Some b ->
  nth_error (map2 f l1 l2) k = Some (f a b).
Proof.
  revert l2 k; induction l1 as [| x l1 IH]; intros [| y l2] [| k] H1 H2;
    simpl in *; try discriminate.
  - congruence.
  - now apply IH.
Qed.

(** What [np.maximum.reduce] leaves in row [k]: an upper bound of the
    entries of that row, attained by one of them. *)
Lemma fold_maximum_row (cs : list vector) (c0 : vector) (k : nat) :
  (forall c, In c (c0 :: cs) -> exists v, nth_error c k = Some v) ->
  exists v,
    nth_error (fold_left (map2 maximum) cs c0) k = Some v /\
    (forall j c w, nth_error (c0 :: cs) j = Some c ->
                   nth_error c k = Some w -> (w <= v)%Q) /\
    (exists j c, nth_error (c0 :: cs) j = Some c /\ nth_error c k = Some v).
Proof.
  revert c0; induction cs as [| c1 cs IH]; intros c0 Hall.
  - destruct (Hall c0 (or_introl eq_refl)) as (v & Hv).
    exists v. simpl. split; [assumption |]. split.
    + intros [| j] c w Hj Hw; simpl in Hj.
      * inversion Hj; subst. rewrite Hv in Hw. inversion Hw. apply Qle_refl.
      * destruct j; discriminate.
    + exists 0, c0. auto.
  - destruct (Hall c0 (or_introl eq_refl)) as (v0 & Hv0).
    destruct (Hall c1 (or_intror (or_introl eq_refl))) as (v1 & Hv1).
    pose proof (nth_error_map2 maximum _ _ _ _ _ Hv0 Hv1) as Hm.
    destruct (IH (map2 maximum c0 c1)) as (v & Hv & Hub & (j & c & Hj & Hc)).
    { intros c [<- | Hin]; [eauto |]. apply Hall. right; now right. }
    exists v. simpl. split; [assumption |]. split.
    + intros [| [| j']] c' w Hj' Hw; simpl in Hj'.
      * inversion Hj'; subst c'. rewrite Hv0 in Hw. inversion Hw; subst w.
        apply Qle_trans with (maximum v0 v1); [apply maximum_ge_l |].
        apply (Hub 0 _ _ eq_refl Hm).
      * inversion Hj'; subst c'. rewrite Hv1 in Hw. inversion Hw; subst w.
        apply Qle_trans with (maximum v0 v1); [apply maximum_ge_r |].
        apply (Hub 0 _ _ eq_refl Hm).
      * apply (Hub (S j') c' w); assumption.
    + destruct j as [| j].
      * simpl in Hj. inversion Hj; subst c. rewrite Hm in Hc.
        inversion Hc as [Hv']. destruct (maximum_cases v0 v1) as [E | E].
        -- exists 0, c0. split; [reflexivity | congruence].
        -- exists 1, c1. split; [reflexivity | congruence].
      * exists (S (S j)), c. auto.
Qed.

Lemma big_m_entry_inr lp tol Pi Pj k v :
  big_m_entry lp tol Pi Pj k = inr v <->
  exists opt bk,
    lp (map Qopp (nth k (Polyhedron.A Pi) [])) (Polyhedron.A Pj)
       (Polyhedron.b Pj) = Some opt /\
    nth_error (Polyhedron.b Pi) k = Some bk /\
    v = snap tol (- opt - bk)%Q.
Proof.
  unfold big_m_entry.
  destruct (lp _ _ _) as [opt |]; unfold index.
  - destruct (nth_error (Polyhedron.b Pi) k) as [bk |]; simpl; split.
    + intros H; inversion H. eauto.
    + intros (o & b' & Ho & Hb & ->). inversion Ho; inversion Hb. reflexivity.
    + discriminate.
    + intros (o & b' & _ & Hb & _). discriminate.
  - split; [discriminate |]. intros (o & b' & Ho & _). discriminate.
Qed.

Lemma vstack_scalars_inr (l col : list Q) :
  vstack_scalars l = inr col <-> l <> [] /\ col = l.
Proof.
  destruct l; simpl; split.
  - discriminate.
  - intros [H _]; congruence.
  - intros H; inversion H. split; [discriminate | reflexivity].
  - intros [_ ->]. reflexivity.
Qed.

(** The shape of a successful run of [get_big_m]. *)
Lemma get_big_m_inr lp P tol m mi :
  get_big_m lp P tol = inr (m, mi) <->
  Forall2 (fun Pi mi_ =>
    Forall2 (fun Pj mij =>
      mij <> [] /\
      Forall2 (fun k v => big_m_entry lp tol Pi Pj k = inr v)
              (seq 0 (length (Polyhedron.A Pi))) mij) P mi_) P m /\
  Forall2 (fun mi_ col => maximum_reduce mi_ = inr col) m mi.
Proof.
  unfold get_big_m. split.
  - intros H. inv_bind H. inv_bind H. inversion H; subst. clear H.
    split; [| now apply mapM_Forall2].
    apply mapM_Forall2 in Ha.
    eapply Forall2_impl; [| exact Ha]. intros Pi mi_ H; simpl in H.
    apply mapM_Forall2 in H.
    eapply Forall2_impl; [| exact H]. intros Pj mij H'; simpl in H'.
    inv_bind H'. apply vstack_scalars_inr in H'. destruct H' as (Hne & ->).
    split; [assumption | now apply mapM_Forall2].
  - intros (H1 & H2).
    assert (E : mapM (fun Pi => mapM (fun Pj =>
                  mij <- mapM (big_m_entry lp tol Pi Pj)
                              (seq 0 (length (Polyhedron.A Pi))) ;;
                  vstack_scalars mij) P) P = inr m).
    { apply mapM_Forall2.
      eapply Forall2_impl; [| exact H1]. intros Pi mi_ H; simpl in H.
      apply mapM_Forall2.
      eapply Forall2_impl; [| exact H]. intros Pj mij (Hne & H'); simpl.
      apply mapM_Forall2 in H'. rewrite H'. simpl.
      apply vstack_scalars_inr. auto. }
    rewrite E. simpl. apply mapM_Forall2 in H2. rewrite H2. reflexivity.
Qed.

Lemma get_big_m_entry lp P tol m mi i j k Pi Pj :
  get_big_m lp P tol = inr (m, mi) ->
  nth_error P i = Some Pi -> nth_error P j = Some Pj ->
  k < length (Polyhedron.A Pi) ->
  exists v, m_at m i j k = Some v /\ big_m_entry lp tol Pi Pj k = inr v.
Proof.
  intros H Hi Hj Hk. apply get_big_m_inr in H. destruct H as (H & _).
  destruct (Forall2_nth_error_l _ _ _ _ _ H Hi) as (mi_ & Hmi & H1).
  destruct (Forall2_nth_error_l _ _ _ _ _ H1 Hj) as (mij & Hmij & _ & H2).
  destruct (Forall2_nth_error_l _ _ _ _ _ H2 (nth_error_seq 0 _ _ Hk))
    as (v & Hv & Hentry).
  exists v. unfold m_at. rewrite Hmi, Hmij. auto.
Qed.

Lemma get_big_m_total lp P tol :
  (forall Pi, In Pi P ->
     0 < length (Polyhedron.A Pi) <= length (Polyhedron.b Pi)) ->
  (forall Pi Pj k, In Pi P -> In Pj P -> k < length (Polyhedron.A Pi) ->
     lp (map Qopp (nth k (Polyhedron.A Pi) [])) (Polyhedron.A Pj)
        (Polyhedron.b Pj) <> None) ->
  exists m mi, get_big_m lp P tol = inr (m, mi).
Proof.
  intros Hrows Hlp.
  destruct (mapM_total (fun Pi => mapM (fun Pj =>
              mij <- mapM (big_m_entry lp tol Pi Pj)
                          (seq 0 (length (Polyhedron.A Pi))) ;;
              vstack_scalars mij) P) P) as (m & Hm).
  { intros Pi HPi. apply mapM_total. intros Pj HPj.
    destruct (mapM_total (big_m_entry lp tol Pi Pj)
                (seq 0 (length (Polyhedron.A Pi)))) as (mij & Hmij).
    { intros k Hk. apply in_seq in Hk.
      destruct (lp (map Qopp (nth k (Polyhedron.A Pi) [])) (Polyhedron.A Pj)
                   (Polyhedron.b Pj)) as [opt |] eqn:E;
        [| exfalso; apply (Hlp Pi Pj k); auto; lia].
      destruct (nth_error (Polyhedron.b Pi) k) as [bk |] eqn:Eb.
      - eexists. apply big_m_entry_inr. exists opt, bk. eauto.
      - apply nth_error_None in Eb. specialize (Hrows _ HPi). lia. }
    exists mij. rewrite Hmij. simpl. apply vstack_scalars_inr.
    split; [| reflexivity].
    apply mapM_length in Hmij. rewrite length_seq in Hmij.
    specialize (Hrows _ HPi). destruct mij; [simpl in Hmij; lia | discriminate]. }
  destruct (mapM_total maximum_reduce m) as (mi & Hmi).
  { intros mi_ Hin. apply In_nth_error in Hin. destruct Hin as (i & Hi).
    apply mapM_Forall2 in Hm.
    destruct (Forall2_nth_error_r _ _ _ _ _ Hm Hi) as (Pi & HPi & H).
    apply mapM_length in H.
    destruct mi_ as [| c0 cs]; [| simpl; eauto].
    destruct P; [destruct i; discriminate | discriminate]. }
  exists m, mi. unfold get_big_m. rewrite Hm. simpl. rewrite Hmi. reflexivity.
Qed.

(** C1.  Whenever [get_big_m] returns, the entry [m[i][j][k]] is
    [- opt - b_i[k]], for [opt] the least value of [(-A_i[k]) . w] over the
    polyhedron of mode [j] as the linear program gives it, replaced by
    zero when its absolute value is below the tolerance; and [get_big_m]
    does return when every polyhedron has a row (and a right-hand side for
    each row) and every linear program has an optimum. *)
Theorem get_big_m_entries lp P tol :
  (forall m mi,
     get_big_m lp P tol = inr (m, mi) ->
     forall i j k Pi Pj,
       nth_error P i = Some Pi -> nth_error P j = Some Pj ->
       k < length (Polyhedron.A Pi) ->
       exists opt mijk,
         lp (map Qopp (nth k (Polyhedron.A Pi) [])) (Polyhedron.A Pj)
            (Polyhedron.b Pj) = Some opt /\
         m_at m i j k = Some mijk /\
         ((Qabs (- opt - nth k (Polyhedron.b Pi) 0) < tol)%Q ->
          mijk = 0%Q) /\
         ((tol <= Qabs (- opt - nth k (Polyhedron.b Pi) 0))%Q ->
          mijk = (- opt - nth k (Polyhedron.b Pi) 0)%Q)) /\
  ((forall Pi, In Pi P ->
      0 < length (Polyhedron.A Pi) <= length (Polyhedron.b Pi)) ->
   (forall Pi Pj k, In Pi P -> In Pj P -> k < length (Polyhedron.A Pi) ->
      lp (map Qopp (nth k (Polyhedron.A Pi) [])) (Polyhedron.A Pj)
         (Polyhedron.b Pj) <> None) ->
   exists m mi, get_big_m lp P tol = inr (m, mi)).
Proof.
  split; [| apply get_big_m_total].
  intros m mi H i j k Pi Pj Hi Hj Hk.
  destruct (get_big_m_entry _ _ _ _ _ _ _ _ _ _ H Hi Hj Hk) as (v & Hv & He).
  apply big_m_entry_inr in He. destruct He as (opt & bk & Ho & Hb & ->).
  exists opt, (snap tol (- opt - bk)). split; [assumption |].
  split; [assumption |].
  rewrite (nth_error_nth _ _ 0%Q Hb).
  split; [apply snap_small | apply snap_large].
Qed.

(** C2.  In the pair returned by [get_big_m], [mi[i][k]] is the largest of
    the entries [m[i][j][k]] over all modes [j], [j = i] included: it
    bounds each of them and is one of them. *)
Theorem get_big_m_row_max lp P tol m mi :
  get_big_m lp P tol = inr (m, mi) ->
  forall i k Pi,
    nth_error P i = Some Pi -> k < length (Polyhedron.A Pi) ->
    exists v,
      mi_at mi i k = Some v /\
      (forall j, j < length P ->
         exists w, m_at m i j k = Some w /\ (w <= v)%Q) /\
      (exists j, j < length P /\ m_at m i j k = Some v).
Proof.
  intros H i k Pi Hi Hk.
  pose proof H as H0. apply get_big_m_inr in H0. destruct H0 as (H1 & H2).
  destruct (Forall2_nth_error_l _ _ _ _ _ H1 Hi) as (mi_ & Hmi & HF).
  destruct (Forall2_nth_error_l _ _ _ _ _ H2 Hmi) as (col & Hcol & Hred).
  pose proof (Forall2_length HF) as Hlen.
  assert (Hall : forall c, In c mi_ -> exists v, nth_error c k = Some v).
  { intros c Hin. apply In_nth_error in Hin. destruct Hin as (j & Hj).
    destruct (Forall2_nth_error_r _ _ _ _ _ HF Hj) as (Pj & HPj & _ & HF').
    apply Forall2_length in HF'. rewrite length_seq in HF'.
    destruct (nth_error c k) as [v |] eqn:E; [eauto |].
    apply nth_error_None in E. lia. }
  destruct mi_ as [| c0 cs]; [discriminate |]. simpl in Hred.
  inversion Hred; subst col. clear Hred.
  destruct (fold_maximum_row cs c0 k Hall) as (v & Hv & Hub & (j & c & Hj & Hc)).
  exists v. unfold mi_at, m_at. rewrite Hcol, Hmi. split; [assumption |]. split.
  - intros j' Hj'.
    destruct (nth_error (c0 :: cs) j') as [c' |] eqn:E;
      [| apply nth_error_None in E; lia].
    destruct (Hall c' (nth_error_In _ _ E)) as (w & Hw).
    exists w. split; [assumption |]. exact (Hub _ _ _ E Hw).
  - exists j. rewrite Hj. split; [| assumption].
    rewrite Hlen. apply nth_error_Some. congruence.
Qed.

(** ** Linear expressions *)

Lemma member_x (t k : nat) : member ("x" ++ dec t) k = x_name t k.
Proof. reflexivity. Qed.
Lemma member_u (t k : nat) : member ("u" ++ dec t) k = u_name t k.
Proof. reflexivity. Qed.
Lemma member_d (t k : nat) : member ("d" ++ dec t) k = d_name t k.
Proof. reflexivity. Qed.

Lemma eval_terms_app rho ts1 ts2 :
  (eval_terms rho (ts1 ++ ts2) == eval_terms rho ts1 + eval_terms rho ts2)%Q.
Proof.
  induction ts1 as [| cv ts1 IH]; simpl.
  - lra.
  - rewrite IH. lra.
Qed.

Lemma eval_terms_scale rho c ts :
  (eval_terms rho (map (fun cv => ((c * fst cv)%Q, snd cv)) ts) ==
   c * eval_terms rho ts)%Q.
Proof.
  induction ts as [| cv ts IH]; simpl.
  - lra.
  - rewrite IH. lra.
Qed.

Lemma eval_const rho c : (eval rho (le_const c) == c)%Q.
Proof. unfold eval; simpl. lra. Qed.

Lemma eval_var rho v : (eval rho (le_var v) == rho v)%Q.
Proof. unfold eval; simpl. lra. Qed.

Lemma eval_add rho e1 e2 :
  (eval rho (le_add e1 e2) == eval rho e1 + eval rho e2)%Q.
Proof.
  unfold eval; simpl. rewrite eval_terms_app. lra.
Qed.

Lemma eval_scale rho c e : (eval rho (le_scale c e) == c * eval rho e)%Q.
Proof.
  unfold eval; simpl. rewrite eval_terms_scale. lra.
Qed.

Lemma eval_sub rho e1 e2 :
  (eval rho (le_sub e1 e2) == eval rho e1 - eval rho e2)%Q.
Proof. unfold le_sub. rewrite eval_add, eval_scale. lra. Qed.

Lemma eval_fold_add rho es e0 :
  (eval rho (fold_left le_add es e0) ==
   eval rho e0 + Qsum (map (eval rho) es))%Q.
Proof.
  revert e0; induction es as [| e es IH]; intros e0; simpl.
  - lra.
  - rewrite IH, eval_add. lra.
Qed.

Lemma eval_sum rho es : (eval rho (le_sum es) == Qsum (map (eval rho) es))%Q.
Proof. unfold le_sum. rewrite eval_fold_add, eval_const. lra. Qed.

Lemma Qsum_dot rho a vs :
  (Qsum (map (eval rho) (map2 (fun c v => le_scale c (le_var v)) a vs)) ==
   dot a (map rho vs))%Q.
Proof.
  revert vs; induction a as [| c a IH]; intros [| v vs]; simpl;
    try reflexivity.
  rewrite IH, eval_scale, eval_var. lra.
Qed.

Lemma dot_vars_inr a vs e :
  dot_vars a vs = inr e ->
  length a = length vs /\ forall rho, (eval rho e == dot a (map rho vs))%Q.
Proof.
  unfold dot_vars. destruct (length a =? length vs) eqn:E; [| discriminate].
  intros H; inversion H; subst. split; [now apply Nat.eqb_eq |].
  intros rho. rewrite eval_sum. apply Qsum_dot.
Qed.

(** ** The construction of the program *)

Lemma addConstrs_constrs prog cs :
  constrs (addConstrs prog cs) = constrs prog ++ map constr_of cs.
Proof.
  unfold addConstrs. revert prog; induction cs as [| c cs IH]; intros prog; simpl.
  - now rewrite app_nil_r.
  - rewrite IH. simpl. rewrite <- app_assoc. reflexivity.
Qed.

Lemma addConstrs_vars prog cs : vars (addConstrs prog cs) = vars prog.
Proof.
  unfold addConstrs. revert prog; induction cs as [| c cs IH]; intros prog; simpl.
  - reflexivity.
  - now rewrite IH.
Qed.

Lemma extends_refl p : extends p p.
Proof. exists [], []. rewrite !app_nil_r. auto. Qed.

Lemma extends_trans p1 p2 p3 : extends p1 p2 -> extends p2 p3 -> extends p1 p3.
Proof.
  intros (vs1 & cs1 & Hv1 & Hc1 & Hd1) (vs2 & cs2 & Hv2 & Hc2 & Hd2).
  exists (vs1 ++ vs2), (cs1 ++ cs2).
  rewrite Hv2, Hv1, Hc2, Hc1, !app_assoc. repeat split.
  apply Forall_app. auto.
Qed.

Lemma extends_addConstrs p cs : extends p (addConstrs p cs).
Proof.
  exists [], (map constr_of cs).
  rewrite addConstrs_constrs, addConstrs_vars, app_nil_r. auto.
Qed.

Lemma extends_addVars p n lb ub name :
  (is_d name = true -> lb = 0%Q /\ ub = GRB_INFINITY) ->
  name <> ""%string ->
  extends p (fst (addVars p n lb ub name)).
Proof.
  intros Hd Hne.
  exists (map (fun s => mkVar s lb ub CONTINUOUS None)
              (map (member name) (seq 0 n))), [].
  simpl. rewrite app_nil_r.
  split; [reflexivity |]. split; [reflexivity |].
  apply Forall_forall. intros v Hin.
  apply in_map_iff in Hin. destruct Hin as (s & <- & Hs).
  apply in_map_iff in Hs. destruct Hs as (k & <- & _).
  unfold d_declared; simpl. intros H.
  assert (Hn : is_d name = true).
  { destruct name as [| a name]; [congruence |]. exact H. }
  destruct (Hd Hn) as (-> & ->). auto.
Qed.

Lemma extends_addVars2 p n1 n2 lb ub name :
  is_d name = false -> name <> ""%string ->
  extends p (fst (addVars2 p n1 n2 lb ub name)).
Proof.
  intros Hd Hne.
  exists (map (fun s => mkVar s lb ub CONTINUOUS None)
              (concat (map (fun i => map (member2 name i) (seq 0 n2))
                           (seq 0 n1)))), [].
  simpl. rewrite app_nil_r.
  split; [reflexivity |]. split; [reflexivity |].
  apply Forall_forall. intros v Hin.
  apply in_map_iff in Hin. destruct Hin as (s & <- & Hs).
  apply in_concat in Hs. destruct Hs as (l & Hl & Hs).
  apply in_map_iff in Hl. destruct Hl as (i & <- & _).
  apply in_map_iff in Hs. destruct Hs as (k & <- & _).
  unfold d_declared; simpl. intros H.
  destruct name as [| a name]; [congruence |]. simpl in *. congruence.
Qed.

Lemma extends_In_var p p' v : extends p p' -> In v (vars p) -> In v (vars p').
Proof. intros (vs & cs & -> & _) H. apply in_or_app. auto. Qed.

Lemma extends_In_constr p p' c :
  extends p p' -> In c (constrs p) -> In c (constrs p').
Proof. intros (vs & cs & _ & -> & _) H. apply in_or_app. auto. Qed.

Lemma stage_done_extends S method P m mi t p p' :
  extends p p' -> stage_done S method P m mi t p ->
  stage_done S method P m mi t p'.
Proof.
  intros He (H1 & H2 & H3). repeat split.
  - intros i Hi. destruct (H1 i Hi) as (v & Hv & Hn).
    exists v. split; [eapply extends_In_var; eassumption | assumption].
  - eapply extends_In_constr; eassumption.
  - intros Hm. destruct (H3 Hm) as (tcs & Ht & Hin). exists tcs.
    split; [assumption |]. intros tc Htc.
    eapply extends_In_constr; [eassumption | now apply Hin].
Qed.

Lemma addVars_inv p n lb ub name p1 h :
  addVars p n lb ub name = (p1, h) ->
  h = map (member name) (seq 0 n) /\
  p1 = fst (addVars p n lb ub name) /\
  (forall k, k < n ->
     In (mkVar (member name k) lb ub CONTINUOUS None) (vars p1)).
Proof.
  intros H. pose proof H as H'. unfold addVars in H'. inversion H'; subst.
  split; [reflexivity |]. split; [reflexivity |].
  intros k Hk. simpl. apply in_or_app. right.
  apply in_map with (f := fun s => mkVar s lb ub CONTINUOUS None).
  apply in_map. apply in_seq. lia.
Qed.

Lemma addVars2_inv p n1 n2 lb ub name p1 h :
  addVars2 p n1 n2 lb ub name = (p1, h) ->
  p1 = fst (addVars2 p n1 n2 lb ub name).
Proof. intros H. now rewrite H. Qed.

Lemma simplex_constr_inr d c :
  simplex_constr d = inr c ->
  c = (le_sum (map le_var d), EQUAL, le_const 1%Q).
Proof. destruct d; simpl; intros H; inversion H; reflexivity. Qed.

Lemma stage_inr S Q_ R_ method P m mi prog obj xp t prog' obj' xn :
  stage S Q_ R_ method P m mi (prog, obj, xp) t = inr (prog', obj', xn) ->
  (t <> 0 -> xp = Some (x_names (nx S) t)) ->
  xn = Some (x_names (nx S) (t + 1)) /\
  extends prog prog' /\
  stage_done S method P m mi t prog'.
Proof.
  intros H Hxp. unfold stage in H.
  inv_bind H. destruct a as [prog0 x].
  assert (Hx : x = x_names (nx S) t /\ extends prog prog0).
  { destruct (t =? 0) eqn:Et.
    - apply Nat.eqb_eq in Et; subst t. unfold ret in Ha. inversion Ha.
      split; [reflexivity |].
      apply (extends_addVars prog (nx S) 0%Q 0%Q "x0"); [| discriminate].
      discriminate.
    - apply Nat.eqb_neq in Et. rewrite (Hxp Et) in Ha. inversion Ha; subst.
      split; [reflexivity | apply extends_refl]. }
  destruct Hx as (-> & E0). clear Ha Hxp.
  destruct (addVars prog0 _ _ _ _) as [prog1 x_next] eqn:A1.
  destruct (addVars prog1 _ _ _ _) as [prog2 u] eqn:A2.
  destruct (addVars prog2 _ _ _ _) as [prog3 d] eqn:A3.
  apply addVars_inv in A1, A2, A3.
  destruct A1 as (-> & A1 & _), A2 as (-> & A2 & _), A3 as (-> & A3 & Hd).
  assert (E1 : extends prog0 prog1).
  { rewrite A1. apply extends_addVars; discriminate. }
  assert (E2 : extends prog1 prog2).
  { rewrite A2. apply extends_addVars; discriminate. }
  assert (E3 : extends prog2 prog3).
  { rewrite A3. apply extends_addVars; [auto | discriminate]. }
  clear A1 A2 A3.
  inv_bind H. rename a into prog4. rename Ha into Hdyn.
  inv_bind H. rename a into c.
  apply simplex_constr_inr in Ha. subst c.
  inv_bind H. inv_bind H. unfold ret in H. inversion H; subst. clear H.
  split; [reflexivity |].
  assert (E4 : extends prog3 prog4 /\
               (String.eqb method "big_m" || String.eqb method "improved_big_m"
                = true ->
                exists tcs,
                  big_m_stage S method P m mi
                    (x_names (nx S) t ++ u_names (nu S) t ++
                     x_names (nx S) (t + 1)) (d_names (nm S) t) = inr tcs /\
                  forall tc, In tc tcs -> In (constr_of tc) (constrs prog4))).
  { destruct (String.eqb method "big_m" || String.eqb method "improved_big_m").
    - apply bind_inr in Hdyn. destruct Hdyn as (tcs & Htcs & Hdyn).
      unfold ret in Hdyn; inversion Hdyn; subst.
      split; [apply extends_addConstrs |].
      intros _. exists tcs. split; [exact Htcs |].
      intros tc Htc. rewrite addConstrs_constrs. apply in_or_app. right.
      now apply in_map.
    - split; [| discriminate].
      destruct (String.eqb method "convex_hull"); [| discriminate].
      destruct (addVars2 prog3 _ _ _ _ _) as [prog5 y] eqn:B1.
      destruct (addVars2 prog5 _ _ _ _ _) as [prog6 z] eqn:B2.
      destruct (addVars2 prog6 _ _ _ _ _) as [prog7 v] eqn:B3.
      apply addVars2_inv in B1, B2, B3.
      apply bind_inr in Hdyn. destruct Hdyn as (tcs & Htcs & Hdyn).
      unfold ret in Hdyn; inversion Hdyn; subst prog4.
      eapply extends_trans; [| apply extends_addConstrs].
      eapply extends_trans; [| rewrite B3; apply extends_addVars2;
                                 [reflexivity | discriminate]].
      eapply extends_trans; [| rewrite B2; apply extends_addVars2;
                                 [reflexivity | discriminate]].
      rewrite B1; apply extends_addVars2; [reflexivity | discriminate]. }
  destruct E4 as (E4 & Hbig).
  pose proof (extends_addConstrs prog4
    [(le_sum (map le_var (map (member ("d" ++ dec t)) (seq 0 (nm S)))),
      EQUAL, le_const 1%Q)]) as E5.
  split.
  { apply (extends_trans _ _ _ E0), (extends_trans _ _ _ E1),
      (extends_trans _ _ _ E2), (extends_trans _ _ _ E3),
      (extends_trans _ _ _ E4), E5. }
  repeat split.
  - intros i Hi. eexists. split.
    + eapply extends_In_var; [exact E5 |].
      eapply extends_In_var; [exact E4 |]. apply Hd. exact Hi.
    + reflexivity.
  - simpl. apply in_or_app. right. left. reflexivity.
  - intros Hm. destruct (Hbig Hm) as (tcs & Ht & Hin). exists tcs.
    split; [exact Ht |]. intros tc Htc.
    eapply extends_In_constr; [exact E5 | now apply Hin].
Qed.
Lemma stage_loop S Q_ R_ method P m mi n :
  forall s prog obj xp prog' obj' xn,
    foldM (stage S Q_ R_ method P m mi) (seq s n) (prog, obj, xp) =
      inr (prog', obj', xn) ->
    (s <> 0 -> xp = Some (x_names (nx S) s)) ->
    extends prog prog' /\
    xn = match n with
         | 0 => xp
         | _ => Some (x_names (nx S) (s + n))
         end /\
    forall t, s <= t < s + n -> stage_done S method P m mi t prog'.
Proof.
  induction n as [| n IH]; intros s prog obj xp prog' obj' xn H Hxp.
  - simpl in H. unfold ret in H. inversion H; subst.
    split; [apply extends_refl |]. split; [reflexivity | intros; lia].
  - simpl in H. apply bind_inr in H.
    destruct H as ([[p1 o1] x1] & Hst & H).
    apply stage_inr in Hst; [| assumption].
    destruct Hst as (-> & E1 & D1).
    apply IH in H; [| intros _; f_equal; f_equal; lia].
    destruct H as (E2 & Hxn & D2).
    split; [eapply extends_trans; eassumption |]. split.
    + rewrite Hxn. destruct n as [| n']; f_equal; f_equal; lia.
    + intros t Ht. destruct (Nat.eq_dec t s) as [-> | Hne].
      * eapply stage_done_extends; eassumption.
      * apply D2. lia.
Qed.

Lemma build_mpmiqp_inr lp S N Q_ R_ P_ X_N method prog :
  build_mpmiqp lp S N Q_ R_ P_ X_N method = inr prog ->
  exists P m mi,
    get_graph_representation S = inr P /\
    get_big_m lp P default_tol = inr (m, mi) /\
    0 < N /\
    Forall d_declared (vars prog) /\
    forall t, t < N -> stage_done S method P m mi t prog.
Proof.
  intros H. unfold build_mpmiqp in H.
  apply bind_inr in H. destruct H as (P & HP & H).
  apply bind_inr in H. destruct H as ([m mi] & Hm & H).
  apply bind_inr in H. destruct H as ([[p1 obj] xl] & Hloop & H).
  apply bind_inr in H. destruct H as (x_next & Hx & H).
  apply bind_inr in H. destruct H as (cs & Hcs & H).
  apply bind_inr in H. destruct H as (qt & Hqt & H).
  unfold ret in H. inversion H; subst prog. clear H.
  apply stage_loop in Hloop; [| intros E; congruence].
  destruct Hloop as (E & Hxl & Hdone).
  exists P, m, mi. repeat (split; [assumption |]).
  assert (HN : 0 < N).
  { destruct N; [| lia]. subst xl. discriminate. }
  split; [exact HN |].
  assert (E' : extends p1 (setObjective (addConstrs p1 cs) (obj ++ qt))).
  { destruct (extends_addConstrs p1 cs) as (vs & cs' & Hv & Hc & Hd).
    exists vs, cs'. simpl. auto. }
  split.
  - destruct (extends_trans _ _ _ E E') as (vs & cs' & Hv & _ & Hd).
    rewrite Hv. simpl. exact Hd.
  - intros t Ht. eapply stage_done_extends; [exact E' |].
    apply Hdone. lia.
Qed.
Lemma In_concat_nth {T} (ls : list (list T)) (i : nat) (l : list T) (a : T) :
  nth_error ls i = Some l -> In a l -> In a (concat ls).
Proof.
  intros Hl Ha. apply in_concat. exists l. split; [| assumption].
  eapply nth_error_In; eassumption.
Qed.

Lemma big_m_stage_inr S method P m mi xux d tcs i :
  big_m_stage S method P m mi xux d = inr tcs ->
  i < nm S ->
  exists c1 c2,
    (if String.eqb method "big_m"
     then Pi <- index P i ;;
          mapM (big_m_constr Pi mi xux d i) (seq 0 (length (Polyhedron.A Pi)))
     else ret []) = inr c1 /\
    (if String.eqb method "improved_big_m"
     then s <- sum_mi m d (nm S) i ;;
          Pi <- index P i ;;
          mapM (improved_big_m_constr Pi s xux)
               (seq 0 (length (Polyhedron.A Pi)))
     else ret []) = inr c2 /\
    forall tc, In tc (c1 ++ c2) -> In tc tcs.
Proof.
  intros H Hi. unfold big_m_stage in H.
  apply bind_inr in H. destruct H as (css & Hcss & H).
  unfold ret in H. inversion H; subst tcs. clear H.
  destruct (mapM_nth_error _ _ _ i _ Hcss (nth_error_seq 0 _ _ Hi))
    as (cs & Hcs & Hi').
  simpl in Hi'.
  apply bind_inr in Hi'. destruct Hi' as (c1 & Hc1 & Hi').
  apply bind_inr in Hi'. destruct Hi' as (c2 & Hc2 & Hi').
  unfold ret in Hi'. inversion Hi'; subst cs.
  exists c1, c2. repeat split; try assumption.
  intros tc Htc. eapply In_concat_nth; eassumption.
Qed.

Lemma nth_error_d_names nm t i :
  i < nm -> nth_error (d_names nm t) i = Some (d_name t i).
Proof.
  intros Hi. unfold d_names.
  rewrite nth_error_map, nth_error_seq by assumption. reflexivity.
Qed.

Lemma big_m_constr_inr Pi mi xux d i k tc :
  big_m_constr Pi mi xux d i k = inr tc ->
  exists mik di,
    mi_at mi i k = Some mik /\ nth_error d i = Some di /\
    forall rho,
      sat rho (constr_of tc) <->
      (dot (nth k (Polyhedron.A Pi) []) (map rho xux) <=
       nth k (Polyhedron.b Pi) 0 + mik * (1 - rho di))%Q.
Proof.
  intros H. unfold big_m_constr in H.
  apply bind_inr in H. destruct H as (l & Hl & H).
  apply bind_inr in H. destruct H as (bk & Hbk & H).
  apply bind_inr in H. destruct H as (mi_i & Hmi & H).
  apply bind_inr in H. destruct H as (mik & Hmik & H).
  apply bind_inr in H. destruct H as (di & Hdi & H).
  unfold ret in H. inversion H; subst tc. clear H.
  apply index_inr in Hbk, Hmi, Hmik, Hdi.
  apply dot_vars_inr in Hl. destruct Hl as (_ & Hl).
  exists mik, di. unfold mi_at. rewrite Hmi. repeat split; try assumption.
  - unfold sat, constr_of; simpl. intros Hs.
    rewrite Hl, eval_add, eval_scale, eval_sub, !eval_const, eval_var in Hs.
    now rewrite (nth_error_nth _ _ 0%Q Hbk).
  - unfold sat, constr_of; simpl. intros Hs.
    rewrite Hl, eval_add, eval_scale, eval_sub, !eval_const, eval_var.
    now rewrite (nth_error_nth _ _ 0%Q Hbk) in Hs.
Qed.
Lemma nth_error_map2_inv {T U V} (f : T -> U -> V) l1 l2 k c :
  nth_error (map2 f l1 l2) k = Some c ->
  exists a b, nth_error l1 k = Some a /\ nth_error l2 k = Some b /\ c = f a b.
Proof.
  revert l2 k; induction l1 as [| x l1 IH]; intros [| y l2] [| k] H;
    simpl in *; try discriminate.
  - inversion H. eauto.
  - now apply IH.
Qed.

Lemma fold_map2_add_nth (rest : list (list LinExpr)) c0 k e :
  nth_error (fold_left (map2 le_add) rest c0) k = Some e ->
  exists e0 es,
    nth_error c0 k = Some e0 /\
    Forall2 (fun col e' => nth_error col k = Some e') rest es /\
    forall rho, (eval rho e == eval rho e0 + Qsum (map (eval rho) es))%Q.
Proof.
  revert c0; induction rest as [| c1 rest IH]; intros c0 H; simpl in H.
  - exists e, []. repeat split; [assumption | constructor |].
    intros rho; simpl. lra.
  - apply IH in H. destruct H as (e0 & es & H0 & HF & He).
    apply nth_error_map2_inv in H0. destruct H0 as (a & b & Ha & Hb & ->).
    exists a, (b :: es). repeat split; [assumption | now constructor |].
    intros rho. rewrite He, eval_add. simpl. lra.
Qed.

(** One term [m[i][j] * d[j]] of the sum of the improved big-M method. *)
Lemma scaled_column_nth m (d : list string) nm t i j col k e :
  (m_i <- index m i ;; mij <- index m_i j ;; dj <- index d j ;;
   ret (map (fun c => le_scale c (le_var dj)) mij)) = inr col ->
  d = d_names nm t -> j < nm ->
  nth_error col k = Some e ->
  forall rho, (eval rho e == m_val m i j k * rho (d_name t j))%Q.
Proof.
  intros H -> Hj Hk rho.
  apply bind_inr in H. destruct H as (m_i & Hmi & H).
  apply bind_inr in H. destruct H as (mij & Hmij & H).
  apply bind_inr in H. destruct H as (dj & Hdj & H).
  unfold ret in H. inversion H; subst col. clear H.
  apply index_inr in Hmi, Hmij, Hdj.
  rewrite nth_error_d_names in Hdj by assumption. inversion Hdj; subst dj.
  rewrite nth_error_map in Hk.
  destruct (nth_error mij k) as [c |] eqn:Ec; [| discriminate].
  inversion Hk; subst e.
  rewrite eval_scale, eval_var. unfold m_val.
  rewrite (nth_error_nth _ _ [] Hmi), (nth_error_nth _ _ [] Hmij),
    (nth_error_nth _ _ 0%Q Ec). reflexivity.
Qed.

Lemma scaled_columns_sum m (d : list string) nm t i k rho :
  d = d_names nm t ->
  forall js cols es,
    Forall (fun j => j < nm) js ->
    Forall2 (fun j col =>
      (m_i <- index m i ;; mij <- index m_i j ;; dj <- index d j ;;
       ret (map (fun c => le_scale c (le_var dj)) mij)) = inr col) js cols ->
    Forall2 (fun col e => nth_error col k = Some e) cols es ->
    (Qsum (map (eval rho) es) ==
     Qsum (map (fun j => m_val m i j k * rho (d_name t j)) js))%Q.
Proof.
  intros Hd js; induction js as [| j js IH]; intros cols es Hjs H1 H2.
  - inversion H1; subst. inversion H2; subst. reflexivity.
  - inversion H1 as [| ? col ? cols' Hcol H1']; subst.
    inversion H2 as [| ? e ? es' He H2']; subst.
    inversion Hjs as [| ? ? Hj Hjs']; subst.
    simpl. rewrite (IH _ _ Hjs' H1' H2').
    rewrite (scaled_column_nth _ _ _ _ _ _ _ _ _ Hcol eq_refl Hj He rho).
    reflexivity.
Qed.

Lemma sum_mi_inr m (d : list string) nm t i col k e :
  sum_mi m d nm i = inr (Some col) ->
  d = d_names nm t ->
  nth_error col k = Some e ->
  forall rho,
    (eval rho e ==
     Qsum (map (fun j => m_val m i j k * rho (d_name t j))
               (filter (fun j => negb (j =? i)) (seq 0 nm))))%Q.
Proof.
  intros H Hd Hk rho. unfold sum_mi in H.
  apply bind_inr in H. destruct H as (cols & Hcols & H).
  unfold ret in H. inversion H as [Hs]. clear H.
  apply mapM_Forall2 in Hcols.
  assert (Hjs : Forall (fun j => j < nm)
                       (filter (fun j => negb (j =? i)) (seq 0 nm))).
  { apply Forall_forall. intros j Hj. apply filter_In in Hj.
    destruct Hj as (Hj & _). apply in_seq in Hj. lia. }
  destruct cols as [| c1 rest]; [discriminate |]. inversion Hs; subst col.
  apply fold_map2_add_nth in Hk. destruct Hk as (e0 & es & H0 & HF & He).
  rewrite nth_error_map in H0.
  destruct (nth_error c1 k) as [a |] eqn:Ea; [| discriminate].
  inversion H0; subst e0.
  rewrite He, eval_add, eval_const.
  rewrite <- (scaled_columns_sum m d nm t i k rho Hd _ (c1 :: rest) (a :: es)
                Hjs Hcols); [simpl; lra |].
  constructor; assumption.
Qed.

Lemma improved_big_m_constr_inr Pi s xux k tc :
  improved_big_m_constr Pi s xux k = inr tc ->
  exists col e,
    s = Some col /\ nth_error col k = Some e /\
    forall rho,
      sat rho (constr_of tc) <->
      (dot (nth k (Polyhedron.A Pi) []) (map rho xux) <=
       nth k (Polyhedron.b Pi) 0 + eval rho e)%Q.
Proof.
  intros H. unfold improved_big_m_constr in H.
  apply bind_inr in H. destruct H as (l & Hl & H).
  apply bind_inr in H. destruct H as (bk & Hbk & H).
  apply bind_inr in H. destruct H as (e & He & H).
  unfold ret in H. inversion H; subst tc. clear H.
  destruct s as [col |]; [| discriminate].
  apply index_inr in Hbk, He.
  apply dot_vars_inr in Hl. destruct Hl as (_ & Hl).
  exists col, e. repeat split; try assumption.
  - unfold sat, constr_of; simpl. intros Hs.
    rewrite Hl, eval_add, eval_const in Hs.
    now rewrite (nth_error_nth _ _ 0%Q Hbk).
  - unfold sat, constr_of; simpl. intros Hs.
    rewrite Hl, eval_add, eval_const.
    now rewrite (nth_error_nth _ _ 0%Q Hbk) in Hs.
Qed.


(** ** The mode indicators *)

Lemma find_In_some {T} (f : T -> bool) (l : list T) (a : T) :
  In a l -> f a = true -> exists a', find f l = Some a'.
Proof.
  induction l as [| x l IH]; intros Hin Hf; [destruct Hin |].
  simpl. destruct (f x) eqn:E; [eauto |].
  destruct Hin as [-> | Hin]; [congruence | auto].
Qed.

Lemma getVarByName_some prog name v :
  getVarByName prog name = Some v -> In v (vars prog) /\ VarName v = name.
Proof.
  unfold getVarByName. intros H. apply find_some in H.
  destruct H as (Hin & Heq). apply String.eqb_eq in Heq. auto.
Qed.

Lemma getVarByName_exists prog name v :
  In v (vars prog) -> VarName v = name ->
  exists v', getVarByName prog name = Some v'.
Proof.
  intros Hin Hn. unfold getVarByName.
  apply find_In_some with (a := v); [assumption |].
  now apply String.eqb_eq.
Qed.

Lemma Qsum_nonneg_ge (l : list Q) (x : Q) :
  Forall (fun y => (0 <= y)%Q) l -> In x l -> (x <= Qsum l)%Q.
Proof.
  induction l as [| y l IH]; intros Hall Hin; [destruct Hin |].
  inversion Hall as [| ? ? Hy Hl]; subst. simpl.
  assert (Hs : (0 <= Qsum l)%Q).
  { clear -Hl. induction Hl as [| z l Hz _ IHl]; simpl; [lra | lra]. }
  destruct Hin as [-> | Hin]; [lra |].
  specialize (IH Hl Hin). lra.
Qed.

Lemma eval_sum_vars rho (vs : list string) :
  (eval rho (le_sum (map le_var vs)) == Qsum (map rho vs))%Q.
Proof.
  rewrite eval_sum, map_map.
  induction vs as [| v vs IH]; simpl; [reflexivity |].
  rewrite IH, eval_var. reflexivity.
Qed.



(** ** The theorems above on the two-mode example *)

Lemma get_graph_representation_spec_witness :
  wf_system example_S = true /\
  exists P,
    get_graph_representation example_S = inr P /\ length P = nm example_S.
Proof.
  split; [reflexivity |].
  destruct (get_graph_representation_spec example_S eq_refl)
    as (P & HP & Hl & _).
  exists P. split; assumption.
Defined.

Lemma example_P_rows :
  forall Pi, In Pi example_P ->
    0 < length (Polyhedron.A Pi) <= length (Polyhedron.b Pi).
Proof.
  intros Pi [<- | [<- | []]]; simpl; lia.
Defined.

Lemma example_P_bounded :
  forall Pi Pj k, In Pi example_P -> In Pj example_P ->
    k < length (Polyhedron.A Pi) ->
    fm_linear_program (map Qopp (nth k (Polyhedron.A Pi) []))
      (Polyhedron.A Pj) (Polyhedron.b Pj) <> None.
Proof.
  intros Pi Pj k [<- | [<- | []]] [<- | [<- | []]] Hk; simpl in Hk;
    do 6 (destruct k as [| k]; [vm_compute; discriminate |]); lia.
Defined.

Lemma get_big_m_entries_witness :
  exists m mi,
    get_big_m fm_linear_program example_P default_tol = inr (m, mi) /\
    exists opt mijk,
      fm_linear_program (map Qopp [1; 0; 0]%Q)
        [[1; 0; 0]; [-(1); 0; 0]; [0; 1; 0]; [0; -(1); 0];
         [1 # 2; 1; -(1)]; [-(1 # 2); -(1); 1]]%Q
        [1; 0; 1; 1; -(1 # 4); 1 # 4]%Q = Some opt /\
      m_at m 0 1 0 = Some mijk /\
      ((Qabs (- opt - 0) < default_tol)%Q -> mijk = 0%Q) /\
      ((default_tol <= Qabs (- opt - 0))%Q -> mijk = (- opt - 0)%Q).
Proof.
  destruct (get_big_m_entries fm_linear_program example_P default_tol)
    as (Hent & Htotal).
  destruct (Htotal example_P_rows example_P_bounded) as (m & mi & H).
  exists m, mi. split; [exact H |].
  exact (Hent m mi H 0 1 0 _ _ eq_refl eq_refl ltac:(simpl; lia)).
Defined.

Lemma get_big_m_row_max_witness :
  exists m mi,
    get_big_m fm_linear_program example_P default_tol = inr (m, mi) /\
    exists v,
      mi_at mi 0 4 = Some v /\
      (forall j, j < 2 -> exists w, m_at m 0 j 4 = Some w /\ (w <= v)%Q) /\
      (exists j, j < 2 /\ m_at m 0 j 4 = Some v).
Proof.
  destruct (get_big_m fm_linear_program example_P default_tol)
    as [e | [m mi]] eqn:E; [vm_compute in E; discriminate |].
  exists m, mi. split; [reflexivity |].
  exact (get_big_m_row_max _ _ _ _ _ E 0 4 _ eq_refl ltac:(simpl; lia)).
Defined.


(** ** update_mode_sequence *)

Lemma getVarByName_names prog name :
  (exists v, getVarByName prog name = Some v) <->
  In name (map VarName (vars prog)).
Proof.
  split.
  - intros (v & Hv). apply getVarByName_some in Hv. destruct Hv as (Hin & <-).
    now apply in_map.
  - intros Hin. apply in_map_iff in Hin. destruct Hin as (v & Hn & Hin).
    eapply getVarByName_exists; eassumption.
Qed.

Lemma update_var_names f name vs :
  (forall v, VarName (f v) = VarName v) ->
  map VarName (update_var f name vs) = map VarName vs.
Proof.
  intros Hf. induction vs as [| v vs IH]; simpl; [reflexivity |].
  destruct (String.eqb (VarName v) name); simpl.
  - now rewrite Hf.
  - now rewrite IH.
Qed.

Lemma set_attr_inr f prog name :
  (forall v, VarName (f v) = VarName v) ->
  In name (map VarName (vars prog)) ->
  exists prog',
    set_attr f prog name = inr prog' /\
    map VarName (vars prog') = map VarName (vars prog).
Proof.
  intros Hf Hin. apply getVarByName_names in Hin. destruct Hin as (v & Hv).
  unfold set_attr. rewrite Hv. eexists. split; [reflexivity |].
  simpl. now apply update_var_names.
Qed.

Lemma has_indicators_spec self :
  has_indicators self = true <->
  forall t i, t < Controller.N self -> i < nm (Controller.S self) ->
    In (d_name t i) (map VarName (vars (Controller.prog self))).
Proof.
  unfold has_indicators. rewrite forallb_forall. split.
  - intros H t i Ht Hi. apply getVarByName_names.
    specialize (H t ltac:(apply in_seq; lia)).
    rewrite forallb_forall in H. specialize (H i ltac:(apply in_seq; lia)).
    destruct (getVarByName _ _) as [v |]; [eauto | discriminate].
  - intros H t Ht. apply in_seq in Ht. apply forallb_forall. intros i Hi.
    apply in_seq in Hi.
    destruct (proj2 (getVarByName_names _ _) (H t i ltac:(lia) ltac:(lia)))
      as (v & ->).
    reflexivity.
Qed.

Lemma valid_sequence_nth nm p t i :
  valid_sequence nm p = true -> nth_error p t = Some i -> i < nm.
Proof.
  unfold valid_sequence. rewrite forallb_forall. intros H Hn.
  apply Nat.ltb_lt. apply H. eapply nth_error_In; eassumption.
Qed.

Lemma index_lt {T} (l : list T) (t : nat) :
  t < length l -> exists a, index l t = inr a /\ nth_error l t = Some a.
Proof.
  intros Ht. unfold index.
  destruct (nth_error l t) as [a |] eqn:E; [eauto |].
  apply nth_error_None in E. lia.
Qed.

(** A pass over a stage below [N] succeeds and keeps the names. *)
Lemma update_step_inr (N nm : nat) old new prog t :
  valid_sequence nm old = true -> valid_sequence nm new = true ->
  t < N ->
  (forall t i, t < N -> i < nm ->
     In (d_name t i) (map VarName (vars prog))) ->
  exists prog',
    update_step old new prog t = inr prog' /\
    map VarName (vars prog') = map VarName (vars prog).
Proof.
  intros Hold Hnew Ht Hnames. unfold update_step.
  destruct (t <? length new) eqn:En, (t <? length old) eqn:Eo; simpl.
  - apply Nat.ltb_lt in En, Eo.
    destruct (index_lt new t En) as (nt & -> & Hnt).
    destruct (index_lt old t Eo) as (ot & -> & Hot). simpl.
    destruct (nt =? ot); simpl; [eauto |].
    destruct (set_attr_inr (with_LB 0%Q) prog (d_name t ot))
      as (p1 & -> & Hp1); [intros; reflexivity | |].
    { apply Hnames; [assumption |]. exact (valid_sequence_nth _ _ _ _ Hold Hot). }
    simpl.
    destruct (set_attr_inr (with_LB 1%Q) p1 (d_name t nt))
      as (p2 & -> & Hp2); [intros; reflexivity | |].
    { rewrite Hp1. apply Hnames; [assumption |].
      exact (valid_sequence_nth _ _ _ _ Hnew Hnt). }
    exists p2. split; [reflexivity | congruence].
  - apply Nat.ltb_lt in En. apply Nat.ltb_ge in Eo.
    replace (length new <=? t) with false
      by (symmetry; apply Nat.leb_gt; lia).
    replace (length old <=? t) with true
      by (symmetry; apply Nat.leb_le; lia).
    simpl.
    destruct (index_lt new t En) as (nt & -> & Hnt). simpl.
    apply set_attr_inr; [intros; reflexivity |].
    apply Hnames; [assumption |]. exact (valid_sequence_nth _ _ _ _ Hnew Hnt).
  - apply Nat.ltb_ge in En. apply Nat.ltb_lt in Eo.
    replace (length new <=? t) with true
      by (symmetry; apply Nat.leb_le; lia).
    simpl.
    destruct (index_lt old t Eo) as (ot & -> & Hot). simpl.
    apply set_attr_inr; [intros; reflexivity |].
    apply Hnames; [assumption |]. exact (valid_sequence_nth _ _ _ _ Hold Hot).
  - rewrite andb_false_r. simpl. eauto.
Qed.

(** With the sequence already installed a pass changes nothing. *)
Lemma update_step_same p prog t : update_step p p prog t = inr prog.
Proof.
  unfold update_step.
  destruct (t <? length p) eqn:E; simpl.
  - apply Nat.ltb_lt in E. destruct (index_lt p t E) as (a & -> & _).
    simpl. now rewrite Nat.eqb_refl.
  - rewrite andb_false_r. reflexivity.
Qed.

Lemma foldM_const {T U} (f : U -> T -> py U) (l : list T) (u : U) :
  (forall a, f u a = inr u) -> foldM f l u = inr u.
Proof.
  intros H. induction l as [| a l IH]; simpl; [reflexivity |].
  now rewrite H.
Qed.

Lemma foldM_invariant {T U} (f : U -> T -> py U) (I : U -> Prop) (l : list T) :
  (forall u a, In a l -> I u -> exists u', f u a = inr u' /\ I u') ->
  forall u, I u -> exists u', foldM f l u = inr u' /\ I u'.
Proof.
  induction l as [| a l IH]; intros Hstep u Hu; simpl.
  - eauto.
  - destruct (Hstep u a (or_introl eq_refl) Hu) as (u1 & -> & Hu1). simpl.
    apply IH; [| assumption]. intros; apply Hstep; [now right | assumption].
Qed.

(** C7.  On a controller whose program has every indicator, for an
    installed sequence and a new sequence of mode indices,
    [update_mode_sequence] returns, and a second call with the same
    sequence returns the very same controller: no bound (nor anything
    else) of the program changes. *)
Theorem update_mode_sequence_idempotent self p :
  has_indicators self = true ->
  valid_sequence (nm (Controller.S self))
                 (Controller.partial_mode_sequence self) = true ->
  valid_sequence (nm (Controller.S self)) p = true ->
  exists self1,
    update_mode_sequence self p = inr self1 /\
    update_mode_sequence self1 p = inr self1.
Proof.
  intros Hind0 Hold Hnew.
  pose proof (proj1 (has_indicators_spec self) Hind0) as Hind.
  destruct (foldM_invariant
              (update_step (Controller.partial_mode_sequence self) p)
              (fun prog => map VarName (vars prog) =
                           map VarName (vars (Controller.prog self)))
              (seq 0 (Controller.N self))) with (u := Controller.prog self)
    as (prog1 & Hfold & _).
  - intros prog t Ht Hprog. apply in_seq in Ht.
    destruct (update_step_inr (Controller.N self) (nm (Controller.S self))
                (Controller.partial_mode_sequence self) p prog t)
      as (prog' & Hstep & Hn); try assumption; try lia.
    { intros t' i Ht' Hi. rewrite Hprog. now apply Hind. }
    exists prog'. split; [assumption | congruence].
  - reflexivity.
  - eexists. split.
    + unfold update_mode_sequence. rewrite Hfold. reflexivity.
    + unfold update_mode_sequence. simpl.
      rewrite foldM_const by (intros; apply update_step_same).
      reflexivity.
Qed.

(** The constructor establishes the invariant of [update_mode_sequence]. *)
Lemma init_has_indicators lp S N Q_ R_ P_ X_N method self :
  init lp S N Q_ R_ P_ X_N method = inr self ->
  has_indicators self = true /\
  Controller.partial_mode_sequence self = [] /\
  Controller.S self = S /\ Controller.N self = N.
Proof.
  intros H. unfold init in H.
  apply bind_inr in H. destruct H as (prog & Hb & H).
  unfold ret in H. inversion H; subst self. clear H. simpl.
  repeat split. apply has_indicators_spec. simpl. intros t i Ht Hi.
  destruct (build_mpmiqp_inr _ _ _ _ _ _ _ _ _ Hb)
    as (P & m & mi & _ & _ & _ & _ & Hdone).
  destruct (Hdone t Ht) as (Hvars & _).
  destruct (Hvars i Hi) as (v & Hv & <-). now apply in_map.
Qed.

Lemma update_mode_sequence_idempotent_witness :
  has_indicators example_controller = true /\
  valid_sequence 2 [] = true /\ valid_sequence 2 [1; 0] = true /\
  exists self1,
    update_mode_sequence example_controller [1; 0] = inr self1 /\
    update_mode_sequence self1 [1; 0] = inr self1.
Proof.
  split; [vm_compute; reflexivity |].
  split; [reflexivity |]. split; [reflexivity |].
  apply (update_mode_sequence_idempotent example_controller [1; 0]);
    vm_compute; reflexivity.
Defined.

(** ** mode_heuristic *)

Lemma insert_index_perm key i l : Permutation (insert_index key i l) (i :: l).
Proof.
  induction l as [| j l IH]; simpl; [reflexivity |].
  destruct (Qltb (key i) (key j)); [reflexivity |].
  rewrite IH. apply perm_swap.
Qed.

Lemma insert_index_sorted (key : nat -> Q) i l :
  StronglySorted (fun a b => (key a <= key b)%Q) l ->
  StronglySorted (fun a b => (key a <= key b)%Q) (insert_index key i l).
Proof.
  induction l as [| j l IH]; intros Hs; simpl.
  - constructor; constructor.
  - inversion Hs as [| ? ? Hl Hj]; subst.
    destruct (Qltb (key i) (key j)) eqn:E.
    + apply Qltb_lt in E. constructor; [assumption |].
      constructor; [lra |].
      eapply Forall_impl; [| exact Hj]. intros a Ha; simpl in Ha. lra.
    + apply Qltb_ge in E. constructor; [now apply IH |].
      apply (Permutation_Forall (Permutation_sym (insert_index_perm key i l))).
      constructor; assumption.
Qed.

Lemma argsort_fold_perm key l acc :
  Permutation (fold_left (fun acc i => insert_index key i acc) l acc)
              (acc ++ l).
Proof.
  revert acc; induction l as [| i l IH]; intros acc; simpl.
  - now rewrite app_nil_r.
  - rewrite IH, insert_index_perm. apply Permutation_middle.
Qed.

Lemma argsort_fold_sorted (key : nat -> Q) l acc :
  StronglySorted (fun a b => (key a <= key b)%Q) acc ->
  StronglySorted (fun a b => (key a <= key b)%Q)
    (fold_left (fun acc i => insert_index key i acc) l acc).
Proof.
  revert acc; induction l as [| i l IH]; intros acc Hs; simpl;
    [assumption |].
  apply IH. now apply insert_index_sorted.
Qed.

Lemma argsort_perm a : Permutation (argsort a) (seq 0 (length a)).
Proof. unfold argsort. apply (argsort_fold_perm _ _ []). Qed.

Lemma argsort_sorted a :
  StronglySorted (fun i j => (nth i a 0 <= nth j a 0)%Q) (argsort a).
Proof.
  unfold argsort.
  apply (argsort_fold_sorted (fun j => nth j a 0%Q)). constructor.
Qed.

Lemma StronglySorted_app {T} (R : T -> T -> Prop) l1 l2 :
  StronglySorted R l1 -> StronglySorted R l2 ->
  (forall a b, In a l1 -> In b l2 -> R a b) ->
  StronglySorted R (l1 ++ l2).
Proof.
  induction l1 as [| x l1 IH]; intros H1 H2 H12; simpl; [assumption |].
  inversion H1 as [| ? ? Hl Hx]; subst. constructor.
  - apply IH; [assumption | assumption |].
    intros; apply H12; [now right | assumption].
  - apply Forall_app. split; [assumption |].
    apply Forall_forall. intros b Hb. apply H12; [now left | assumption].
Qed.

Lemma StronglySorted_rev {T} (R : T -> T -> Prop) l :
  StronglySorted R l -> StronglySorted (fun a b => R b a) (rev l).
Proof.
  induction 1 as [| x l Hl IH Hx]; simpl; [constructor |].
  apply StronglySorted_app; [assumption | constructor; constructor |].
  intros a b Ha [<- | []]. apply in_rev in Ha.
  rewrite Forall_forall in Hx. now apply Hx.
Qed.

Lemma list_index_pop x l :
  In x l ->
  exists l1 l2,
    l = l1 ++ x :: l2 /\
    list_index x l = inr (length l1) /\
    pop l (length l1) = inr (x, l1 ++ l2).
Proof.
  induction l as [| y l IH]; intros Hin; [destruct Hin |].
  simpl. destruct (y =? x) eqn:E.
  - apply Nat.eqb_eq in E; subst y. exists [], l. auto.
  - apply Nat.eqb_neq in E. destruct Hin as [-> | Hin]; [congruence |].
    destruct (IH Hin) as (l1 & l2 & -> & Hi & Hp).
    exists (y :: l1), l2. simpl. rewrite Hi. simpl. rewrite Hp. auto.
Qed.

(** The heuristic, once and for all: the score is the row of the first
    free stage; the order is the descending arrangement [base] of all the
    modes or, below a parent, [base] with the parent moved to the front. *)
Lemma mode_heuristic_inr self d (nm : nat) :
  let p := Controller.partial_mode_sequence self in
  length p < length d ->
  Forall (fun row => length row = nm) d ->
  valid_sequence nm p = true ->
  exists order score base,
    mode_heuristic self d = inr (order, score) /\
    nth_error d (length p) = Some score /\
    Permutation base (seq 0 nm) /\
    StronglySorted (fun i j => (nth j score 0 <= nth i score 0)%Q) base /\
    (p = [] -> order = base) /\
    (forall parent, nth_error p (length p - 1) = Some parent ->
       exists l1 l2,
         base = l1 ++ parent :: l2 /\ order = parent :: l1 ++ l2).
Proof.
  intros p Hlen Hrows Hvalid. unfold mode_heuristic. fold p.
  destruct (index_lt d (length p) Hlen) as (score & -> & Hscore). simpl.
  assert (Hn : length score = nm).
  { rewrite Forall_forall in Hrows. apply Hrows.
    eapply nth_error_In; eassumption. }
  assert (Hperm : Permutation (rev (argsort score)) (seq 0 nm)).
  { rewrite <- Hn, <- Permutation_rev. apply argsort_perm. }
  pose proof (StronglySorted_rev _ _ (argsort_sorted score)) as Hsorted.
  destruct (0 <? length p) eqn:E.
  - apply Nat.ltb_lt in E.
    destruct (index_lt p (length p - 1) ltac:(lia)) as (parent & -> & Hpar).
    simpl.
    assert (Hin : In parent (rev (argsort score))).
    { apply (Permutation_in _ (Permutation_sym Hperm)). apply in_seq.
      pose proof (valid_sequence_nth _ _ _ _ Hvalid Hpar). lia. }
    destruct (list_index_pop _ _ Hin) as (l1 & l2 & Hbase & -> & Hpop).
    simpl. rewrite Hpop. simpl.
    exists (parent :: l1 ++ l2), score, (rev (argsort score)).
    repeat split; try assumption.
    + intros Hp. apply (f_equal (@length nat)) in Hp. simpl in Hp. lia.
    + intros parent' Hp'. rewrite Hpar in Hp'. inversion Hp'; subst parent'.
      exists l1, l2. auto.
  - apply Nat.ltb_ge in E. simpl.
    exists (rev (argsort score)), score, (rev (argsort score)).
    repeat split; try assumption.
    intros parent Hp.
    assert (length p - 1 < length p) by (apply nth_error_Some; congruence).
    lia.
Qed.

(** C8.  For an indicator matrix with one row per stage and one entry per
    mode, and an installed sequence of mode indices shorter than the
    horizon, [mode_heuristic] returns as score the row of stage
    [len(partial)] and as order the modes in descending order of score,
    the last entry of the sequence moved to the front when there is one. *)
Theorem mode_heuristic_order self d :
  let p := Controller.partial_mode_sequence self in
  let nm := nm (Controller.S self) in
  length d = Controller.N self ->
  Forall (fun row => length row = nm) d ->
  length p < Controller.N self ->
  valid_sequence nm p = true ->
  exists order score base,
    mode_heuristic self d = inr (order, score) /\
    nth_error d (length p) = Some score /\
    Permutation base (seq 0 nm) /\
    StronglySorted (fun i j => (nth j score 0 <= nth i score 0)%Q) base /\
    (p = [] -> order = base) /\
    (forall parent, nth_error p (length p - 1) = Some parent ->
       exists l1 l2,
         base = l1 ++ parent :: l2 /\ order = parent :: l1 ++ l2).
Proof.
  intros p nm Hd Hrows Hlen Hvalid.
  apply mode_heuristic_inr; [now rewrite Hd | assumption | assumption].
Qed.

(** C10.  Under the same conditions the order returned by
    [mode_heuristic] holds every mode index exactly once, with and without
    the promotion of the parent. *)
Theorem mode_heuristic_permutation self d :
  let p := Controller.partial_mode_sequence self in
  let nm := nm (Controller.S self) in
  length d = Controller.N self ->
  Forall (fun row => length row = nm) d ->
  length p < Controller.N self ->
  valid_sequence nm p = true ->
  exists order score,
    mode_heuristic self d = inr (order, score) /\
    Permutation order (seq 0 nm) /\ NoDup order.
Proof.
  intros p nm Hd Hrows Hlen Hvalid.
  destruct (mode_heuristic_inr self d nm) as
    (order & score & base & H & _ & Hperm & _ & Hnil & Hcons);
    [now rewrite Hd | assumption | assumption |].
  exists order, score. split; [assumption |].
  assert (Hp : Permutation order (seq 0 nm)).
  { fold p in Hnil, Hcons.
    destruct (nth_error p (length p - 1)) as [parent |] eqn:E.
    - destruct (Hcons parent eq_refl) as (l1 & l2 & Hb & ->).
      rewrite <- Hperm, Hb. apply Permutation_middle.
    - apply nth_error_None in E.
      destruct p as [| a p'] eqn:Ep; [| simpl in E; lia].
      now rewrite Hnil. }
  split; [assumption |].
  apply (Permutation_NoDup (Permutation_sym Hp)). apply seq_NoDup.
Qed.

Lemma mode_heuristic_order_witness :
  length example_d = Controller.N example_controller_1 /\
  Forall (fun row => length row = 2) example_d /\
  length (Controller.partial_mode_sequence example_controller_1) < 2 /\
  valid_sequence 2 (Controller.partial_mode_sequence example_controller_1)
    = true /\
  exists order score base,
    mode_heuristic example_controller_1 example_d = inr (order, score) /\
    nth_error example_d 1 = Some score /\
    Permutation base [0; 1] /\
    StronglySorted (fun i j => (nth j score 0 <= nth i score 0)%Q) base /\
    (Controller.partial_mode_sequence example_controller_1 = [] ->
     order = base) /\
    (forall parent, Some 1 = Some parent ->
       exists l1 l2, base = l1 ++ parent :: l2 /\ order = parent :: l1 ++ l2).
Proof.
  split; [reflexivity |].
  split; [repeat constructor |].
  split; [vm_compute; lia |].
  split; [reflexivity |].
  apply (mode_heuristic_order example_controller_1 example_d).
  - reflexivity.
  - repeat constructor.
  - vm_compute; lia.
  - reflexivity.
Defined.

Lemma mode_heuristic_permutation_witness :
  length example_d = Controller.N example_controller /\
  Forall (fun row => length row = 2) example_d /\
  length (Controller.partial_mode_sequence example_controller) < 2 /\
  valid_sequence 2 (Controller.partial_mode_sequence example_controller)
    = true /\
  exists order score,
    mode_heuristic example_controller example_d = inr (order, score) /\
    Permutation order [0; 1] /\ NoDup order.
Proof.
  split; [reflexivity |].
  split; [repeat constructor |].
  split; [vm_compute; lia |].
  split; [reflexivity |].
  apply (mode_heuristic_permutation example_controller example_d).
  - reflexivity.
  - repeat constructor.
  - vm_compute; lia.
  - reflexivity.
Defined.

(** ** solve_relaxation *)

Lemma read_gurobi_status_inr st s :
  read_gurobi_status st = inr s ->
  (1 <= st <= 15)%Z /\
  (String.eqb s "cutoff" = true <-> st = 6%Z) /\
  (String.eqb s "optimal" = true <-> st = 2%Z).
Proof.
  unfold read_gurobi_status. intros H.
  destruct st as [| q | q]; try discriminate.
  repeat match goal with
         | q : positive |- _ => destruct q; try discriminate
         end;
    inversion H; subst s; (split; [lia |]);
    split; split; intros E; try discriminate; try reflexivity.
Qed.

Lemma mapM_map {T U} (f : T -> py U) (g : T -> U) (l : list T) ys :
  (forall a y, In a l -> f a = inr y -> y = g a) ->
  mapM f l = inr ys -> ys = map g l.
Proof.
  revert ys; induction l as [| a l IH]; intros ys Hf H; simpl in H.
  - inversion H. reflexivity.
  - apply bind_inr in H. destruct H as (y & Hy & H).
    apply bind_inr in H. destruct H as (ys' & Hys & H).
    inversion H; subst ys. simpl. f_equal.
    + apply Hf; [now left | assumption].
    + apply IH; [| assumption]. intros; apply Hf; [now right | assumption].
Qed.

Lemma var_x_inr prog sol name v : var_x prog sol name = inr v -> v = X sol name.
Proof.
  unfold var_x. destruct (getVarByName prog name); intros H; inversion H.
  reflexivity.
Qed.

Lemma update_mode_sequence_inr self p self' :
  update_mode_sequence self p = inr self' ->
  Controller.partial_mode_sequence self' = p /\
  Controller.S self' = Controller.S self /\
  Controller.N self' = Controller.N self.
Proof.
  unfold update_mode_sequence. intros H.
  apply bind_inr in H. destruct H as (prog & _ & H).
  inversion H; subst self'. simpl. auto.
Qed.

(** The shape of a successful call. *)
Lemma solve_relaxation_inr optimize self p cutoff_value warm_start self' r :
  solve_relaxation optimize self p cutoff_value warm_start = inr (self', r) ->
  let sol := optimize (Controller.prog self') in
  let S := Controller.S self' in
  let N := Controller.N self' in
  Controller.partial_mode_sequence self' = p /\
  S = Controller.S self /\ N = Controller.N self /\
  Result.solve_time r = Runtime sol /\
  exists st,
    read_gurobi_status (status sol) = inr st /\
    Result.cutoff r = String.eqb st "cutoff" /\
    Result.feasible r =
      (if String.eqb st "cutoff" then None
       else Some (String.eqb st "optimal")) /\
    (String.eqb st "cutoff" || negb (String.eqb st "optimal") = true ->
     no_solution r) /\
    (String.eqb st "cutoff" || negb (String.eqb st "optimal") = false ->
     has_solution r /\
     Result.cost r = Some (objVal sol) /\
     exists ms intf,
       Result.mode_sequence r = Some ms /\
       Result.integer_feasible r = Some intf /\
       mode_sequence_of (map (indicator_row sol (nm S)) (seq 0 N)) = inr ms /\
       integer_feasible_of (map (indicator_row sol (nm S)) (seq 0 N)) =
         inr intf).
Proof.
  intros H sol S N. unfold solve_relaxation in H.
  apply bind_inr in H. destruct H as (prog0 & _ & H).
  apply bind_inr in H. destruct H as (self1 & Hupd & H).
  apply update_mode_sequence_inr in Hupd. simpl in Hupd.
  destruct Hupd as (Hp & HS & HN).
  apply bind_inr in H. destruct H as (st & Hst & H).
  assert (Hself : self' = self1).
  { destruct (String.eqb st "cutoff"); simpl in H.
    - inversion H; reflexivity.
    - destruct (String.eqb st "optimal"); simpl in H.
      + repeat (apply bind_inr in H; destruct H as (? & _ & H)).
        destruct x4. inversion H; reflexivity.
      + inversion H; reflexivity. }
  subst self1. subst sol S N.
  repeat (split; [assumption |]).
  assert (Hcases :
    Result.solve_time r = Runtime (optimize (Controller.prog self')) /\
    Result.cutoff r = String.eqb st "cutoff" /\
    Result.feasible r =
      (if String.eqb st "cutoff" then None
       else Some (String.eqb st "optimal"))).
  { destruct (String.eqb st "cutoff"); simpl in H.
    - inversion H; subst r. simpl. auto.
    - destruct (String.eqb st "optimal"); simpl in H.
      + repeat (apply bind_inr in H; destruct H as (? & _ & H)).
        destruct x4. inversion H; subst r. simpl. auto.
      + inversion H; subst r. simpl. auto. }
  destruct Hcases as (Htime & Hcut & Hfeas).
  split; [assumption |].
  exists st. repeat (split; [assumption |]). split.
  - intros E.
    destruct (String.eqb st "cutoff"); simpl in H.
    + inversion H; subst r. unfold no_solution; simpl. repeat split.
    + destruct (String.eqb st "optimal"); simpl in E; [discriminate |].
      simpl in H. inversion H; subst r. unfold no_solution; simpl.
      repeat split.
  - intros E.
    destruct (String.eqb st "cutoff"); [discriminate |].
    destruct (String.eqb st "optimal"); [| discriminate].
    simpl in H.
    apply bind_inr in H. destruct H as (x & _ & H).
    apply bind_inr in H. destruct H as (u & _ & H).
    apply bind_inr in H. destruct H as (d & Hd & H).
    apply bind_inr in H. destruct H as (ms & Hms & H).
    apply bind_inr in H. destruct H as (intf & Hintf & H).
    apply bind_inr in H. destruct H as ([order score] & _ & H).
    inversion H; subst r. clear H.
    assert (Ed : d = map (indicator_row (optimize (Controller.prog self'))
                            (nm (Controller.S self')))
                         (seq 0 (Controller.N self'))).
    { eapply mapM_map; [| exact Hd]. intros t row _ Hrow.
      unfold indicator_row. eapply mapM_map; [| exact Hrow].
      intros i v _ Hv. now apply var_x_inr in Hv. }
    subst d.
    split; [unfold has_solution; simpl; repeat split; discriminate |].
    split; [reflexivity |].
    exists ms, intf. simpl. auto.
Qed.



(** ** Integer feasibility *)

Lemma isclose_one v :
  isclose v 1 = true <-> (1 - (atol + rtol) <= v <= 1 + (atol + rtol))%Q.
Proof.
  unfold isclose. rewrite Qle_bool_iff.
  change (Qabs 1) with 1%Q.
  rewrite Qabs_Qle_condition. unfold atol, rtol. split; intros H; lra.
Qed.

Lemma isclose_zero v :
  isclose v 0 = true <-> (- atol <= v <= atol)%Q.
Proof.
  unfold isclose. rewrite Qle_bool_iff.
  change (Qabs 0) with 0%Q.
  rewrite Qabs_Qle_condition. unfold atol, rtol. split; intros H; lra.
Qed.

Lemma zero_below_one v w :
  isclose v 0 = true -> isclose w 1 = true -> (v < w)%Q.
Proof.
  rewrite isclose_zero, isclose_one. unfold atol, rtol. intros H1 H2. lra.
Qed.

Lemma insert_sorted_perm a l : Permutation (insert_sorted a l) (a :: l).
Proof.
  induction l as [| y l IH]; simpl; [reflexivity |].
  destruct (Qle_bool a y); [reflexivity |].
  rewrite IH. apply perm_swap.
Qed.

Lemma sorted_perm l : Permutation (sorted l) l.
Proof.
  induction l as [| a l IH]; simpl; [reflexivity |].
  rewrite insert_sorted_perm. now constructor.
Qed.

Lemma insert_sorted_sorted a l :
  StronglySorted Qle l -> StronglySorted Qle (insert_sorted a l).
Proof.
  induction l as [| y l IH]; intros Hs; simpl.
  - constructor; constructor.
  - inversion Hs as [| ? ? Hl Hy]; subst.
    destruct (Qle_bool a y) eqn:E.
    + apply Qle_bool_iff in E. constructor; [assumption |].
      constructor; [assumption |].
      eapply Forall_impl; [| exact Hy]. intros z Hz; simpl in Hz. lra.
    + assert (Hya : (y <= a)%Q).
      { apply Qlt_le_weak, Qltb_lt. unfold Qltb. now rewrite E. }
      constructor; [now apply IH |].
      apply (Permutation_Forall (Permutation_sym (insert_sorted_perm a l))).
      constructor; assumption.
Qed.

Lemma sorted_sorted l : StronglySorted Qle (sorted l).
Proof.
  induction l as [| a l IH]; simpl; [constructor |].
  now apply insert_sorted_sorted.
Qed.

Lemma StronglySorted_last (s : list Q) (z y : Q) :
  StronglySorted Qle (s ++ [z]) -> In y s -> (y <= z)%Q.
Proof.
  induction s as [| a s IH]; intros Hs Hin; [destruct Hin |].
  simpl in Hs. inversion Hs as [| ? ? Hs' Ha]; subst.
  destruct Hin as [-> | Hin]; [| now apply IH].
  rewrite Forall_forall in Ha. apply Ha. apply in_or_app. right. now left.
Qed.

Lemma forallb_combine_snoc (s : list Q) (z : Q) (k : nat) :
  length s = k ->
  forallb (fun ab => isclose (fst ab) (snd ab))
          (combine (s ++ [z]) (repeat 0%Q k ++ [1%Q])) = true <->
  Forall (fun v => isclose v 0 = true) s /\ isclose z 1 = true.
Proof.
  revert k; induction s as [| a s IH]; intros k Hk; simpl in Hk; subst k;
    simpl.
  - rewrite andb_true_r. split; [intros H; split; [constructor | exact H] |].
    intros [_ H]; exact H.
  - rewrite andb_true_iff, (IH (length s) eq_refl). split.
    + intros (Ha & Hs & Hz). split; [constructor |]; assumption.
    + intros (Hs & Hz). inversion Hs; subst. auto.
Qed.

Lemma nth_middle_other {T} (la lb : list T) (a d : T) (j : nat) :
  j < length (la ++ a :: lb) -> j <> length la ->
  In (nth j (la ++ a :: lb) d) (la ++ lb).
Proof.
  intros Hj Hne. rewrite length_app in Hj; simpl in Hj.
  apply in_or_app.
  destruct (Nat.lt_ge_cases j (length la)) as [H | H].
  - left. rewrite app_nth1 by assumption. now apply nth_In.
  - right. rewrite app_nth2 by assumption.
    destruct (j - length la) as [| j'] eqn:E; [lia |].
    simpl. apply nth_In. lia.
Qed.

Lemma In_middle_other {T} (la lb : list T) (a d y : T) :
  In y (la ++ lb) ->
  exists j, j < length (la ++ a :: lb) /\ j <> length la /\
            nth j (la ++ a :: lb) d = y.
Proof.
  intros Hin. rewrite length_app; simpl. apply in_app_or in Hin.
  destruct Hin as [Hin | Hin]; apply In_nth with (d := d) in Hin;
    destruct Hin as (j & Hj & Hy).
  - exists j. repeat split; [lia | lia |]. now rewrite app_nth1.
  - exists (length la + S j). repeat split; [lia | lia |].
    rewrite app_nth2 by lia.
    replace (length la + S j - length la) with (S j) by lia. exact Hy.
Qed.

(** One stage: the sorted indicators are close to [0, .., 0, 1] exactly
    when one indicator is close to 1 and the others are close to 0. *)
Lemma row_integer_feasible (dt : list Q) :
  dt <> [] ->
  exists b,
    allclose (sorted dt) (repeat 0%Q (length dt - 1) ++ [1%Q]) = inr b /\
    (b = true <->
     exists i, i < length dt /\ isclose (nth i dt 0%Q) 1 = true /\
       forall j, j < length dt -> j <> i -> isclose (nth j dt 0%Q) 0 = true).
Proof.
  intros Hne.
  pose proof (sorted_perm dt) as Hperm.
  pose proof (sorted_sorted dt) as Hsorted.
  pose proof (Permutation_length Hperm) as Hlen.
  assert (Hpos : 0 < length dt) by (destruct dt; [congruence | simpl; lia]).
  destruct (exists_last (l := sorted dt)) as (s & z & Hs).
  { intros E. rewrite E in Hlen. simpl in Hlen. lia. }
  assert (Hls : length s = length dt - 1).
  { rewrite Hs, length_app in Hlen. simpl in Hlen. lia. }
  unfold allclose.
  replace (length (sorted dt) =?
           length (repeat 0%Q (length dt - 1) ++ [1%Q])) with true
    by (symmetry; apply Nat.eqb_eq;
        rewrite Hlen, length_app, repeat_length; simpl; lia).
  eexists. split; [reflexivity |].
  rewrite Hs in *. rewrite (forallb_combine_snoc s z _ Hls). split.
  - intros (H0 & H1).
    assert (Hz : In z dt).
    { apply (Permutation_in _ Hperm). apply in_or_app. right. now left. }
    apply In_nth with (d := 0%Q) in Hz. destruct Hz as (i & Hi & Hz).
    destruct (nth_split dt 0%Q Hi) as (la & lb & Hdt & Hla).
    rewrite Hz in Hdt.
    exists i. split; [assumption |]. split; [now rewrite Hz |].
    assert (Hp : Permutation s (la ++ lb)).
    { rewrite Hdt in Hperm. rewrite <- (app_nil_r s).
      eapply Permutation_app_inv. exact Hperm. }
    pose proof (Permutation_Forall Hp H0) as Hall.
    rewrite Forall_forall in Hall.
    intros j Hj Hne'. apply Hall. rewrite Hdt in *.
    apply nth_middle_other; [assumption | lia].
  - intros (i & Hi & H1 & H0).
    destruct (nth_split dt 0%Q Hi) as (la & lb & Hdt & Hla).
    set (x := nth i dt 0%Q) in *.
    assert (Hrest : Forall (fun v => isclose v 0 = true) (la ++ lb)).
    { apply Forall_forall. intros y Hy.
      destruct (In_middle_other la lb x 0%Q y Hy) as (j & Hj & Hne' & Hnth).
      rewrite <- Hdt in Hj, Hnth. rewrite <- Hnth. apply H0; [assumption | lia]. }
    assert (Hzx : z = x).
    { assert (Hz : In z dt).
      { apply (Permutation_in _ Hperm). apply in_or_app. right. now left. }
      rewrite Hdt in Hz. apply in_app_or in Hz.
      assert (Hcase : z = x \/ In z (la ++ lb)).
      { destruct Hz as [Hz | [Hz | Hz]]; [right | left | right];
          try (apply in_or_app; auto); now symmetry. }
      destruct Hcase as [E | Hz']; [assumption | exfalso].
      rewrite Forall_forall in Hrest. pose proof (Hrest z Hz') as Hz0.
      assert (Hx : In x (s ++ [z])).
      { apply (Permutation_in _ (Permutation_sym Hperm)).
        rewrite Hdt. apply in_or_app. right. now left. }
      pose proof (zero_below_one _ _ Hz0 H1) as Hlt.
      apply in_app_or in Hx. destruct Hx as [Hx | [Hx | []]].
      - pose proof (StronglySorted_last _ _ _ Hsorted Hx). lra.
      - rewrite Hx in Hlt. lra. }
    subst z. split; [| assumption].
    assert (Hp : Permutation s (la ++ lb)).
    { rewrite Hdt in Hperm. rewrite <- (app_nil_r s).
      eapply Permutation_app_inv. exact Hperm. }
    apply (Permutation_Forall (Permutation_sym Hp)). assumption.
Qed.
Lemma fold_max_spec (l : list Q) (acc : Q) :
  let m := fold_left (fun m y => if Qltb m y then y else m) l acc in
  (m = acc \/ In m l) /\ (acc <= m)%Q /\ forall y, In y l -> (y <= m)%Q.
Proof.
  revert acc; induction l as [| a l IH]; intros acc; simpl.
  - split; [now left |]. split; [lra | intros y []].
  - destruct (IH (if Qltb acc a then a else acc)) as (Hin & Hge & Hall).
    destruct (Qltb acc a) eqn:E.
    + apply Qltb_lt in E. split; [| split].
      * destruct Hin as [-> | Hin]; right; [now left | now right].
      * lra.
      * intros y [<- | Hy]; [assumption | now apply Hall].
    + apply Qltb_ge in E. split; [| split].
      * destruct Hin as [-> | Hin]; [now left | right; now right].
      * assumption.
      * intros y [<- | Hy]; [lra | now apply Hall].
Qed.

Lemma list_max_spec (l : list Q) :
  l <> [] ->
  exists m, list_max l = inr m /\ In m l /\ forall y, In y l -> (y <= m)%Q.
Proof.
  destruct l as [| a l]; [congruence |]. intros _. simpl.
  destruct (fold_max_spec l a) as (Hin & Hge & Hall).
  eexists. split; [reflexivity |]. split.
  - destruct Hin as [-> | Hin]; [now left | now right].
  - intros y [<- | Hy]; [assumption | now apply Hall].
Qed.








(** ** When the construction succeeds *)

Lemma graph_poly_shape S P i Pi :
  wf_system S = true ->
  get_graph_representation S = inr P ->
  nth_error P i = Some Pi ->
  length P = nm S /\
  length (Polyhedron.b Pi) = length (Polyhedron.A Pi) /\
  forall k, k < length (Polyhedron.A Pi) ->
    length (nth k (Polyhedron.A Pi) []) = nx S + nu S + nx S.
Proof.
  intros Hwf HP HPi.
  pose proof (mapM_length _ _ _ HP) as HlP. rewrite length_seq in HlP.
  split; [assumption |].
  assert (Hi : i < nm S) by (rewrite <- HlP; apply nth_error_Some; congruence).
  destruct (wf_system_lengths _ Hwf) as (HlD & HlS).
  destruct (nth_error (domains S) i) as [Di |] eqn:ED;
    [| apply nth_error_None in ED; lia].
  destruct (nth_error (affine_systems S) i) as [Si |] eqn:ES;
    [| apply nth_error_None in ES; lia].
  destruct (graph_of_mode_rows _ _ _ _ Hwf ED ES)
    as (Pi' & HPi' & Hl & Hb & H1 & H2 & H3).
  destruct (mapM_nth_error _ _ _ i _ HP (nth_error_seq 0 _ _ Hi))
    as (Pi'' & HPi'' & Hg).
  simpl in Hg. rewrite HPi in HPi''. inversion HPi''; subst Pi''.
  rewrite Hg in HPi'. inversion HPi'; subst Pi'. clear HPi' HPi''.
  pose proof (wf_system_domain _ _ _ Hwf ED) as HwD.
  pose proof (wf_system_affine _ _ _ Hwf ES) as HwS.
  unfold wf_domain in HwD. unfold wf_affine in HwS.
  rewrite !andb_true_iff, Nat.eqb_eq in HwS. destruct HwS as ((HA & HB) & Hc).
  destruct (has_shape_spec _ _ _ HwD) as (HDl & _).
  split.
  - rewrite Hb, Hl, !length_app, length_map. lia.
  - intros k Hk. rewrite Hl in Hk.
    set (nd := length (Polyhedron.A Di)) in *.
    destruct (Nat.lt_ge_cases k nd) as [C1 | C1].
    + rewrite H1 by assumption. rewrite length_app, repeat_length.
      rewrite (has_shape_nth _ _ _ k HwD) by lia. lia.
    + destruct (Nat.lt_ge_cases (k - nd) (nx S)) as [C2 | C2].
      * replace k with (nd + (k - nd)) by lia. rewrite H2 by assumption.
        rewrite !length_app, length_map, unit_row_length.
        rewrite (has_shape_nth _ _ _ _ HA C2), (has_shape_nth _ _ _ _ HB C2).
        lia.
      * assert (C3 : k - nd - nx S < nx S) by lia.
        replace k with (nd + nx S + (k - nd - nx S)) by lia.
        rewrite H3 by assumption.
        rewrite !length_app, !length_map, unit_row_length.
        rewrite (has_shape_nth _ _ _ _ HA C3), (has_shape_nth _ _ _ _ HB C3).
        lia.
Qed.

(** The shape of the tables of [get_big_m]. *)
Lemma get_big_m_shape lp P tol m mi i Pi :
  get_big_m lp P tol = inr (m, mi) ->
  nth_error P i = Some Pi ->
  (exists m_i,
     nth_error m i = Some m_i /\ length m_i = length P /\
     forall j mij, nth_error m_i j = Some mij ->
       length mij = length (Polyhedron.A Pi)) /\
  (exists mi_i,
     nth_error mi i = Some mi_i /\
     forall k, k < length (Polyhedron.A Pi) ->
       exists v, nth_error mi_i k = Some v).
Proof.
  intros H Hi. apply get_big_m_inr in H. destruct H as (H1 & H2).
  destruct (Forall2_nth_error_l _ _ _ _ _ H1 Hi) as (m_i & Hmi & HF).
  destruct (Forall2_nth_error_l _ _ _ _ _ H2 Hmi) as (col & Hcol & Hred).
  assert (Hcols : forall j mij, nth_error m_i j = Some mij ->
            length mij = length (Polyhedron.A Pi)).
  { intros j mij Hj.
    destruct (Forall2_nth_error_r _ _ _ _ _ HF Hj) as (Pj & _ & _ & HF').
    apply Forall2_length in HF'. now rewrite length_seq in HF'. }
  split.
  - exists m_i. split; [assumption |]. split; [| assumption].
    symmetry. eapply Forall2_length; eassumption.
  - exists col. split; [assumption |]. intros k Hk.
    destruct m_i as [| c0 cs]; [discriminate |]. simpl in Hred.
    inversion Hred; subst col.
    destruct (fold_maximum_row cs c0 k) as (v & Hv & _); [| eauto].
    intros c Hin. apply In_nth_error in Hin. destruct Hin as (j & Hj).
    pose proof (Hcols j c Hj) as Hlc.
    destruct (nth_error c k) as [v |] eqn:E; [eauto |].
    apply nth_error_None in E. lia.
Qed.
Lemma dot_vars_total a vs :
  length a = length vs -> exists e, dot_vars a vs = inr e.
Proof.
  intros H. unfold dot_vars. apply Nat.eqb_eq in H. rewrite H. eauto.
Qed.

Lemma nth_error_lt {T} (l : list T) k :
  k < length l -> exists a, nth_error l k = Some a.
Proof.
  intros H. destruct (nth_error l k) as [a |] eqn:E; [eauto |].
  apply nth_error_None in E. lia.
Qed.

Lemma map2_length {T U V} (f : T -> U -> V) l1 l2 :
  length l1 = length l2 -> length (map2 f l1 l2) = length l1.
Proof.
  revert l2; induction l1 as [| a l1 IH]; intros [| b l2] H; simpl in *;
    try discriminate; [reflexivity |].
  f_equal. apply IH. lia.
Qed.

Lemma fold_left_map2_length {T} (f : T -> T -> T) rest c0 :
  (forall c, In c rest -> length c = length c0) ->
  length (fold_left (map2 f) rest c0) = length c0.
Proof.
  revert c0; induction rest as [| c1 rest IH]; intros c0 H; simpl;
    [reflexivity |].
  assert (H1 : length c1 = length c0) by (apply H; now left).
  rewrite IH.
  - apply map2_length. lia.
  - intros c Hc. rewrite map2_length by lia. apply H. now right.
Qed.

Lemma big_m_constr_total Pi mi xux d i k :
  length (nth k (Polyhedron.A Pi) []) = length xux ->
  k < length (Polyhedron.b Pi) ->
  (exists mi_i, nth_error mi i = Some mi_i /\ k < length mi_i) ->
  i < length d ->
  exists tc, big_m_constr Pi mi xux d i k = inr tc.
Proof.
  intros Hw Hb (mi_i & Hmi & Hk) Hd. unfold big_m_constr.
  destruct (dot_vars_total _ _ Hw) as (l & ->). simpl.
  destruct (index_lt _ _ Hb) as (bk & -> & _). simpl.
  apply index_inr in Hmi. rewrite Hmi. simpl.
  destruct (index_lt _ _ Hk) as (mik & -> & _). simpl.
  destruct (index_lt _ _ Hd) as (di & -> & _). simpl. eauto.
Qed.

Lemma sum_mi_total m (d : list string) nm i rows :
  1 < nm -> i < nm -> length d = nm ->
  (exists m_i,
     nth_error m i = Some m_i /\ length m_i = nm /\
     forall j mij, nth_error m_i j = Some mij -> length mij = rows) ->
  exists col,
    sum_mi m d nm i = inr (Some col) /\ length col = rows.
Proof.
  intros Hnm Hi Hd (m_i & Hmi & Hlen & Hcols). unfold sum_mi.
  set (js := filter (fun j => negb (j =? i)) (seq 0 nm)).
  assert (Hjs : forall j, In j js -> j < nm).
  { intros j Hj. apply filter_In in Hj. destruct Hj as (Hj & _).
    apply in_seq in Hj. lia. }
  assert (Hne : js <> []).
  { assert (Hin : In (if i =? 0 then 1 else 0) js).
    { apply filter_In. split.
      - apply in_seq. destruct (i =? 0); lia.
      - destruct (i =? 0) eqn:E.
        + apply Nat.eqb_eq in E. subst i. reflexivity.
        + apply Nat.eqb_neq in E. apply negb_true_iff.
          apply Nat.eqb_neq. lia. }
    intros E. rewrite E in Hin. destruct Hin. }
  set (f := fun j => m_i0 <- index m i ;; mij <- index m_i0 j ;;
                     dj <- index d j ;;
                     ret (map (fun c => le_scale c (le_var dj)) mij)).
  assert (Hf : forall j, In j js ->
            exists col, f j = inr col /\ length col = rows).
  { intros j Hj. specialize (Hjs j Hj). unfold f.
    apply index_inr in Hmi. rewrite Hmi. simpl.
    destruct (index_lt m_i j ltac:(lia)) as (mij & -> & Hmij). simpl.
    destruct (index_lt d j ltac:(lia)) as (dj & -> & _). simpl.
    eexists. split; [reflexivity |]. rewrite length_map.
    eapply Hcols; eassumption. }
  destruct (mapM_total f js) as (cols & Hcols').
  { intros j Hj. destruct (Hf j Hj) as (col & Hcol & _). eauto. }
  fold f. rewrite Hcols'. simpl.
  assert (Hall : forall c, In c cols -> length c = rows).
  { intros c Hc. apply In_nth_error in Hc. destruct Hc as (n & Hn).
    apply mapM_Forall2 in Hcols'.
    destruct (Forall2_nth_error_r _ _ _ _ _ Hcols' Hn) as (j & Hj & Hfj).
    destruct (Hf j (nth_error_In _ _ Hj)) as (col & Hcol & Hl).
    congruence. }
  destruct cols as [| c1 rest].
  { apply mapM_length in Hcols'. destruct js; [congruence | discriminate]. }
  eexists. split; [reflexivity |].
  rewrite fold_left_map2_length; rewrite length_map.
  - apply Hall. now left.
  - intros c Hc. rewrite (Hall c1 (or_introl eq_refl)). apply Hall. now right.
Qed.

Lemma improved_big_m_constr_total Pi col xux k :
  length (nth k (Polyhedron.A Pi) []) = length xux ->
  k < length (Polyhedron.b Pi) -> k < length col ->
  exists tc, improved_big_m_constr Pi (Some col) xux k = inr tc.
Proof.
  intros Hw Hb Hk. unfold improved_big_m_constr.
  destruct (dot_vars_total _ _ Hw) as (l & ->). simpl.
  destruct (index_lt _ _ Hb) as (bk & -> & _). simpl.
  destruct (index_lt _ _ Hk) as (e & -> & _). simpl. eauto.
Qed.

Lemma big_m_stage_total lp S method P m mi xux d :
  wf_system S = true ->
  get_graph_representation S = inr P ->
  get_big_m lp P default_tol = inr (m, mi) ->
  length xux = nx S + nu S + nx S -> length d = nm S ->
  method = "big_m"%string \/
  (method = "improved_big_m"%string /\ 1 < nm S) ->
  exists tcs, big_m_stage S method P m mi xux d = inr tcs.
Proof.
  intros Hwf HP Hm Hxux Hd Hmethod. unfold big_m_stage.
  destruct (mapM_total (fun i =>
      c1 <- (if String.eqb method "big_m"
             then Pi <- index P i ;;
                  mapM (big_m_constr Pi mi xux d i)
                       (seq 0 (length (Polyhedron.A Pi)))
             else ret []) ;;
      c2 <- (if String.eqb method "improved_big_m"
             then s <- sum_mi m d (nm S) i ;;
                  Pi <- index P i ;;
                  mapM (improved_big_m_constr Pi s xux)
                       (seq 0 (length (Polyhedron.A Pi)))
             else ret []) ;;
      ret (c1 ++ c2)) (seq 0 (nm S))) as (css & Hcss);
    [| rewrite Hcss; simpl; eauto].
  intros i Hi. apply in_seq in Hi.
  pose proof (mapM_length _ _ _ HP) as HlP. rewrite length_seq in HlP.
  destruct (nth_error_lt P i ltac:(lia)) as (Pi & HPi).
  destruct (graph_poly_shape _ _ _ _ Hwf HP HPi) as (_ & Hb & Hw).
  destruct (get_big_m_shape _ _ _ _ _ _ _ Hm HPi)
    as ((m_i & Hmi & Hlm & Hcols) & (mi_i & Hmii & Hmik)).
  pose proof HPi as HPi'. apply index_inr in HPi'.
  destruct Hmethod as [-> | (-> & Hnm)]; simpl.
  - rewrite HPi'. simpl.
    destruct (mapM_total (big_m_constr Pi mi xux d i)
                (seq 0 (length (Polyhedron.A Pi)))) as (c1 & ->).
    { intros k Hk. apply in_seq in Hk. apply big_m_constr_total.
      - rewrite Hw by lia. lia.
      - lia.
      - exists mi_i. split; [assumption |].
        destruct (Hmik k ltac:(lia)) as (v & Hv).
        apply nth_error_Some. congruence.
      - lia. }
    simpl. eauto.
  - destruct (sum_mi_total m d (nm S) i (length (Polyhedron.A Pi)))
      as (col & -> & Hcol); try lia.
    { exists m_i. split; [assumption |]. split; [lia | assumption]. }
    simpl. rewrite HPi'. simpl.
    destruct (mapM_total (improved_big_m_constr Pi (Some col) xux)
                (seq 0 (length (Polyhedron.A Pi)))) as (c2 & ->).
    { intros k Hk. apply in_seq in Hk. apply improved_big_m_constr_total.
      - rewrite Hw by lia. lia.
      - lia.
      - lia. }
    simpl. eauto.
Qed.
Lemma sum_shares_total (y : list (list string)) nm n k :
  length y = nm -> (forall yi, In yi y -> length yi = n) -> k < n ->
  exists e, sum_shares y nm k = inr e.
Proof.
  intros Hy Hrows Hk. unfold sum_shares.
  destruct (mapM_total (fun i => yi <- index y i ;; yik <- index yi k ;;
                                 ret (le_var yik)) (seq 0 nm)) as (es & ->);
    [| simpl; eauto].
  intros i Hi. apply in_seq in Hi.
  destruct (index_lt y i ltac:(lia)) as (yi & -> & Hyi). simpl.
  destruct (index_lt yi k) as (yik & -> & _).
  { rewrite (Hrows yi); [assumption |]. eapply nth_error_In; eassumption. }
  simpl. eauto.
Qed.

Lemma convex_hull_stage_total S P x u x_next d y z v :
  wf_system S = true ->
  get_graph_representation S = inr P ->
  length x = nx S -> length u = nu S -> length x_next = nx S ->
  length d = nm S ->
  length y = nm S -> (forall yi, In yi y -> length yi = nx S) ->
  length z = nm S -> (forall zi, In zi z -> length zi = nx S) ->
  length v = nm S -> (forall vi, In vi v -> length vi = nu S) ->
  exists tcs, convex_hull_stage S P x u x_next d y z v = inr tcs.
Proof.
  intros Hwf HP Hx Hu Hxn Hd Hy Hyr Hz Hzr Hv Hvr. unfold convex_hull_stage.
  pose proof (mapM_length _ _ _ HP) as HlP. rewrite length_seq in HlP.
  destruct (mapM_total (fun i =>
      yi <- index y i ;; vi <- index v i ;; zi <- index z i ;;
      Pi <- index P i ;;
      mapM (convex_hull_constr Pi (yi ++ vi ++ zi) d i)
           (seq 0 (length (Polyhedron.A Pi)))) (seq 0 (nm S))) as (css & ->).
  { intros i Hi. apply in_seq in Hi.
    destruct (index_lt y i ltac:(lia)) as (yi & -> & Hyi). simpl.
    destruct (index_lt v i ltac:(lia)) as (vi & -> & Hvi). simpl.
    destruct (index_lt z i ltac:(lia)) as (zi & -> & Hzi). simpl.
    destruct (index_lt P i ltac:(lia)) as (Pi & -> & HPi). simpl.
    destruct (graph_poly_shape _ _ _ _ Hwf HP HPi) as (_ & Hb & Hw).
    apply mapM_total. intros k Hk. apply in_seq in Hk.
    unfold convex_hull_constr.
    destruct (dot_vars_total (nth k (Polyhedron.A Pi) []) (yi ++ vi ++ zi))
      as (l & ->).
    { rewrite Hw by lia. rewrite !length_app.
      rewrite (Hyr yi (nth_error_In _ _ Hyi)), (Hvr vi (nth_error_In _ _ Hvi)),
        (Hzr zi (nth_error_In _ _ Hzi)). lia. }
    simpl. destruct (index_lt (Polyhedron.b Pi) k ltac:(lia)) as (bk & -> & _).
    simpl. destruct (index_lt d i ltac:(lia)) as (di & -> & _). simpl. eauto. }
  simpl.
  destruct (mapM_total (fun k =>
      xk <- index x k ;; sy <- sum_shares y (nm S) k ;;
      xnk <- index x_next k ;; sz <- sum_shares z (nm S) k ;;
      ret [(le_var xk, EQUAL, sy); (le_var xnk, EQUAL, sz)])
    (seq 0 (nx S))) as (cx & ->).
  { intros k Hk. apply in_seq in Hk.
    destruct (index_lt x k ltac:(lia)) as (xk & -> & _). simpl.
    destruct (sum_shares_total y (nm S) (nx S) k Hy Hyr ltac:(lia)) as (sy & ->).
    simpl. destruct (index_lt x_next k ltac:(lia)) as (xnk & -> & _). simpl.
    destruct (sum_shares_total z (nm S) (nx S) k Hz Hzr ltac:(lia)) as (sz & ->).
    simpl. eauto. }
  simpl.
  destruct (mapM_total (fun k =>
      uk <- index u k ;; sv <- sum_shares v (nm S) k ;;
      ret (le_var uk, EQUAL, sv)) (seq 0 (nu S))) as (cu & ->).
  { intros k Hk. apply in_seq in Hk.
    destruct (index_lt u k ltac:(lia)) as (uk & -> & _). simpl.
    destruct (sum_shares_total v (nm S) (nu S) k Hv Hvr ltac:(lia)) as (sv & ->).
    simpl. eauto. }
  simpl. eauto.
Qed.

Lemma quad_form_total M vs :
  has_shape M (length vs) (length vs) = true ->
  exists q, quad_form M vs = inr q.
Proof. intros H. unfold quad_form. rewrite H. eauto. Qed.

Lemma x_names_length nx t : length (x_names nx t) = nx.
Proof. unfold x_names. now rewrite length_map, length_seq. Qed.

Lemma members_length name n : length (map (member name) (seq 0 n)) = n.
Proof. now rewrite length_map, length_seq. Qed.

Lemma members2_shape name n1 n2 :
  length (map (fun i => map (member2 name i) (seq 0 n2)) (seq 0 n1)) = n1 /\
  forall r, In r (map (fun i => map (member2 name i) (seq 0 n2)) (seq 0 n1)) ->
    length r = n2.
Proof.
  split; [now rewrite length_map, length_seq |].
  intros r Hr. apply in_map_iff in Hr. destruct Hr as (i & <- & _).
  now rewrite length_map, length_seq.
Qed.

Lemma stage_total lp S Q_ R_ method P m mi prog obj xp t :
  wf_system S = true ->
  get_graph_representation S = inr P ->
  get_big_m lp P default_tol = inr (m, mi) ->
  has_shape Q_ (nx S) (nx S) = true ->
  has_shape R_ (nu S) (nu S) = true ->
  method_ready method (nm S) ->
  (t <> 0 -> xp = Some (x_names (nx S) t)) ->
  exists st', stage S Q_ R_ method P m mi (prog, obj, xp) t = inr st'.
Proof.
  intros Hwf HP Hm HQ HR Hmethod Hxp. unfold stage.
  assert (Hx : exists prog0,
            (if t =? 0
             then ret (addVars prog (nx S) 0%Q 0%Q "x0")
             else match xp with
                  | Some x => ret (prog, x)
                  | None => raise NameError
                  end) = inr (prog0, x_names (nx S) t)).
  { destruct (t =? 0) eqn:Et.
    - apply Nat.eqb_eq in Et. subst t. eexists. reflexivity.
    - apply Nat.eqb_neq in Et. rewrite (Hxp Et). eexists. reflexivity. }
  destruct Hx as (prog0 & ->). rewrite bind_ret. cbv beta iota.
  destruct (addVars prog0 _ _ _ _) as [prog1 x_next] eqn:A1.
  destruct (addVars prog1 _ _ _ _) as [prog2 u] eqn:A2.
  destruct (addVars prog2 _ _ _ _) as [prog3 d] eqn:A3.
  apply addVars_inv in A1, A2, A3.
  destruct A1 as (-> & _), A2 as (-> & _), A3 as (-> & _).
  assert (Hlx : length (x_names (nx S) t ++
                        map (member ("u" ++ dec t)) (seq 0 (nu S)) ++
                        map (member ("x" ++ dec (t + 1))) (seq 0 (nx S))) =
                nx S + nu S + nx S).
  { rewrite !length_app, x_names_length, !members_length. lia. }
  match goal with
  | |- context [bind ?c _] => assert (Hdyn : exists prog4, c = inr prog4)
  end.
  { destruct Hmethod as [(-> & Hnm) | [(-> & Hnm) | (-> & Hnm)]]; simpl.
    - destruct (big_m_stage_total lp S "big_m" P m mi _ _ Hwf HP Hm Hlx
                  (members_length ("d" ++ dec t) (nm S)) (or_introl eq_refl))
        as (tcs & Htcs).
      simpl in Htcs. rewrite Htcs. simpl. eauto.
    - destruct (big_m_stage_total lp S "improved_big_m" P m mi _ _ Hwf HP Hm
                  Hlx (members_length ("d" ++ dec t) (nm S))
                  (or_intror (conj eq_refl Hnm))) as (tcs & Htcs).
      simpl in Htcs. rewrite Htcs. simpl. eauto.
    - destruct (members2_shape ("y" ++ dec t) (nm S) (nx S)) as (Hy & Hyr).
      destruct (members2_shape ("z" ++ dec t) (nm S) (nx S)) as (Hz & Hzr).
      destruct (members2_shape ("v" ++ dec t) (nm S) (nu S)) as (Hv & Hvr).
      destruct (convex_hull_stage_total S P (x_names (nx S) t)
                  (map (member ("u" ++ dec t)) (seq 0 (nu S)))
                  (map (member ("x" ++ dec (t + 1))) (seq 0 (nx S)))
                  (map (member ("d" ++ dec t)) (seq 0 (nm S)))
                  _ _ _ Hwf HP (x_names_length (nx S) t)
                  (members_length ("u" ++ dec t) (nu S))
                  (members_length ("x" ++ dec (t + 1)) (nx S))
                  (members_length ("d" ++ dec t) (nm S))
                  Hy Hyr Hz Hzr Hv Hvr) as (tcs & Htcs).
      simpl in Htcs. rewrite Htcs. simpl. eauto. }
  destruct Hdyn as (prog4 & ->). rewrite bind_ret. cbv beta.
  assert (Hd : exists c, simplex_constr
                 (map (member ("d" ++ dec t)) (seq 0 (nm S))) = inr c).
  { assert (0 < nm S)
      by (destruct Hmethod as [(_ & ?) | [(_ & ?) | (_ & ?)]]; lia).
    destruct (nm S); [lia |]. simpl. eauto. }
  destruct Hd as (c & ->). rewrite bind_ret. cbv beta.
  destruct (quad_form_total R_ (map (member ("u" ++ dec t)) (seq 0 (nu S))))
    as (qu & ->); [now rewrite members_length |].
  rewrite bind_ret. cbv beta.
  destruct (quad_form_total Q_ (x_names (nx S) t)) as (qx & ->);
    [now rewrite x_names_length |].
  simpl. eauto.
Qed.

Lemma stage_loop_total lp S Q_ R_ method P m mi n :
  wf_system S = true ->
  get_graph_representation S = inr P ->
  get_big_m lp P default_tol = inr (m, mi) ->
  has_shape Q_ (nx S) (nx S) = true ->
  has_shape R_ (nu S) (nu S) = true ->
  method_ready method (nm S) ->
  forall s st,
    (s <> 0 -> snd st = Some (x_names (nx S) s)) ->
    exists st',
      foldM (stage S Q_ R_ method P m mi) (seq s n) st = inr st'.
Proof.
  intros Hwf HP Hm HQ HR Hmethod.
  induction n as [| n IH]; intros s [[prog obj] xp] Hxp; simpl in Hxp;
    [simpl; eauto |].
  rewrite <- cons_seq. cbn [foldM].
  destruct (stage_total lp S Q_ R_ method P m mi prog obj xp s
              Hwf HP Hm HQ HR Hmethod Hxp) as ([[p1 o1] x1] & Hst).
  rewrite Hst. rewrite bind_ret.
  apply stage_inr in Hst; [| assumption]. destruct Hst as (-> & _).
  apply IH. intros _. simpl. f_equal. f_equal. lia.
Qed.

(** [build_mpmiqp] returns a program for a well-shaped problem: a
    well-shaped system whose big-M constants exist, a horizon of at least
    one stage, square weights, a terminal set over the state, and a known
    method with enough modes. *)
Lemma build_mpmiqp_total lp S N Q_ R_ P_ X_N method P m mi :
  wf_system S = true ->
  get_graph_representation S = inr P ->
  get_big_m lp P default_tol = inr (m, mi) ->
  0 < N ->
  has_shape Q_ (nx S) (nx S) = true ->
  has_shape R_ (nu S) (nu S) = true ->
  has_shape P_ (nx S) (nx S) = true ->
  has_shape (Polyhedron.A X_N) (length (Polyhedron.A X_N)) (nx S) = true ->
  length (Polyhedron.A X_N) <= length (Polyhedron.b X_N) ->
  method_ready method (nm S) ->
  exists prog, build_mpmiqp lp S N Q_ R_ P_ X_N method = inr prog.
Proof.
  intros Hwf HP Hm HN HQ HR HPm HX HXb Hmethod. unfold build_mpmiqp.
  rewrite HP. rewrite bind_ret. cbv beta. rewrite Hm. rewrite bind_ret.
  cbv beta iota zeta.
  match goal with
  | |- context [foldM ?f ?l ?st0] =>
      destruct (stage_loop_total lp S Q_ R_ method P m mi N
                  Hwf HP Hm HQ HR Hmethod 0 st0
                  ltac:(intros E; congruence))
        as ([[p1 obj] xl] & Hloop)
  end.
  rewrite Hloop. rewrite bind_ret. cbv beta iota.
  apply stage_loop in Hloop; [| intros E; congruence].
  destruct Hloop as (_ & Hxl & _).
  destruct N as [| N']; [lia |]. subst xl. rewrite bind_ret. cbv beta.
  match goal with
  | |- context [mapM ?f ?l] => destruct (mapM_total f l) as (cs & ->)
  end.
  { intros k Hk. apply in_seq in Hk.
    destruct (dot_vars_total (nth k (Polyhedron.A X_N) [])
                (x_names (nx S) (0 + Datatypes.S N'))) as (l & ->).
    { rewrite x_names_length.
      apply has_shape_nth with (r := length (Polyhedron.A X_N));
        [assumption | lia]. }
    simpl.
    destruct (index_lt (Polyhedron.b X_N) k ltac:(lia)) as (bk & -> & _).
    simpl. eauto. }
  rewrite bind_ret. cbv beta.
  destruct (quad_form_total P_ (x_names (nx S) (0 + Datatypes.S N'))) as (qt & ->);
    [now rewrite x_names_length |].
  simpl. eauto.
Qed.

(** ** When the relaxation is solved *)

Lemma extends_names p p' name :
  extends p p' -> In name (map VarName (vars p)) ->
  In name (map VarName (vars p')).
Proof.
  intros (vs & cs & -> & _) H. rewrite map_app. apply in_or_app. now left.
Qed.

(** The state and input variables stage [t] leaves in the program. *)
Lemma stage_vars_inr S Q_ R_ method P m mi prog obj xp t prog' obj' xn :
  stage S Q_ R_ method P m mi (prog, obj, xp) t = inr (prog', obj', xn) ->
  (forall k, k < nx S -> In (x_name (t + 1) k) (map VarName (vars prog'))) /\
  (forall k, k < nu S -> In (u_name t k) (map VarName (vars prog'))) /\
  (t = 0 ->
   forall k, k < nx S -> In (x_name 0 k) (map VarName (vars prog'))).
Proof.
  intros H.
  assert (Hext : forall p, extends p prog' ->
            forall name, In name (map VarName (vars p)) ->
                         In name (map VarName (vars prog'))).
  { intros p Hp name. now apply extends_names. }
  unfold stage in H.
  apply bind_inr in H. destruct H as ([prog0 x] & Hx0 & H).
  destruct (addVars prog0 _ _ _ _) as [prog1 x_next] eqn:A1.
  destruct (addVars prog1 _ _ _ _) as [prog2 u] eqn:A2.
  destruct (addVars prog2 _ _ _ _) as [prog3 d] eqn:A3.
  apply addVars_inv in A1, A2, A3.
  destruct A1 as (-> & A1 & Hxn), A2 as (-> & A2 & Hu), A3 as (-> & A3 & _).
  assert (E2 : extends prog1 prog2)
    by (rewrite A2; apply extends_addVars; discriminate).
  assert (E3 : extends prog2 prog3)
    by (rewrite A3; apply extends_addVars; [auto | discriminate]).
  apply bind_inr in H. destruct H as (prog4 & Hdyn & H).
  apply bind_inr in H. destruct H as (c & _ & H).
  apply bind_inr in H. destruct H as (qu & _ & H).
  apply bind_inr in H. destruct H as (qx & _ & H).
  unfold ret in H. inversion H; subst prog' obj' xn. clear H.
  assert (E4 : extends prog3 prog4).
  { destruct (String.eqb method "big_m" || String.eqb method "improved_big_m").
    - apply bind_inr in Hdyn. destruct Hdyn as (tcs & _ & Hdyn).
      unfold ret in Hdyn; inversion Hdyn; subst. apply extends_addConstrs.
    - destruct (String.eqb method "convex_hull"); [| discriminate].
      destruct (addVars2 prog3 _ _ _ _ _) as [prog5 y] eqn:B1.
      destruct (addVars2 prog5 _ _ _ _ _) as [prog6 z] eqn:B2.
      destruct (addVars2 prog6 _ _ _ _ _) as [prog7 v] eqn:B3.
      apply addVars2_inv in B1, B2, B3.
      apply bind_inr in Hdyn. destruct Hdyn as (tcs & _ & Hdyn).
      unfold ret in Hdyn; inversion Hdyn; subst prog4.
      eapply extends_trans; [| apply extends_addConstrs].
      eapply extends_trans; [| rewrite B3; apply extends_addVars2;
                                 [reflexivity | discriminate]].
      eapply extends_trans; [| rewrite B2; apply extends_addVars2;
                                 [reflexivity | discriminate]].
      rewrite B1; apply extends_addVars2; [reflexivity | discriminate]. }
  assert (E5 : forall p, extends p prog4 ->
            forall name, In name (map VarName (vars p)) ->
              In name (map VarName (vars (addConstrs prog4 [c])))).
  { intros p Hp name Hn. rewrite addConstrs_vars.
    eapply extends_names; eassumption. }
  split; [| split].
  - intros k Hk.
    apply (E5 prog1 (extends_trans _ _ _ E2 (extends_trans _ _ _ E3 E4))).
    exact (in_map VarName _ _ (Hxn k Hk)).
  - intros k Hk. apply (E5 prog2 (extends_trans _ _ _ E3 E4)).
    exact (in_map VarName _ _ (Hu k Hk)).
  - intros -> k Hk. simpl in Hx0. unfold ret in Hx0.
    assert (E1 : extends prog0 prog1)
      by (rewrite A1; apply extends_addVars; discriminate).
    apply (E5 prog0 (extends_trans _ _ _ E1
             (extends_trans _ _ _ E2 (extends_trans _ _ _ E3 E4)))).
    destruct (addVars_inv _ _ _ _ _ _ _
                (f_equal (fun c => match c with inr a => a | inl _ => (prog, []) end) Hx0))
      as (_ & _ & Hx).
    exact (in_map VarName _ _ (Hx k Hk)).
Qed.
Lemma stage_loop_vars S Q_ R_ method P m mi n :
  forall s prog obj xp prog' obj' xn,
    foldM (stage S Q_ R_ method P m mi) (seq s n) (prog, obj, xp) =
      inr (prog', obj', xn) ->
    (s <> 0 -> xp = Some (x_names (nx S) s)) ->
    forall t, s <= t < s + n ->
      (forall k, k < nx S ->
         In (x_name (t + 1) k) (map VarName (vars prog'))) /\
      (forall k, k < nu S -> In (u_name t k) (map VarName (vars prog'))) /\
      (t = 0 ->
       forall k, k < nx S -> In (x_name 0 k) (map VarName (vars prog'))).
Proof.
  induction n as [| n IH]; intros s prog obj xp prog' obj' xn H Hxp t Ht;
    [lia |].
  rewrite <- cons_seq in H. cbn [foldM] in H. apply bind_inr in H.
  destruct H as ([[p1 o1] x1] & Hst & H).
  pose proof (stage_vars_inr _ _ _ _ _ _ _ _ _ _ _ _ _ _ Hst) as Hv.
  apply stage_inr in Hst; [| assumption]. destruct Hst as (-> & _ & _).
  assert (Hx1 : Datatypes.S s <> 0 ->
                Some (x_names (nx S) (s + 1)) =
                Some (x_names (nx S) (Datatypes.S s)))
    by (intros _; f_equal; f_equal; lia).
  destruct (Nat.eq_dec t s) as [-> | Hne].
  - destruct (stage_loop _ _ _ _ _ _ _ _ _ _ _ _ _ _ _ H Hx1) as (E & _ & _).
    destruct Hv as (H1 & H2 & H3).
    split; [| split]; intros; eapply extends_names; eauto.
  - apply (IH _ _ _ _ _ _ _ H Hx1). lia.
Qed.

Lemma present_names prog name :
  present prog name = true <-> In name (map VarName (vars prog)).
Proof.
  unfold present. rewrite <- getVarByName_names.
  destruct (getVarByName prog name) as [v |]; split; intros H;
    try reflexivity; try discriminate; eauto.
  destruct H as (v & Hv). discriminate.
Qed.

Lemma forallb2_seq (f : nat -> nat -> bool) n1 n2 :
  forallb (fun t => forallb (f t) (seq 0 n2)) (seq 0 n1) = true <->
  forall t k, t < n1 -> k < n2 -> f t k = true.
Proof.
  rewrite forallb_forall. split.
  - intros H t k Ht Hk. specialize (H t ltac:(apply in_seq; lia)).
    rewrite forallb_forall in H. apply H. apply in_seq. lia.
  - intros H t Ht. apply in_seq in Ht. apply forallb_forall. intros k Hk.
    apply in_seq in Hk. apply H; lia.
Qed.

Lemma has_variables_spec self :
  has_variables self = true <->
  (forall t k, t < Controller.N self + 1 -> k < nx (Controller.S self) ->
     In (x_name t k) (map VarName (vars (Controller.prog self)))) /\
  (forall t k, t < Controller.N self -> k < nu (Controller.S self) ->
     In (u_name t k) (map VarName (vars (Controller.prog self)))) /\
  has_indicators self = true.
Proof.
  unfold has_variables. rewrite !andb_true_iff, !forallb2_seq.
  split.
  - intros ((H1 & H2) & H3). split; [| split]; try assumption;
      intros t k Ht Hk; apply present_names; auto.
  - intros (H1 & H2 & H3). split; [split |]; try assumption;
      intros t k Ht Hk; apply present_names; auto.
Qed.

(** The constructor creates every variable the oracle reads. *)
Lemma init_has_variables lp S N Q_ R_ P_ X_N method self :
  init lp S N Q_ R_ P_ X_N method = inr self ->
  has_variables self = true.
Proof.
  intros H. pose proof (init_has_indicators _ _ _ _ _ _ _ _ _ H) as (Hi & _).
  unfold init in H. apply bind_inr in H. destruct H as (prog & Hb & H).
  unfold ret in H. inversion H; subst self. clear H.
  apply has_variables_spec. simpl. split; [| split; [| exact Hi]].
  - unfold build_mpmiqp in Hb.
    apply bind_inr in Hb. destruct Hb as (P & HP & Hb).
    apply bind_inr in Hb. destruct Hb as ([m mi] & Hm & Hb).
    apply bind_inr in Hb. destruct Hb as ([[p1 obj] xl] & Hloop & Hb).
    apply bind_inr in Hb. destruct Hb as (x_next & Hx & Hb).
    apply bind_inr in Hb. destruct Hb as (cs & Hcs & Hb).
    apply bind_inr in Hb. destruct Hb as (qt & Hqt & Hb).
    unfold ret in Hb. inversion Hb; subst prog. clear Hb.
    simpl. rewrite addConstrs_vars.
    intros t k Ht Hk.
    pose proof (stage_loop_vars _ _ _ _ _ _ _ _ _ _ _ _ _ _ _ Hloop
                  ltac:(intros E; congruence)) as Hv.
    destruct t as [| t].
    + assert (HN : 0 < N).
      { apply stage_loop in Hloop; [| intros E; congruence].
        destruct Hloop as (_ & Hxl & _). destruct N; [| lia].
        subst xl. discriminate. }
      destruct (Hv 0 ltac:(lia)) as (_ & _ & H0). now apply H0.
    + destruct (Hv t ltac:(lia)) as (H1 & _).
      replace (Datatypes.S t) with (t + 1) by lia. now apply H1.
  - unfold build_mpmiqp in Hb.
    apply bind_inr in Hb. destruct Hb as (P & HP & Hb).
    apply bind_inr in Hb. destruct Hb as ([m mi] & Hm & Hb).
    apply bind_inr in Hb. destruct Hb as ([[p1 obj] xl] & Hloop & Hb).
    apply bind_inr in Hb. destruct Hb as (x_next & Hx & Hb).
    apply bind_inr in Hb. destruct Hb as (cs & Hcs & Hb).
    apply bind_inr in Hb. destruct Hb as (qt & Hqt & Hb).
    unfold ret in Hb. inversion Hb; subst prog. clear Hb.
    simpl. rewrite addConstrs_vars.
    intros t k Ht Hk.
    pose proof (stage_loop_vars _ _ _ _ _ _ _ _ _ _ _ _ _ _ _ Hloop
                  ltac:(intros E; congruence)) as Hv.
    destruct (Hv t ltac:(lia)) as (_ & H2 & _). now apply H2.
Qed.

Lemma update_mode_sequence_names self p :
  has_indicators self = true ->
  valid_sequence (nm (Controller.S self))
                 (Controller.partial_mode_sequence self) = true ->
  valid_sequence (nm (Controller.S self)) p = true ->
  exists self1,
    update_mode_sequence self p = inr self1 /\
    map VarName (vars (Controller.prog self1)) =
    map VarName (vars (Controller.prog self)).
Proof.
  intros Hind0 Hold Hnew.
  pose proof (proj1 (has_indicators_spec self) Hind0) as Hind.
  destruct (foldM_invariant
              (update_step (Controller.partial_mode_sequence self) p)
              (fun prog => map VarName (vars prog) =
                           map VarName (vars (Controller.prog self)))
              (seq 0 (Controller.N self))) with (u := Controller.prog self)
    as (prog1 & Hfold & Hnames).
  - intros prog t Ht Hprog. apply in_seq in Ht.
    destruct (update_step_inr (Controller.N self) (nm (Controller.S self))
                (Controller.partial_mode_sequence self) p prog t)
      as (prog' & Hstep & Hn); try assumption; try lia.
    { intros t' i Ht' Hi. rewrite Hprog. now apply Hind. }
    exists prog'. split; [assumption | congruence].
  - reflexivity.
  - eexists. split.
    + unfold update_mode_sequence. rewrite Hfold. reflexivity.
    + simpl. exact Hnames.
Qed.

Lemma map2_names (vs : list Var) (vb : list Z) :
  length vs <= length vb ->
  map VarName (map2 (fun v s => with_VBasis s v) vs vb) = map VarName vs.
Proof.
  revert vb; induction vs as [| v vs IH]; intros [| s vb] H; simpl in *;
    try lia; [reflexivity | reflexivity |].
  f_equal. apply IH. lia.
Qed.

Lemma install_warm_start_names prog vb cb :
  length (vars prog) <= length vb ->
  length (constrs prog) <= length cb ->
  exists prog',
    install_warm_start prog vb cb = inr prog' /\
    map VarName (vars prog') = map VarName (vars prog).
Proof.
  intros Hv Hc. unfold install_warm_start.
  replace (length vb <? length (vars prog)) with false
    by (symmetry; apply Nat.ltb_ge; lia).
  simpl.
  replace (length cb <? length (constrs prog)) with false
    by (symmetry; apply Nat.ltb_ge; lia).
  eexists. split; [reflexivity |]. simpl. now apply map2_names.
Qed.

Lemma index_of_total (v : Q) (l : list Q) :
  In v l -> exists i, index_of v l = inr i.
Proof.
  induction l as [| y l IH]; intros Hin; [destruct Hin |]. simpl.
  destruct (Qeq_bool y v) eqn:E; [eauto |].
  destruct Hin as [-> | Hin].
  - rewrite Qeq_bool_refl in E. discriminate.
  - destruct (IH Hin) as (i & ->). simpl. eauto.
Qed.

Lemma var_x_total prog sol name :
  In name (map VarName (vars prog)) ->
  var_x prog sol name = inr (X sol name).
Proof.
  intros H. apply getVarByName_names in H. destruct H as (v & Hv).
  unfold var_x. now rewrite Hv.
Qed.

Lemma mapM_var_x prog sol (name : nat -> nat -> string) n1 n2 :
  (forall t k, t < n1 -> k < n2 ->
     In (name t k) (map VarName (vars prog))) ->
  mapM (fun t => mapM (fun k => var_x prog sol (name t k)) (seq 0 n2))
       (seq 0 n1) =
  inr (map (fun t => map (fun k => X sol (name t k)) (seq 0 n2)) (seq 0 n1)).
Proof.
  intros H. apply mapM_Forall2.
  assert (G : forall l, (forall t, In t l -> t < n1) ->
            Forall2 (fun t row =>
              mapM (fun k => var_x prog sol (name t k)) (seq 0 n2) = inr row)
              l (map (fun t => map (fun k => X sol (name t k)) (seq 0 n2)) l)).
  { induction l as [| t l IH]; intros Hl; simpl; constructor.
    - apply mapM_Forall2.
      assert (G2 : forall l2, (forall k, In k l2 -> k < n2) ->
                Forall2 (fun k v => var_x prog sol (name t k) = inr v)
                        l2 (map (fun k => X sol (name t k)) l2)).
      { induction l2 as [| k l2 IH2]; intros Hl2; simpl; constructor.
        - apply var_x_total. apply H; [apply Hl | apply Hl2]; now left.
        - apply IH2. intros; apply Hl2; now right. }
      apply G2. intros k Hk. apply in_seq in Hk. lia.
    - apply IH. intros; apply Hl; now right. }
  apply G. intros t Ht. apply in_seq in Ht. lia.
Qed.

(** [solve_relaxation] returns on a controller that has its variables,
    for sequences of mode indices, a system with a mode, a solver status
    among the fifteen known ones and a warm start (if any) as long as the
    program. *)
Lemma solve_relaxation_total optimize self p cutoff_value warm_start :
  has_variables self = true ->
  valid_sequence (nm (Controller.S self))
                 (Controller.partial_mode_sequence self) = true ->
  valid_sequence (nm (Controller.S self)) p = true ->
  0 < nm (Controller.S self) ->
  (forall prog, (1 <= status (optimize prog) <= 15)%Z) ->
  match warm_start with
  | Some (vb, cb) =>
      length (vars (Controller.prog self)) <= length vb /\
      length (constrs (Controller.prog self)) <= length cb
  | None => True
  end ->
  exists self' r,
    solve_relaxation optimize self p cutoff_value warm_start = inr (self', r).
Proof.
  intros Hvars Hold Hnew Hnm Hstatus Hws.
  apply has_variables_spec in Hvars. destruct Hvars as (Hx & Hu & Hd).
  unfold solve_relaxation.
  assert (Hw : exists prog0,
            match warm_start with
            | Some (vb, cb) => install_warm_start (Controller.prog self) vb cb
            | None => ret (Controller.prog self)
            end = inr prog0 /\
            map VarName (vars prog0) =
            map VarName (vars (Controller.prog self))).
  { destruct warm_start as [[vb cb] |].
    - destruct Hws as (Hv & Hc). now apply install_warm_start_names.
    - eexists. split; reflexivity. }
  destruct Hw as (prog0 & -> & Hn0). rewrite bind_ret. cbv beta zeta.
  set (prog1 := match cutoff_value with
                | Some c => setParam_Cutoff prog0 c
                | None => prog0
                end).
  assert (Hn1 : map VarName (vars prog1) =
                map VarName (vars (Controller.prog self))).
  { unfold prog1. destruct cutoff_value; simpl; exact Hn0. }
  destruct (update_mode_sequence_names (with_prog self prog1) p)
    as (self1 & Hupd & Hn2); try assumption.
  { apply has_indicators_spec. simpl. intros t i Ht Hi. rewrite Hn1.
    now apply (proj1 (has_indicators_spec self) Hd). }
  rewrite Hupd. rewrite bind_ret. cbv beta zeta.
  apply update_mode_sequence_inr in Hupd. simpl in Hupd, Hn2.
  destruct Hupd as (Hp & HS & HN).
  rewrite Hn1 in Hn2.
  specialize (Hstatus (Controller.prog self1)).
  set (sol := optimize (Controller.prog self1)) in *.
  assert (Hst : exists st, read_gurobi_status (status sol) = inr st).
  { destruct (status sol) as [| q | q]; try lia.
    repeat match goal with
           | q : positive |- _ => destruct q; try lia
           end; simpl; eauto. }
  destruct Hst as (st & ->). rewrite bind_ret. cbv beta zeta.
  destruct (String.eqb st "cutoff"); simpl orb; cbv iota; [eauto |].
  destruct (String.eqb st "optimal"); simpl negb; cbv iota; [| eauto].
  rewrite HS, HN.
  rewrite (mapM_var_x _ sol x_name) by (intros; rewrite Hn2; now apply Hx).
  rewrite bind_ret. cbv beta.
  rewrite (mapM_var_x _ sol u_name) by (intros; rewrite Hn2; now apply Hu).
  rewrite bind_ret. cbv beta.
  rewrite (mapM_var_x _ sol d_name)
    by (intros; rewrite Hn2;
        now apply (proj1 (has_indicators_spec self) Hd)).
  rewrite bind_ret. cbv beta.
  set (d := map (fun t => map (fun k => X sol (d_name t k))
                              (seq 0 (nm (Controller.S self))))
                (seq 0 (Controller.N self))).
  assert (Hrows : Forall (fun row => length row = nm (Controller.S self)) d).
  { apply Forall_forall. intros row Hrow. apply in_map_iff in Hrow.
    destruct Hrow as (t & <- & _). now rewrite length_map, length_seq. }
  assert (Hlen : length d = Controller.N self)
    by (unfold d; now rewrite length_map, length_seq).
  destruct (mapM_total (fun dt => mx <- list_max dt ;; index_of mx dt) d)
    as (ms & Hms).
  { intros dt Hdt. rewrite Forall_forall in Hrows.
    destruct (list_max_spec dt) as (mx & -> & Hin & _).
    { intros E. specialize (Hrows dt Hdt). rewrite E in Hrows.
      simpl in Hrows. lia. }
    simpl. now apply index_of_total. }
  unfold mode_sequence_of. rewrite Hms. rewrite bind_ret. cbv beta.
  destruct (mapM_total (fun dt =>
              allclose (sorted dt) (repeat 0%Q (length dt - 1) ++ [1%Q])) d)
    as (bs & Hbs).
  { intros dt Hdt. rewrite Forall_forall in Hrows.
    destruct (row_integer_feasible dt) as (b & Hb & _); [| eauto].
    intros E. specialize (Hrows dt Hdt). rewrite E in Hrows.
    simpl in Hrows. lia. }
  unfold integer_feasible_of. rewrite Hbs. simpl bind.
  destruct (length p <? Controller.N self) eqn:Ep.
  - apply Nat.ltb_lt in Ep.
    destruct (mode_heuristic_inr self1 d (nm (Controller.S self)))
      as (order & score & base & Hh & _).
    + rewrite Hp, Hlen. exact Ep.
    + exact Hrows.
    + rewrite Hp. exact Hnew.
    + rewrite Hh. simpl. eauto.
  - simpl. eauto.
Qed.

(** ** Further runs of the example *)

(** With a single mode the sum of the improved big-M method is the
    integer 0, and subscripting it stops the construction. *)
Lemma build_mpmiqp_improved_single_mode :
  build_mpmiqp fm_linear_program example_S1 2 [[1%Q]] [[1%Q]] [[1%Q]]
               example_X_N "improved_big_m" = inl TypeError.
Proof. vm_compute. reflexivity. Qed.

(** An unknown method stops the construction at the first stage. *)
Lemma build_mpmiqp_unknown_method : example_build "other" = inl ValueError.
Proof. vm_compute. reflexivity. Qed.

(** Fixing mode 1 at stage 0 raises the lower bound of [d0[1]] and of no
    other indicator; releasing it puts the program back. *)
Lemma update_mode_sequence_example :
  map (fun v => (VarName v, Qred (LB v)))
      (filter (fun v => is_d (VarName v))
              (vars (Controller.prog example_controller_1))) =
  [(d_name 0 0, 0%Q); (d_name 0 1, 1%Q); (d_name 1 0, 0%Q); (d_name 1 1, 0%Q)] /\
  update_mode_sequence example_controller_1 [] = inr example_controller.
Proof. split; vm_compute; reflexivity. Qed.

(** The example meets the conditions under which the construction and the
    oracle return. *)
Lemma example_controller_ready :
  has_variables example_controller = true /\
  exists prog, example_build "improved_big_m" = inr prog.
Proof.
  split; [vm_compute; reflexivity |].
  destruct (get_big_m fm_linear_program example_P default_tol)
    as [e | [m mi]] eqn:E; [vm_compute in E; discriminate |].
  apply (build_mpmiqp_total fm_linear_program example_S 2 _ _ _ _ _
           example_P m mi); try reflexivity; try assumption.
  - lia.
  - right. left. split; [reflexivity | simpl; lia].
Qed.

(** ** The construction and the oracle, as wholes *)

(** C3.  In the program built by [build_mpmiqp], at every stage [t] and
    for every row [k] of the polyhedron of every mode [i]: with the method
    [big_m] there is the constraint
    [A_i[k] . (x_t, u_t, x_{t+1}) <= b_i[k] + mi[i][k] * (1 - d_t[i])];
    with the method [improved_big_m] there is the constraint
    [A_i[k] . (x_t, u_t, x_{t+1}) <= b_i[k] + sum_{j <> i} m[i][j][k] * d_t[j]].
    And the program is built for a well-shaped problem (with a second mode
    for the improved method). *)
Theorem build_mpmiqp_big_m_rows lp S N Q_ R_ P_ X_N method P m mi :
  get_graph_representation S = inr P ->
  get_big_m lp P default_tol = inr (m, mi) ->
  (forall prog,
     build_mpmiqp lp S N Q_ R_ P_ X_N method = inr prog ->
     forall t i k Pi,
       t < N -> i < nm S ->
       nth_error P i = Some Pi -> k < length (Polyhedron.A Pi) ->
       (method = "big_m"%string ->
        exists c mik,
          In c (constrs prog) /\ mi_at mi i k = Some mik /\
          forall rho,
            sat rho c <->
            (dot (nth k (Polyhedron.A Pi) [])
                 (map rho (x_names (nx S) t ++ u_names (nu S) t ++
                           x_names (nx S) (t + 1))) <=
             nth k (Polyhedron.b Pi) 0 + mik * (1 - rho (d_name t i)))%Q) /\
       (method = "improved_big_m"%string ->
        (forall j, j < nm S -> m_at m i j k = Some (m_val m i j k)) /\
        exists c,
          In c (constrs prog) /\
          forall rho,
            sat rho c <->
            (dot (nth k (Polyhedron.A Pi) [])
                 (map rho (x_names (nx S) t ++ u_names (nu S) t ++
                           x_names (nx S) (t + 1))) <=
             nth k (Polyhedron.b Pi) 0 +
             Qsum (map (fun j => m_val m i j k * rho (d_name t j))
                       (filter (fun j => negb (j =? i)) (seq 0 (nm S)))))%Q)) /\
  (wf_system S = true -> 0 < N ->
   has_shape Q_ (nx S) (nx S) = true ->
   has_shape R_ (nu S) (nu S) = true ->
   has_shape P_ (nx S) (nx S) = true ->
   has_shape (Polyhedron.A X_N) (length (Polyhedron.A X_N)) (nx S) = true ->
   length (Polyhedron.A X_N) <= length (Polyhedron.b X_N) ->
   (method = "big_m"%string /\ 0 < nm S) \/
   (method = "improved_big_m"%string /\ 1 < nm S) ->
   exists prog, build_mpmiqp lp S N Q_ R_ P_ X_N method = inr prog).
Proof.
  intros HP Hm. split.
  { intros prog Hb t i k Pi Ht Hi HPi Hk.
    destruct (build_mpmiqp_inr _ _ _ _ _ _ _ _ _ Hb)
      as (P' & m' & mi' & HP' & Hm' & _ & _ & Hdone).
    rewrite HP in HP'. inversion HP'; subst P'.
    rewrite Hm in Hm'. inversion Hm'; subst m' mi'.
    destruct (Hdone t Ht) as (_ & _ & Hbig).
    split; intros ->.
    - destruct (Hbig eq_refl) as (tcs & Htcs & Hin).
      destruct (big_m_stage_inr _ _ _ _ _ _ _ _ i Htcs Hi)
        as (c1 & c2 & Hc1 & _ & Hincl).
      simpl in Hc1. apply bind_inr in Hc1. destruct Hc1 as (Pi' & HPi' & Hc1).
      apply index_inr in HPi'. rewrite HPi in HPi'. inversion HPi'; subst Pi'.
      destruct (mapM_nth_error _ _ _ k _ Hc1 (nth_error_seq 0 _ _ Hk))
        as (tc & Htc & Hcon).
      simpl in Hcon. apply big_m_constr_inr in Hcon.
      destruct Hcon as (mik & di & Hmik & Hdi & Hsat).
      rewrite nth_error_d_names in Hdi by assumption. inversion Hdi; subst di.
      exists (constr_of tc), mik. repeat split; try assumption; try apply Hsat.
      apply Hin, Hincl. apply in_or_app. left.
      eapply nth_error_In; eassumption.
    - split.
      { intros j Hj.
        pose proof (mapM_length _ _ _ HP) as HlP. rewrite length_seq in HlP.
        destruct (nth_error P j) as [Pj |] eqn:EPj;
          [| apply nth_error_None in EPj; lia].
        destruct (get_big_m_entry _ _ _ _ _ _ _ _ _ _ Hm HPi EPj Hk)
          as (v & Hv & _).
        rewrite Hv. f_equal. unfold m_at in Hv. unfold m_val.
        destruct (nth_error m i) as [m_i |] eqn:E1; [| discriminate].
        destruct (nth_error m_i j) as [mij |] eqn:E2; [| discriminate].
        rewrite (nth_error_nth _ _ [] E1), (nth_error_nth _ _ [] E2).
        symmetry. now apply nth_error_nth. }
      destruct (Hbig eq_refl) as (tcs & Htcs & Hin).
      destruct (big_m_stage_inr _ _ _ _ _ _ _ _ i Htcs Hi)
        as (c1 & c2 & _ & Hc2 & Hincl).
      simpl in Hc2. apply bind_inr in Hc2. destruct Hc2 as (s & Hs & Hc2).
      apply bind_inr in Hc2. destruct Hc2 as (Pi' & HPi' & Hc2).
      apply index_inr in HPi'. rewrite HPi in HPi'. inversion HPi'; subst Pi'.
      destruct (mapM_nth_error _ _ _ k _ Hc2 (nth_error_seq 0 _ _ Hk))
        as (tc & Htc & Hcon).
      simpl in Hcon. apply improved_big_m_constr_inr in Hcon.
      destruct Hcon as (col & e & -> & He & Hsat).
      exists (constr_of tc). split.
      + apply Hin, Hincl. apply in_or_app. right.
        eapply nth_error_In; eassumption.
      + intros rho. rewrite Hsat.
        rewrite (sum_mi_inr _ _ _ t _ _ _ _ Hs eq_refl He rho). reflexivity. }
  { intros Hwf HN HQ HR HPm HX HXb Hmethod.
    apply (build_mpmiqp_total lp S N Q_ R_ P_ X_N method P m mi);
      try assumption.
    destruct Hmethod as [H | H]; [left | right; left]; exact H. }
Qed.

Lemma build_mpmiqp_big_m_rows_witness :
  exists prog m mi,
    example_build "big_m" = inr prog /\
    get_graph_representation example_S = inr example_P /\
    get_big_m fm_linear_program example_P default_tol = inr (m, mi) /\
    exists c mik,
      In c (constrs prog) /\ mi_at mi 1 4 = Some mik /\
      forall rho,
        sat rho c <->
        (dot [1 # 2; 1; -(1)]%Q
             (map rho (x_names 1 1 ++ u_names 1 1 ++ x_names 1 2)) <=
         -(1 # 4) + mik * (1 - rho (d_name 1 1)))%Q.
Proof.
  destruct (example_build "big_m") as [e | prog] eqn:E;
    [vm_compute in E; discriminate |].
  destruct (get_big_m fm_linear_program example_P default_tol)
    as [e | [m mi]] eqn:E2; [vm_compute in E2; discriminate |].
  exists prog, m, mi.
  split; [reflexivity |]. split; [reflexivity |]. split; [reflexivity |].
  exact (proj1 (proj1 (build_mpmiqp_big_m_rows fm_linear_program example_S 2
                         [[1%Q]] [[1%Q]] [[1%Q]] example_X_N "big_m"
                         example_P m mi eq_refl E2) prog E 1 1 4 _
                  ltac:(lia) ltac:(simpl; lia) eq_refl ltac:(simpl; lia))
               eq_refl).
Defined.

(** C9 (as the code has it).  After [build_mpmiqp] every indicator
    [d_t[i]] is a continuous variable with lower bound 0 and the default
    upper bound [GRB.INFINITY]; no upper bound 1 is declared, and
    [d_t[i] <= 1] holds at every point that respects the bounds and the
    constraints of the program.  And [build_mpmiqp] returns for a
    well-shaped problem. *)
Theorem build_mpmiqp_indicators lp S N Q_ R_ P_ X_N method :
  (forall prog,
     build_mpmiqp lp S N Q_ R_ P_ X_N method = inr prog ->
     forall t i, t < N -> i < nm S ->
       (exists v,
          getVarByName prog (d_name t i) = Some v /\
          VType v = CONTINUOUS /\ LB v = 0%Q /\ UB v = GRB_INFINITY) /\
       (forall rho, feasible_point prog rho ->
          (0 <= rho (d_name t i) <= 1)%Q)) /\
  (forall P m mi,
     wf_system S = true ->
     get_graph_representation S = inr P ->
     get_big_m lp P default_tol = inr (m, mi) ->
     0 < N ->
     has_shape Q_ (nx S) (nx S) = true ->
     has_shape R_ (nu S) (nu S) = true ->
     has_shape P_ (nx S) (nx S) = true ->
     has_shape (Polyhedron.A X_N) (length (Polyhedron.A X_N)) (nx S) = true ->
     length (Polyhedron.A X_N) <= length (Polyhedron.b X_N) ->
     method_ready method (nm S) ->
     exists prog, build_mpmiqp lp S N Q_ R_ P_ X_N method = inr prog).
Proof.
  split.
  { intros prog Hb t i Ht Hi.
    destruct (build_mpmiqp_inr _ _ _ _ _ _ _ _ _ Hb)
      as (P & m & mi & _ & _ & _ & Hdecl & Hdone).
    destruct (Hdone t Ht) as (Hvars & Hsimplex & _).
    rewrite Forall_forall in Hdecl.
    assert (Hlow : forall rho j, feasible_point prog rho -> j < nm S ->
                     (0 <= rho (d_name t j))%Q).
    { intros rho j (Hbounds & _) Hj.
      destruct (Hvars j Hj) as (v & Hv & Hn).
      destruct (Hdecl v Hv) as (Hlb & _); [rewrite Hn; reflexivity |].
      specialize (Hbounds v Hv). rewrite Hn, Hlb in Hbounds. tauto. }
    split.
    - destruct (Hvars i Hi) as (v & Hv & Hn).
      destruct (getVarByName_exists _ _ _ Hv Hn) as (v' & Hv').
      exists v'. split; [assumption |].
      apply getVarByName_some in Hv'. destruct Hv' as (Hin & Hn').
      destruct (Hdecl v' Hin) as (Hlb & Hub & Hty); [rewrite Hn'; reflexivity |].
      auto.
    - intros rho Hf. split; [now apply Hlow |].
      destruct Hf as (Hbounds & Hcs). pose proof (Hcs _ Hsimplex) as Hs.
      unfold sat, constr_of in Hs; simpl in Hs.
      rewrite eval_sum_vars, eval_const in Hs. rewrite <- Hs.
      apply Qsum_nonneg_ge.
      + apply Forall_forall. intros y Hy. apply in_map_iff in Hy.
        destruct Hy as (s & <- & Hs'). unfold d_names in Hs'.
        apply in_map_iff in Hs'. destruct Hs' as (j & <- & Hj).
        apply in_seq in Hj. apply Hlow; [split; assumption | lia].
      + apply in_map. unfold d_names. apply in_map. apply in_seq. lia. }
  { intros P m mi. apply build_mpmiqp_total. }
Qed.

(** C9 as stated fails: in the program of the example the indicator
    [d_0[0]] is declared with upper bound [GRB.INFINITY], not 1. *)
Lemma build_mpmiqp_indicator_upper_bound :
  exists prog v,
    example_build "big_m" = inr prog /\
    getVarByName prog (d_name 0 0) = Some v /\
    LB v = 0%Q /\ UB v = GRB_INFINITY /\ ~ (UB v == 1)%Q.
Proof.
  eexists. eexists.
  split; [vm_compute; reflexivity |].
  split; [vm_compute; reflexivity |].
  split; [reflexivity |]. split; [reflexivity |].
  vm_compute. discriminate.
Qed.

Lemma build_mpmiqp_indicators_witness :
  exists prog,
    example_build "convex_hull" = inr prog /\
    (exists v,
       getVarByName prog (d_name 1 1) = Some v /\
       VType v = CONTINUOUS /\ LB v = 0%Q /\ UB v = GRB_INFINITY) /\
    (forall rho, feasible_point prog rho -> (0 <= rho (d_name 1 1) <= 1)%Q).
Proof.
  destruct (example_build "convex_hull") as [e | prog] eqn:E;
    [vm_compute in E; discriminate |].
  exists prog. split; [reflexivity |].
  apply (proj1 (build_mpmiqp_indicators _ _ _ _ _ _ _ _) prog E 1 1);
    simpl; lia.
Defined.

(** C4 (as the code has it).  In the result of [solve_relaxation]:
    the cutoff status (6) gives [cutoff=True], [feasible=None] and no
    solution key; every other status but optimal - infeasible, unbounded,
    sub-optimal, the limits, the numerical failures - gives
    [feasible=False] and no solution key; the optimal status (2) alone
    gives [feasible=True] and every solution key.  A status outside 1..15
    gives no result; within 1..15 the call returns on a controller that
    has its variables, for sequences of mode indices, a system with a mode
    and a warm start (if any) as long as the program. *)
Theorem solve_relaxation_status optimize self p cutoff_value warm_start :
  (forall self' r,
     solve_relaxation optimize self p cutoff_value warm_start =
       inr (self', r) ->
     let st := status (optimize (Controller.prog self')) in
     (1 <= st <= 15)%Z /\
     (st = 6%Z ->
      Result.cutoff r = true /\ Result.feasible r = None /\ no_solution r) /\
     (st <> 6%Z -> st <> 2%Z ->
      Result.cutoff r = false /\ Result.feasible r = Some false /\
      no_solution r) /\
     (st = 2%Z ->
      Result.cutoff r = false /\ Result.feasible r = Some true /\
      has_solution r)) /\
  (has_variables self = true ->
   valid_sequence (nm (Controller.S self))
                  (Controller.partial_mode_sequence self) = true ->
   valid_sequence (nm (Controller.S self)) p = true ->
   0 < nm (Controller.S self) ->
   (forall prog, (1 <= status (optimize prog) <= 15)%Z) ->
   match warm_start with
   | Some (vb, cb) =>
       length (vars (Controller.prog self)) <= length vb /\
       length (constrs (Controller.prog self)) <= length cb
   | None => True
   end ->
   exists self' r,
     solve_relaxation optimize self p cutoff_value warm_start =
       inr (self', r)).
Proof.
  split.
  { intros self' r H st.
    destruct (solve_relaxation_inr _ _ _ _ _ _ _ H)
      as (_ & _ & _ & _ & s & Hs & Hcut & Hfeas & Hno & Hall).
    apply read_gurobi_status_inr in Hs. fold st in Hs.
    destruct Hs as (Hrange & Hc & Ho).
    split; [assumption |].
    destruct (String.eqb s "cutoff") eqn:Ec.
    - assert (E6 : st = 6%Z) by (now apply Hc).
      split; [| split].
      + intros _. split; [assumption | split; [assumption | now apply Hno]].
      + intros Hne. contradiction.
      + intros E2. lia.
    - assert (N6 : st <> 6%Z) by (intros E; apply Hc in E; discriminate).
      destruct (String.eqb s "optimal") eqn:Eo.
      + assert (E2 : st = 2%Z) by (now apply Ho).
        split; [| split].
        * intros E. contradiction.
        * intros _ Hne. contradiction.
        * intros _. split; [assumption | split; [assumption | now apply Hall]].
      + assert (N2 : st <> 2%Z) by (intros E; apply Ho in E; discriminate).
        split; [| split].
        * intros E. contradiction.
        * intros _ _. split; [assumption | split; [assumption | now apply Hno]].
        * intros E. contradiction. }
  { apply solve_relaxation_total. }
Qed.

(** C4 as stated fails: on a sub-optimal status (13) the result says
    [feasible=False] and carries no solution key. *)
Lemma solve_relaxation_suboptimal :
  exists self' r,
    solve_relaxation (fun _ => example_solution 13) example_controller []
                     None None = inr (self', r) /\
    Result.cutoff r = false /\ Result.feasible r = Some false /\
    Result.x r = None /\ Result.u r = None /\
    Result.mode_sequence r = None /\ Result.cost r = None.
Proof.
  eexists. eexists. split; [vm_compute; reflexivity |].
  repeat split.
Qed.

Lemma solve_relaxation_status_witness :
  exists self' r,
    solve_relaxation (fun _ => example_solution 2) example_controller [1]
                     (Some 10%Q) None = inr (self', r) /\
    Result.cutoff r = false /\ Result.feasible r = Some true /\
    has_solution r.
Proof.
  destruct (solve_relaxation (fun _ => example_solution 2) example_controller
              [1] (Some 10%Q) None) as [e | [self' r]] eqn:E;
    [vm_compute in E; discriminate |].
  exists self', r. split; [reflexivity |].
  exact (proj2 (proj2 (proj2
           (proj1 (solve_relaxation_status _ _ _ _ _) self' r E))) eq_refl).
Defined.
